(** * The query execution core of graphql-js (src/execution/execute.ts)

    A shallow embedding of the executor: field execution, type-directed value
    completion, null bubbling through [handleFieldError], the mixed
    value-or-promise results, and the incremental-delivery [Dispatcher].

    Conventions of the embedding.
    - A JavaScript value is a [value]; a value a resolver has not produced yet
      (a promise) is a suspended computation that is run when it is awaited.
    - A function of the source that can throw, push on an error array, call a
      resolver or hand a payload to the dispatcher is a computation in the
      monad [M]: it threads the store [St] (the error arrays and the host
      world the resolvers act on), returns a [completion] and writes the
      payloads it pushed on [_subsequentPayloads].
    - Arrays that the source shares by reference (the [errors] accumulators)
      live in the store and are passed around as references. *)

From Stdlib Require Import List String ZArith Bool Lia.
Import ListNotations.
Local Open Scope string_scope.
Local Open Scope list_scope.

Set Implicit Arguments.
Set Warnings "-register-all".
Set Warnings "-notation-overridden".
Set Warnings "-automation".
Set Warnings "-default".

(** The source's messages quote names with a double quote character. *)
Definition quoted (s : string) : string :=
  String (Ascii.ascii_of_nat 34) (s ++ String (Ascii.ascii_of_nat 34) EmptyString).

(** ** Response paths (jsutils/Path) *)

Inductive PathKey :=
| KeyName (name : string)
| KeyIndex (index : nat).

Inductive Path :=
| pathNode (prev : option Path) (key : PathKey) (typename : option string).

(** Modelled from the spec: jsutils/Path is outside src/. [addPath] creates a
    new node on descent; [pathToArray] linearizes from the root, and the
    typename does not take part. *)
Definition addPath (prev : option Path) (key : PathKey)
    (typename : option string) : Path :=
  pathNode prev key typename.

Fixpoint pathToArray (p : Path) : list PathKey :=
  match p with
  | pathNode None key _ => [key]
  | pathNode (Some q) key _ => pathToArray q ++ [key]
  end.

Definition pathToArrayOpt (p : option Path) : list PathKey :=
  match p with
  | Some q => pathToArray q
  | None => []
  end.

(** ** The document: field nodes *)

Inductive AstValue :=
| AstInt (n : Z)
| AstString (s : string)
| AstBoolean (b : bool)
| AstNull
| AstVariable (name : string).

Record DirectiveNode := {
  directiveName : string;
  directiveArguments : list (string * AstValue)
}.

Record FieldNode := {
  nodeAlias : option string;
  nodeName : string;
  nodeArguments : list (string * AstValue);
  nodeDirectives : list DirectiveNode
}.

(** ** Errors *)

(** [Error] and [GraphQLError] instances. A plain [Error] carries neither
    nodes nor path; [locatedError] fills them in. *)
Record GraphQLError := {
  message : string;
  nodes : option (list FieldNode);
  path : option (list PathKey)
}.

Definition newError (msg : string) : GraphQLError :=
  {| message := msg; nodes := None; path := None |}.

Definition newGraphQLError (msg : string) (ns : option (list FieldNode))
    : GraphQLError :=
  {| message := msg; nodes := ns; path := None |}.

(** Modelled from the spec: error/locatedError is outside src/. The located
    error shape is [{message, locations, path}]; an error that already has a
    path is an already-located error and is returned as it is, otherwise the
    field nodes and the linearized path are attached. *)
Definition locatedError (rawError : GraphQLError) (fieldNodes : list FieldNode)
    (p : list PathKey) : GraphQLError :=
  match path rawError with
  | Some _ => rawError
  | None =>
      {| message := message rawError;
         nodes := Some match nodes rawError with
                       | Some ns => ns
                       | None => fieldNodes
                       end;
         path := Some p |}
  end.

(** ** Output types *)

Inductive GraphQLOutputType :=
| GraphQLNonNull (ofType : GraphQLOutputType)
| GraphQLList (ofType : GraphQLOutputType)
| GraphQLLeaf (name : string)          (* Scalar or Enum *)
| GraphQLAbstract (name : string)      (* Interface or Union *)
| GraphQLObject (name : string).

Definition isNonNullType (t : GraphQLOutputType) : bool :=
  match t with GraphQLNonNull _ => true | _ => false end.

(** The kinds of named types [schema.getType] can return. *)
Inductive NamedTypeKind :=
| KindScalar | KindEnum | KindObject | KindInterface | KindUnion
| KindInputObject.

Inductive OperationTypeNode := QUERY | MUTATION | SUBSCRIPTION.

(** How a computation ends. *)
Inductive completion (A : Type) :=
| Normal (a : A)            (* returned; a promise: fulfilled *)
| Abrupt (e : GraphQLError) (* threw; a promise: rejected *)
| Unsettled.                (* a promise that never settles *)
Arguments Abrupt {A} e.
Arguments Unsettled {A}.

Inductive IteratorResult (A : Type) :=
| IterValue (v : A)     (* {value, done: false} *)
| IterDone.             (* {value: undefined, done: true} *)
Arguments IterDone {A}.

Section Model.

(** The host world: whatever the resolvers of the schema read and change. *)
Context {W : Type}.

(** ** JavaScript values *)

Inductive value :=
| VUndefined
| VNull
| VBoolean (b : bool)
| VNumber (n : Z)
| VString (s : string)
| VError (e : GraphQLError)             (* instanceof Error *)
| VArray (items : list value)           (* a synchronous iterable *)
| VObject (props : list (string * value))
| VObjectType (typeName : string)       (* a GraphQLObjectType instance *)
| VPromise (settle : W -> (value + GraphQLError) * W)
    (* a promise: when the host settles it, it fulfils with a value or
       rejects, and the host world moves on *)
| VAsyncIterable (results : list (value + GraphQLError)).
    (* an async sequence: what the successive [next()] calls settle to, a
       value or a rejection; once exhausted, [{done: true}] *)

(** Values in the response: what [completeValue] produces once every promise
    in it has settled. [CPromise] is a promise object that was left in the
    response without being awaited. *)
Inductive Completed :=
| CNull
| CLeaf (serialized : value)
| CList (items : list Completed)
| CObject (fields : list (string * Completed))
| CPromise.

Definition getProperty (props : list (string * value)) (key : string)
    : value :=
  match find (fun kv => String.eqb (fst kv) key) props with
  | Some kv => snd kv
  | None => VUndefined
  end.

Definition isObjectLike (v : value) : bool :=
  match v with
  | VError _ | VArray _ | VObject _ | VObjectType _ | VPromise _
  | VAsyncIterable _ => true
  | _ => false
  end.

(** JavaScript truthiness, for the results of [isTypeOf]. *)
Definition truthy (v : value) : bool :=
  match v with
  | VUndefined | VNull => false
  | VBoolean b => b
  | VNumber n => negb (Z.eqb n 0)
  | VString s => negb (String.eqb s EmptyString)
  | _ => true
  end.

(** ** The store and the execution monad *)

(** A reference to an [Array<GraphQLError>]. *)
Definition ErrorsRef := nat.

Record St := {
  errorArrays : list (list GraphQLError);
  world : W
}.

Definition readErrors (r : ErrorsRef) (st : St) : list GraphQLError :=
  nth r (errorArrays st) [].

Fixpoint pushAt (r : nat) (e : GraphQLError) (arrays : list (list GraphQLError))
    : list (list GraphQLError) :=
  match arrays, r with
  | [], _ => []
  | a :: rest, O => (a ++ [e]) :: rest
  | a :: rest, S r' => a :: pushAt r' e rest
  end.

(** What [addFields], [addValue] and [addAsyncIteratorValue] push on
    [_subsequentPayloads]: a promise of an iterator result. Running it may
    push further payloads. *)
Record DispatcherResult := {
  patchData : Completed;
  patchPath : list PathKey;
  patchLabel : option string;
  patchErrors : option (list GraphQLError)
}.

Inductive Payload :=
| payload (run : St -> completion (IteratorResult DispatcherResult) * St
                      * list Payload).

Definition M (A : Type) : Type := St -> completion A * St * list Payload.

Definition ret {A} (a : A) : M A := fun st => (Normal a, st, []).

Definition throw {A} (e : GraphQLError) : M A := fun st => (Abrupt e, st, []).

Definition never {A} : M A := fun st => (Unsettled, st, []).

Definition bind {A B} (m : M A) (f : A -> M B) : M B :=
  fun st =>
    match m st with
    | (Normal a, st1, ps1) =>
        match f a st1 with
        | (r, st2, ps2) => (r, st2, ps1 ++ ps2)
        end
    | (Abrupt e, st1, ps1) => (Abrupt e, st1, ps1)
    | (Unsettled, st1, ps1) => (Unsettled, st1, ps1)
    end.

(** [try { m } catch (rawError) { handler(rawError) }], and the rejection
    callback of [promise.then(undefined, handler)]. *)
Definition tryCatch {A} (m : M A) (handler : GraphQLError -> M A) : M A :=
  fun st =>
    match m st with
    | (Abrupt e, st1, ps1) =>
        match handler e st1 with
        | (r, st2, ps2) => (r, st2, ps1 ++ ps2)
        end
    | other => other
    end.

Notation "x <- m ;; k" := (bind m (fun x => k))
  (at level 61, m at next level, right associativity).
Notation "m ;;; k" := (bind m (fun _ => k))
  (at level 61, right associativity).

(** [errors.push(error)] *)
Definition pushError (errors : ErrorsRef) (e : GraphQLError) : M unit :=
  fun st =>
    (Normal tt,
     {| errorArrays := pushAt errors e (errorArrays st); world := world st |},
     []).

(** [const errors: Array<GraphQLError> = []] *)
Definition newErrorArray : M ErrorsRef :=
  fun st =>
    (Normal (List.length (errorArrays st)),
     {| errorArrays := errorArrays st ++ [[]]; world := world st |},
     []).

Definition getErrors (errors : ErrorsRef) : M (list GraphQLError) :=
  fun st => (Normal (readErrors errors st), st, []).

(** [this._subsequentPayloads.push(promise)] *)
Definition pushPayload (p : Payload) : M unit :=
  fun st => (Normal tt, st, [p]).

(** A value or a promise of it ([PromiseOrValue<T>]). *)
Inductive PromiseOrValue (A : Type) :=
| Ready (a : A)
| Pending (promise : M A).

Definition isPromise {A} (v : PromiseOrValue A) : bool :=
  match v with Pending _ => true | Ready _ => false end.

(** Awaiting: the continuation of a [then] sees the settled value. *)
Definition await {A} (v : PromiseOrValue A) : M A :=
  match v with
  | Ready a => ret a
  | Pending p => p
  end.

(** [promise.then(callback)] where the callback may itself return a promise,
    which the resulting promise adopts. *)
Definition thenP {A B} (p : M A) (callback : A -> M (PromiseOrValue B))
    : M B :=
  a <- p ;; r <- callback a ;; await r.

Definition withWorld (st : St) (w : W) : St :=
  {| errorArrays := errorArrays st; world := w |}.

(** The host settles a promise a resolver returned. *)
Definition settlePromise (settle : W -> (value + GraphQLError) * W)
    : M value :=
  fun st =>
    match settle (world st) with
    | (inl v, w) => (Normal v, withWorld st w, [])
    | (inr e, w) => (Abrupt e, withWorld st w, [])
    end.

(** [Promise.all(promises)]: every promise runs; the result rejects with the
    first rejection, never settles if one of them never does, and otherwise
    fulfils with the values in order. *)
Fixpoint promiseAll {A} (vs : list (PromiseOrValue A)) : M (list A) :=
  match vs with
  | [] => ret []
  | v :: rest =>
      fun st =>
        match await v st with
        | (Normal a, st1, ps1) =>
            match promiseAll rest st1 with
            | (Normal l, st2, ps2) => (Normal (a :: l), st2, ps1 ++ ps2)
            | (other, st2, ps2) =>
                (match other with
                 | Abrupt e => Abrupt e
                 | _ => Unsettled
                 end, st2, ps1 ++ ps2)
            end
        | (Abrupt e, st1, ps1) =>
            match promiseAll rest st1 with
            | (_, st2, ps2) => (Abrupt e, st2, ps1 ++ ps2)
            end
        | (Unsettled, st1, ps1) =>
            match promiseAll rest st1 with
            | (Abrupt e, st2, ps2) => (Abrupt e, st2, ps1 ++ ps2)
            | (_, st2, ps2) => (Unsettled, st2, ps1 ++ ps2)
            end
        end
  end.

(** ** The schema, as the executor consumes it *)

Record GraphQLResolveInfo := {
  fieldName : string;
  infoFieldNodes : list FieldNode;
  returnType : GraphQLOutputType;
  parentType : string;
  infoPath : Path
}.

(** A resolver may throw, may return a promise, and acts on the host world. *)
Definition GraphQLFieldResolver : Type :=
  value -> list (string * value) -> value -> GraphQLResolveInfo ->
  W -> (value + GraphQLError) * W.

Definition GraphQLTypeResolver : Type :=
  value -> value -> GraphQLResolveInfo -> string ->
  W -> (value + GraphQLError) * W.

Definition GraphQLIsTypeOfFn : Type :=
  value -> value -> GraphQLResolveInfo -> W -> (value + GraphQLError) * W.

Record GraphQLField := {
  fieldDefName : string;
  fieldType : GraphQLOutputType;
  resolve : option GraphQLFieldResolver
}.

(** Object, interface, union, scalar and enum types are named; the schema
    answers for each name what the type object answers in the source. *)
Record GraphQLSchema := {
  getQueryType : option string;
  getMutationType : option string;
  getSubscriptionType : option string;
  getType : string -> option NamedTypeKind;
  getFields : string -> list GraphQLField;          (* type.getFields() *)
  isTypeOf : string -> option GraphQLIsTypeOfFn;    (* type.isTypeOf *)
  resolveType : string -> option GraphQLTypeResolver;
  serialize : string -> value -> value + GraphQLError;
  getPossibleTypes : string -> list string;
  isSubType : string -> string -> bool
}.

Definition getRootType (schema : GraphQLSchema) (operation : OperationTypeNode)
    : option string :=
  match operation with
  | QUERY => getQueryType schema
  | MUTATION => getMutationType schema
  | SUBSCRIPTION => getSubscriptionType schema
  end.

(** ** Grouped fields *)

Record PatchRecord (G : Type) := {
  label : option string;
  patchFields : list G
}.

Record FieldsAndPatches (G : Type) := {
  fields : list G;
  patches : list (PatchRecord G)
}.

(** One entry [[responseName, fieldNodes]] of the [Map] that field collection
    returns; [fieldNodes] is not empty.

    Modelled from the spec: execution/collectFields is outside src/. What
    [collectSubfields(exeContext, returnType, fieldNodes)] returns for this
    entry (the memoized grouped sub-fields and deferred patches, by the name of
    the runtime object type) is carried by the entry itself. *)
Inductive GroupedField :=
| groupedField (responseName : string) (firstNode : FieldNode)
    (otherNodes : list FieldNode)
    (collectSubfields : string -> FieldsAndPatches GroupedField).

Definition responseName (g : GroupedField) : string :=
  match g with groupedField n _ _ _ => n end.

Definition firstNode (g : GroupedField) : FieldNode :=
  match g with groupedField _ n _ _ => n end.

Definition fieldNodes (g : GroupedField) : list FieldNode :=
  match g with groupedField _ n ns _ => n :: ns end.

Definition collectSubfields (g : GroupedField) (returnTypeName : string)
    : FieldsAndPatches GroupedField :=
  match g with groupedField _ _ _ c => c returnTypeName end.

(** ** The document *)

Record VariableDefinitionNode := {
  variableName : string;
  variableTypeName : string
}.

Record OperationDefinitionNode := {
  operation : OperationTypeNode;
  operationNameNode : option string;        (* definition.name?.value *)
  variableDefinitions : option (list VariableDefinitionNode);
  (* collectFields(schema, fragments, variableValues, rootType,
     operation.selectionSet), by the name of the root type *)
  collectFields : string -> FieldsAndPatches GroupedField
}.

Inductive DefinitionNode :=
| OPERATION_DEFINITION (definition : OperationDefinitionNode)
| FRAGMENT_DEFINITION (fragmentName : string)
| OTHER_DEFINITION.

Record DocumentNode := {
  definitions : list DefinitionNode
}.

(** What the property read [source[key]] finds: a value, or a function,
    which the default field resolver calls as a method of the source with
    [(args, contextValue, info)]. *)
Inductive Property :=
| DataProperty (v : value)
| MethodProperty
    (call : list (string * value) -> value -> GraphQLResolveInfo ->
            W -> (value + GraphQLError) * W).

(** ** Collaborators outside src/ *)

(** Modelled from the spec: jsutils/inspect, execution/values
    (getVariableValues, getArgumentValues, getDirectiveValues),
    type/validate (assertValidSchema) and the meta-field definitions of
    type/introspection are outside src/; the executor is parameterized by
    them, and by what the language does where a [value] does not say it: the
    property lookup beyond the own data properties of a plain object, and
    the error of reading the definitions of a missing document. *)
Record Host := {
  inspect : value -> string;
  getVariableValues :
    GraphQLSchema -> list VariableDefinitionNode -> value -> nat ->
    list GraphQLError + list (string * value);
      (* [{errors}] or [{coerced}]; the number is [maxErrors] *)
  getArgumentValues :
    GraphQLField -> FieldNode -> list (string * value) ->
    list (string * value) + GraphQLError;
  getDirectiveValues :
    string -> FieldNode -> list (string * value) ->
    option (list (string * value));
  assertValidSchema : GraphQLSchema -> option GraphQLError;
  missingDocumentError : GraphQLError;
    (* the TypeError of the engine when [document.definitions] is read and
       iterated on a falsy document *)
  lookupProperty : value -> string -> Property;
    (* what [source[key]] finds beyond the own data properties of a plain
       object: a method, an inherited property, an index or [length] of an
       array, [message] of an Error, ... *)
  SchemaMetaFieldDef : GraphQLField;
  TypeMetaFieldDef : GraphQLField;
  TypeNameMetaFieldDef : GraphQLField
}.

Record ExecutionContext := {
  schema : GraphQLSchema;
  rootValue : value;
  contextValue : value;
  exeOperation : OperationDefinitionNode;
  variableValues : list (string * value);
  fieldResolver : GraphQLFieldResolver;
  typeResolver : GraphQLTypeResolver;
  subscribeFieldResolver : GraphQLFieldResolver;
  exeErrors : ErrorsRef
    (* [dispatcher._subsequentPayloads] is what the computation writes *)
}.

Record ExecutionResult := {
  resultErrors : option (list GraphQLError);
  resultData : option Completed;
  resultHasNext : option bool
}.

Record ExecutionArgs := {
  argSchema : GraphQLSchema;
  argDocument : option DocumentNode;
    (* [None]: a falsy value where the document is expected *)
  argRootValue : value;
  argContextValue : value;
  argVariableValues : option value;
  argOperationName : option string;
  argFieldResolver : option GraphQLFieldResolver;
  argTypeResolver : option GraphQLTypeResolver;
  argSubscribeFieldResolver : option GraphQLFieldResolver
}.

(** ** The executor *)

Variable host : Host.

Definition liftResult {A} (r : A + GraphQLError) : M A :=
  match r with
  | inl a => ret a
  | inr e => throw e
  end.

(** A call into the host: a resolver, [isTypeOf] or [resolveType]. *)
Definition hostCall (f : W -> (value + GraphQLError) * W) : M value :=
  settlePromise f.

Definition buildResolveInfo (exeContext : ExecutionContext)
    (fieldDef : GraphQLField) (nodes : list FieldNode)
    (parentTypeName : string) (p : Path) : GraphQLResolveInfo :=
  {| fieldName := fieldDefName fieldDef;
     infoFieldNodes := nodes;
     returnType := fieldType fieldDef;
     parentType := parentTypeName;
     infoPath := p |}.

Definition handleFieldError (error : GraphQLError)
    (returnType : GraphQLOutputType) (errors : ErrorsRef) : M Completed :=
  (* If the field type is non-nullable, then it is resolved without any
     protection from errors. *)
  if isNonNullType returnType then throw error
  else
    (* Otherwise, error protection is applied, logging the error and
       resolving a null value for this field. *)
    pushError errors error ;;; ret CNull.

Definition optionStringEqb (a : option string) (b : string) : bool :=
  match a with
  | Some x => String.eqb x b
  | None => false
  end.

Definition getFieldDef (schema : GraphQLSchema) (parentType : string)
    (fieldNode : FieldNode) : option GraphQLField :=
  let fieldName := nodeName fieldNode in
  if String.eqb fieldName (fieldDefName (SchemaMetaFieldDef host))
     && optionStringEqb (getQueryType schema) parentType
  then Some (SchemaMetaFieldDef host)
  else if String.eqb fieldName (fieldDefName (TypeMetaFieldDef host))
          && optionStringEqb (getQueryType schema) parentType
  then Some (TypeMetaFieldDef host)
  else if String.eqb fieldName (fieldDefName (TypeNameMetaFieldDef host))
  then Some (TypeNameMetaFieldDef host)
  else find (fun f => String.eqb (fieldDefName f) fieldName)
            (getFields schema parentType).

Record StreamValues := {
  initialCount : option Z;
  streamLabel : option string
}.

Definition getStreamValues (exeContext : ExecutionContext)
    (g : GroupedField) : option StreamValues :=
  match getDirectiveValues host "stream" (firstNode g)
          (variableValues exeContext) with
  | None => None
  | Some stream =>
      match getProperty stream "if" with
      | VBoolean false => None
      | _ =>
          Some {| initialCount :=
                    match getProperty stream "initialCount" with
                    | VNumber n => Some n
                    | _ => None
                    end;
                  streamLabel :=
                    match getProperty stream "label" with
                    | VString l => Some l
                    | _ => None
                    end |}
      end
  end.

(** [stream && typeof stream.initialCount === 'number' &&
     index >= stream.initialCount] *)
Definition streamedFrom (stream : option StreamValues) (index : nat) : bool :=
  match stream with
  | Some {| initialCount := Some n |} => (n <=? Z.of_nat index)%Z
  | _ => false
  end.

Definition labelOf (stream : option StreamValues) : option string :=
  match stream with
  | Some s => streamLabel s
  | None => None
  end.

Definition createPatchResult (data : Completed) (label : option string)
    (p : option Path) (errors : list GraphQLError) : DispatcherResult :=
  {| patchData := data;
     patchPath := match p with Some q => pathToArray q | None => [] end;
     patchLabel := label;
     patchErrors := match errors with [] => None | _ => Some errors end |}.

Definition isNullish (v : value) : bool :=
  match v with
  | VNull | VUndefined => true
  | _ => false
  end.

(** The serialized value is returned as it is. When it is a promise, the
    callers treat it as the promise of the completed value: the response then
    holds what it resolves to, whatever that is. *)
Definition completeLeafValue (exeContext : ExecutionContext)
    (returnType : string) (result : value) : M (PromiseOrValue Completed) :=
  serializedResult <-
    liftResult (serialize (schema exeContext) returnType result) ;;
  if isNullish serializedResult then
    throw (newError
      ("Expected `" ++ returnType ++ ".serialize(" ++ inspect host result
       ++ ")` to return non-nullable value, returned: "
       ++ inspect host serializedResult))
  else
    match serializedResult with
    | VPromise settle =>
        ret (Pending (resolved <- settlePromise settle ;; ret (CLeaf resolved)))
    | _ => ret (Ready (CLeaf serializedResult))
    end.

Definition invalidReturnTypeError (returnType : string) (result : value)
    (nodes : list FieldNode) : GraphQLError :=
  newGraphQLError
    ("Expected value of type " ++ quoted returnType ++ " but got: "
     ++ inspect host result ++ ".")
    (Some nodes).

(** ** The dispatcher: what execution pushes on it *)

(** The promise [addFields] pushes. *)
Definition addFieldsPayload (promiseOrData : PromiseOrValue Completed)
    (errors : ErrorsRef) (label : option string) (p : option Path)
    : Payload :=
  payload (
    data <- await promiseOrData ;;
    errs <- getErrors errors ;;
    ret (IterValue (createPatchResult data label p errs))).

Definition addFields (promiseOrData : PromiseOrValue Completed)
    (errors : ErrorsRef) (label : option string) (p : option Path)
    : M unit :=
  pushPayload (addFieldsPayload promiseOrData errors label p).

(** In [addValue] and [addAsyncIteratorValue], [completeItem] stands for
    [completeValue(exeContext, itemType, fieldNodes, info, ...)] of the
    source. *)

(** The promise [addValue] pushes; [errors] is its own fresh array. *)
Definition addValuePayload
    (completeItem : Path -> value -> ErrorsRef -> M (PromiseOrValue Completed))
    (p : Path) (promiseOrData : value) (nodes : list FieldNode)
    (itemType : GraphQLOutputType) (label : option string)
    (errors : ErrorsRef) : Payload :=
  payload (
    data <-
      tryCatch
        (thenP
           match promiseOrData with
           | VPromise settle => settlePromise settle
           | _ => ret promiseOrData
           end
           (fun resolved => completeItem p resolved errors))
        (fun rawError =>
           handleFieldError (locatedError rawError nodes (pathToArray p))
             itemType errors) ;;
    errs <- getErrors errors ;;
    ret (IterValue (createPatchResult data label (Some p) errs))).

Definition addValue
    (completeItem : Path -> value -> ErrorsRef -> M (PromiseOrValue Completed))
    (p : Path) (promiseOrData : value) (nodes : list FieldNode)
    (itemType : GraphQLOutputType) (label : option string) : M unit :=
  errors <- newErrorArray ;;
  pushPayload
    (addValuePayload completeItem p promiseOrData nodes itemType label errors).

Fixpoint addAsyncIteratorValue
    (completeItem : Path -> value -> ErrorsRef -> M (PromiseOrValue Completed))
    (index : nat) (iterator : list (value + GraphQLError))
    (nodes : list FieldNode) (itemType : GraphQLOutputType)
    (p : option Path) (label : option string) {struct iterator} : M unit :=
  let fieldPath := addPath p (KeyIndex index) None in
  patchErrors <- newErrorArray ;;
  pushPayload (payload
    match iterator with
    | [] => ret IterDone
    | inl data :: rest =>
        addAsyncIteratorValue completeItem (S index) rest nodes itemType p
          label ;;;
        r <- tryCatch
               (completedItem <- completeItem fieldPath data patchErrors ;;
                ret (Some completedItem))
               (fun rawError =>
                  handleFieldError
                    (locatedError rawError nodes (pathToArray fieldPath))
                    itemType patchErrors ;;;
                  ret None) ;;
        match r with
        | Some completedItem =>
            (* a rejection of [completedItem] is not handled here *)
            resolveItem <- await completedItem ;;
            errs <- getErrors patchErrors ;;
            ret (IterValue
                   (createPatchResult resolveItem label (Some fieldPath) errs))
        | None =>
            errs <- getErrors patchErrors ;;
            ret (IterValue
                   (createPatchResult CNull label (Some fieldPath) errs))
        end
    | inr rawError :: _ =>
        handleFieldError
          (locatedError rawError nodes (pathToArray fieldPath))
          itemType patchErrors ;;;
        errs <- getErrors patchErrors ;;
        ret (IterValue (createPatchResult CNull label (Some fieldPath) errs))
    end).

(** ** Completing lists *)

Fixpoint readyValues {A} (vs : list (PromiseOrValue A)) : list A :=
  match vs with
  | [] => []
  | Ready a :: rest => a :: readyValues rest
  | Pending _ :: rest => readyValues rest
  end.

(** The state of the [next] loop of [completeAsyncIteratorValue]: the one
    array object [completedResults], the flag, and what the array held when
    [resolve] was first called (later calls of [resolve] do nothing). *)
Record AsyncListState := {
  completedResults : list (PromiseOrValue Completed);
  containsPromise : bool;
  resolvedWith : option (list (PromiseOrValue Completed) * bool)
}.

Definition pushResult (s : AsyncListState) (item : PromiseOrValue Completed)
    : AsyncListState :=
  {| completedResults := completedResults s ++ [item];
     containsPromise := containsPromise s;
     resolvedWith := resolvedWith s |}.

Definition markPromise (s : AsyncListState) (b : bool) : AsyncListState :=
  {| completedResults := completedResults s;
     containsPromise := if b then true else containsPromise s;
     resolvedWith := resolvedWith s |}.

Definition resolveNow (s : AsyncListState) : AsyncListState :=
  match resolvedWith s with
  | Some _ => s
  | None =>
      {| completedResults := completedResults s;
         containsPromise := containsPromise s;
         resolvedWith := Some (completedResults s, containsPromise s) |}
  end.

Section AsyncIterator.

Variable completeItem :
  Path -> value -> ErrorsRef -> M (PromiseOrValue Completed).
Variable stream : option StreamValues.
Variable nodes : list FieldNode.
Variable itemType : GraphQLOutputType.
Variable p : Path.
Variable errors : ErrorsRef.

(** [next(index, completedResults)] and the callbacks of
    [iterator.next().then(...)], run until no callback is left. A callback
    that throws ends there: the promise [then] returned is dropped, so
    neither [resolve] nor the next [next] is reached. *)
Fixpoint asyncIteratorNext (iterator : list (value + GraphQLError))
    (index : nat) (s : AsyncListState) {struct iterator} : M AsyncListState :=
  if streamedFrom stream index then
    addAsyncIteratorValue completeItem index iterator nodes itemType (Some p)
      (labelOf stream) ;;;
    ret (resolveNow s)
  else
    let fieldPath := addPath (Some p) (KeyIndex index) None in
    match iterator with
    | [] => ret (resolveNow s)
    | inl v :: rest =>
        r <- tryCatch
               (completedItem <- completeItem fieldPath v errors ;;
                ret (inl completedItem))
               (fun rawError => ret (inr rawError)) ;;
        match r with
        | inl completedItem =>
            asyncIteratorNext rest (S index)
              (pushResult (markPromise s (isPromise completedItem))
                 completedItem)
        | inr rawError =>
            let s1 := pushResult s (Ready CNull) in
            handled <-
              tryCatch
                (handleFieldError
                   (locatedError rawError nodes (pathToArray fieldPath))
                   itemType errors ;;;
                 ret true)
                (fun _ => ret false) ;;
            if handled : bool then
              (* resolve(completedResults), then on to
                 next(index + 1, completedResults) *)
              asyncIteratorNext rest (S index) (resolveNow s1)
            else ret s1
        end
    | inr rawError :: _ =>
        let s1 := pushResult s (Ready CNull) in
        handled <-
          tryCatch
            (handleFieldError
               (locatedError rawError nodes (pathToArray fieldPath))
               itemType errors ;;;
             ret true)
            (fun _ => ret false) ;;
        if handled : bool then ret (resolveNow s1) else ret s1
    end.

(** What an array of the response holds: a promise that was pushed on it is
    a promise object in the response. *)
Definition arrayContents (results : list (PromiseOrValue Completed))
    : list Completed :=
  map (fun item =>
         match item with
         | Ready c => c
         | Pending _ => CPromise
         end)
      results.

(** The promise settles when [resolve] is first called; if never, it never
    settles. When [containsPromise] is set by then, it fulfils with
    [Promise.all(completedResults)], a new array of what [completedResults]
    holds at that moment. Otherwise it fulfils with the array object
    [completedResults] itself, which becomes the list in the response: the
    callbacks that run after [resolve] push on that same object, so the list
    in the response holds what the array holds once the loop is over. *)
Definition completeAsyncIteratorValue
    (iterator : list (value + GraphQLError)) : M (PromiseOrValue Completed) :=
  ret (Pending (
    s <- asyncIteratorNext iterator 0
           {| completedResults := []; containsPromise := false;
              resolvedWith := None |} ;;
    match resolvedWith s with
    | None => never
    | Some (results, true) => l <- promiseAll results ;; ret (CList l)
    | Some (_, false) => ret (CList (arrayContents (completedResults s)))
    end)).

(** The [for (const item of result)] loop of [completeListValue]. *)
Fixpoint completeListItems (result : list value) (index : nat)
    (containsPromise : bool)
    (completedResults : list (PromiseOrValue Completed))
    {struct result} : M (bool * list (PromiseOrValue Completed)) :=
  match result with
  | [] => ret (containsPromise, completedResults)
  | item :: rest =>
      let itemPath := addPath (Some p) (KeyIndex index) None in
      if streamedFrom stream index then
        addValue completeItem itemPath item nodes itemType (labelOf stream) ;;;
        completeListItems rest (S index) containsPromise completedResults
      else
        r <- tryCatch
               (completedItem <-
                  match item with
                  | VPromise settle =>
                      ret (Pending
                             (thenP (settlePromise settle)
                                (fun resolved =>
                                   completeItem itemPath resolved errors)))
                  | _ => completeItem itemPath item errors
                  end ;;
                match completedItem with
                | Pending promise =>
                    ret (true,
                         completedResults ++
                         [Pending
                            (tryCatch promise
                               (fun rawError =>
                                  handleFieldError
                                    (locatedError rawError nodes
                                       (pathToArray itemPath))
                                    itemType errors))])
                | Ready c => ret (containsPromise, completedResults ++ [Ready c])
                end)
               (fun rawError =>
                  c <- handleFieldError
                         (locatedError rawError nodes (pathToArray itemPath))
                         itemType errors ;;
                  ret (containsPromise, completedResults ++ [Ready c])) ;;
        completeListItems rest (S index) (fst r) (snd r)
  end.

End AsyncIterator.

Definition completeListValue
    (completeItem : Path -> value -> ErrorsRef -> M (PromiseOrValue Completed))
    (exeContext : ExecutionContext) (itemType : GraphQLOutputType)
    (g : GroupedField) (info : GraphQLResolveInfo) (p : Path)
    (result : value) (errors : ErrorsRef) : M (PromiseOrValue Completed) :=
  match result with
  | VAsyncIterable iterator =>
      completeAsyncIteratorValue completeItem
        (getStreamValues exeContext g) (fieldNodes g) itemType p errors
        iterator
  | VArray items =>
      let stream := getStreamValues exeContext g in
      r <- completeListItems completeItem stream (fieldNodes g) itemType p
             errors items 0 false [] ;;
      if fst r : bool
      then ret (Pending (l <- promiseAll (snd r) ;; ret (CList l)))
      else ret (Ready (CList (readyValues (snd r))))
  | _ =>
      throw (newGraphQLError
        ("Expected Iterable, but did not find one for field "
         ++ quoted (parentType info ++ "." ++ fieldName info) ++ ".")
        None)
  end.

(** ** The inline part of a list, element by element *)

(** The entry of the list for the element at [index], in the words of the
    spec: the element, awaited first when it is a promise, is completed at
    [path + index] against the accumulator [errors]; an error of its
    completion, thrown now or by the rejection of its promise, is located at
    that path and handled by [handleFieldError] for the element type.
    [completeListValue] is compared with this definition in C4. *)
Definition completeElementAt
    (completeItem : Path -> value -> ErrorsRef -> M (PromiseOrValue Completed))
    (nodes : list FieldNode) (itemType : GraphQLOutputType) (p : Path)
    (errors : ErrorsRef) (index : nat) (item : value)
    : M (PromiseOrValue Completed) :=
  let itemPath := addPath (Some p) (KeyIndex index) None in
  let handled rawError :=
    handleFieldError (locatedError rawError nodes (pathToArray itemPath))
      itemType errors in
  match item with
  | VPromise settle =>
      ret (Pending
             (tryCatch
                (thenP (settlePromise settle)
                   (fun resolved => completeItem itemPath resolved errors))
                handled))
  | _ =>
      tryCatch
        (completed <- completeItem itemPath item errors ;;
         match completed with
         | Ready c => ret (Ready c)
         | Pending promise => ret (Pending (tryCatch promise handled))
         end)
        (fun rawError => c <- handled rawError ;; ret (Ready c))
  end.

(** The elements completed one after the other, from [index] on; the entries
    in the order of the elements. *)
Fixpoint completeElementsFrom
    (completeItem : Path -> value -> ErrorsRef -> M (PromiseOrValue Completed))
    (nodes : list FieldNode) (itemType : GraphQLOutputType) (p : Path)
    (errors : ErrorsRef) (index : nat) (items : list value)
    : M (list (PromiseOrValue Completed)) :=
  match items with
  | [] => ret []
  | item :: rest =>
      entry <-
        completeElementAt completeItem nodes itemType p errors index item ;;
      entries <-
        completeElementsFrom completeItem nodes itemType p errors (S index)
          rest ;;
      ret (entry :: entries)
  end.

(** The list made of the entries: a promise of the list when an entry is a
    promise. *)
Definition listOf (entries : list (PromiseOrValue Completed))
    : PromiseOrValue Completed :=
  if existsb isPromise entries
  then Pending (l <- promiseAll entries ;; ret (CList l))
  else Ready (CList (readyValues entries)).

(** ** Completing abstract and object values *)

Definition ensureValidRuntimeType (runtimeTypeName : value)
    (exeContext : ExecutionContext) (returnType : string)
    (nodes : list FieldNode) (info : GraphQLResolveInfo) (result : value)
    : string + GraphQLError :=
  if isNullish runtimeTypeName then
    inr (newGraphQLError
      ("Abstract type " ++ quoted returnType
       ++ " must resolve to an Object type at runtime for field "
       ++ quoted (parentType info ++ "." ++ fieldName info)
       ++ ". Either the " ++ quoted returnType
       ++ " type should provide a " ++ quoted "resolveType"
       ++ " function or each possible type should provide an "
       ++ quoted "isTypeOf" ++ " function.")
      (Some nodes))
  else
    match runtimeTypeName with
    | VObjectType _ =>
        (* releases before 16.0.0 supported returning GraphQLObjectType *)
        inr (newGraphQLError
          "Support for returning GraphQLObjectType from resolveType was removed in graphql-js@16.0.0 please return type name instead."
          None)
    | VString name =>
        match getType (schema exeContext) name with
        | None =>
            inr (newGraphQLError
              ("Abstract type " ++ quoted returnType
               ++ " was resolved to a type " ++ quoted name
               ++ " that does not exist inside the schema.")
              (Some nodes))
        | Some KindObject =>
            if isSubType (schema exeContext) returnType name
            then inl name
            else
              inr (newGraphQLError
                ("Runtime Object type " ++ quoted name
                 ++ " is not a possible type for " ++ quoted returnType
                 ++ ".")
                (Some nodes))
        | Some _ =>
            inr (newGraphQLError
              ("Abstract type " ++ quoted returnType
               ++ " was resolved to a non-object type " ++ quoted name
               ++ ".")
              (Some nodes))
        end
    | _ =>
        inr (newGraphQLError
          ("Abstract type " ++ quoted returnType
           ++ " must resolve to an Object type at runtime for field "
           ++ quoted (parentType info ++ "." ++ fieldName info)
           ++ " with value " ++ inspect host result ++ ", received "
           ++ quoted (inspect host runtimeTypeName) ++ ".")
          None)
    end.

Fixpoint forEach {A} (l : list A) (body : A -> M unit) : M unit :=
  match l with
  | [] => ret tt
  | a :: rest => body a ;;; forEach rest body
  end.

(** ** Executing selection sets *)

(** [results[responseName] = result] on an object with insertion order. *)
Fixpoint setProperty {A} (object : list (string * A)) (key : string) (v : A)
    : list (string * A) :=
  match object with
  | [] => [(key, v)]
  | (k, old) :: rest =>
      if String.eqb k key then (k, v) :: rest
      else (k, old) :: setProperty rest key v
  end.

Fixpoint readyEntries {A} (object : list (string * PromiseOrValue A))
    : list (string * A) :=
  match object with
  | [] => []
  | (k, Ready a) :: rest => (k, a) :: readyEntries rest
  | (_, Pending _) :: rest => readyEntries rest
  end.

(** Modelled from the spec: jsutils/promiseForObject is outside src/
    ([mapObject] of the value monad): a promise of the same object with every
    promise replaced by the value it resolved to. *)
Definition promiseForObject
    (object : list (string * PromiseOrValue Completed)) : M Completed :=
  resolvedValues <- promiseAll (map snd object) ;;
  ret (CObject (combine (map fst object) resolvedValues)).

(** [executeField] for one entry of the grouped fields:
    [fun exeContext parentType source path errors =>
       executeField(exeContext, parentType, source, fieldNodes, path, errors)].
    The functions below receive the grouped fields as entries
    [(responseName, executor)], so that the recursion through sub-selections
    is structural on [GroupedField]; [executeFields] further down takes the
    entries themselves. *)
Definition FieldExecutor : Type :=
  ExecutionContext -> string -> value -> Path -> ErrorsRef ->
  M (option (PromiseOrValue Completed)).

(** The [for] loop of [executeFields] over [fields.entries()]. *)
Fixpoint executeFieldsLoop (exeContext : ExecutionContext)
    (parentType : string) (sourceValue : value) (p : option Path)
    (errors : ErrorsRef) (fields : list (string * FieldExecutor))
    (results : list (string * PromiseOrValue Completed))
    (containsPromise : bool) {struct fields}
    : M (list (string * PromiseOrValue Completed) * bool) :=
  match fields with
  | [] => ret (results, containsPromise)
  | (responseName, executeField) :: rest =>
      let fieldPath := addPath p (KeyName responseName) (Some parentType) in
      result <-
        executeField exeContext parentType sourceValue fieldPath errors ;;
      match result with
      | Some r =>
          executeFieldsLoop exeContext parentType sourceValue p errors rest
            (setProperty results responseName r)
            (if isPromise r then true else containsPromise)
      | None =>
          executeFieldsLoop exeContext parentType sourceValue p errors rest
            results containsPromise
      end
  end.

Definition executeFieldsFrom (exeContext : ExecutionContext)
    (parentType : string) (sourceValue : value) (p : option Path)
    (fields : list (string * FieldExecutor)) (errors : ErrorsRef)
    : M (PromiseOrValue Completed) :=
  r <- executeFieldsLoop exeContext parentType sourceValue p errors fields
         [] false ;;
  (* If there are no promises, we can just return the object *)
  if negb (snd r) then ret (Ready (CObject (readyEntries (fst r))))
  else ret (Pending (promiseForObject (fst r))).

Section Completion.

(** [collectSubfields(exeContext, returnType, fieldNodes)] for the field
    being completed, each entry with its executor; the recursion is closed in
    [executeField] below. *)
Variable subfields : string -> FieldsAndPatches (string * FieldExecutor).

Definition collectAndExecuteSubfields (exeContext : ExecutionContext)
    (returnType : string) (g : GroupedField) (p : Path) (result : value)
    (errors : ErrorsRef) : M (PromiseOrValue Completed) :=
  (* Collect sub-fields to execute to complete this value. *)
  let subFieldNodes := fields (subfields returnType) in
  let subPatches := patches (subfields returnType) in
  subFields <-
    executeFieldsFrom exeContext returnType result (Some p) subFieldNodes
      errors ;;
  forEach subPatches (fun subPatch =>
    subPatchErrors <- newErrorArray ;;
    data <- executeFieldsFrom exeContext returnType result (Some p)
              (patchFields subPatch) subPatchErrors ;;
    addFields data subPatchErrors (label subPatch) (Some p)) ;;;
  ret subFields.

Definition completeObjectValue (exeContext : ExecutionContext)
    (returnType : string) (g : GroupedField) (info : GraphQLResolveInfo)
    (p : Path) (result : value) (errors : ErrorsRef)
    : M (PromiseOrValue Completed) :=
  match isTypeOf (schema exeContext) returnType with
  | Some isTypeOfFn =>
      isTypeOfResult <-
        hostCall (isTypeOfFn result (contextValue exeContext) info) ;;
      match isTypeOfResult with
      | VPromise settle =>
          ret (Pending
            (thenP (settlePromise settle) (fun resolvedIsTypeOf =>
               if negb (truthy resolvedIsTypeOf) then
                 throw (invalidReturnTypeError returnType result
                          (fieldNodes g))
               else
                 collectAndExecuteSubfields exeContext returnType g p result
                   errors)))
      | _ =>
          if negb (truthy isTypeOfResult) then
            throw (invalidReturnTypeError returnType result (fieldNodes g))
          else
            collectAndExecuteSubfields exeContext returnType g p result errors
      end
  | None =>
      collectAndExecuteSubfields exeContext returnType g p result errors
  end.

Definition completeAbstractValue (exeContext : ExecutionContext)
    (returnType : string) (g : GroupedField) (info : GraphQLResolveInfo)
    (p : Path) (result : value) (errors : ErrorsRef)
    : M (PromiseOrValue Completed) :=
  let resolveTypeFn :=
    match resolveType (schema exeContext) returnType with
    | Some f => f
    | None => typeResolver exeContext
    end in
  runtimeType <-
    hostCall (resolveTypeFn result (contextValue exeContext) info returnType) ;;
  match runtimeType with
  | VPromise settle =>
      ret (Pending
        (thenP (settlePromise settle) (fun resolvedRuntimeType =>
           runtimeObjectType <-
             liftResult
               (ensureValidRuntimeType resolvedRuntimeType exeContext
                  returnType (fieldNodes g) info result) ;;
           completeObjectValue exeContext runtimeObjectType g info p result
             errors)))
  | _ =>
      runtimeObjectType <-
        liftResult
          (ensureValidRuntimeType runtimeType exeContext returnType
             (fieldNodes g) info result) ;;
      completeObjectValue exeContext runtimeObjectType g info p result errors
  end.

Fixpoint completeValue (exeContext : ExecutionContext)
    (returnType : GraphQLOutputType) (g : GroupedField)
    (info : GraphQLResolveInfo) (p : Path) (result : value)
    (errors : ErrorsRef) {struct returnType} : M (PromiseOrValue Completed) :=
  match result with
  | VError e =>
      (* If result is an Error, throw a located error. *)
      throw e
  | _ =>
      match returnType with
      | GraphQLNonNull ofType =>
          (* If field type is NonNull, complete for inner type, and throw
             field error if result is null. *)
          completed <- completeValue exeContext ofType g info p result errors ;;
          match completed with
          | Ready CNull =>
              throw (newError
                ("Cannot return null for non-nullable field "
                 ++ parentType info ++ "." ++ fieldName info ++ "."))
          | _ => ret completed
          end
      | GraphQLList ofType =>
          if isNullish result then ret (Ready CNull)
          else
            completeListValue (completeValue exeContext ofType g info)
              exeContext ofType g info p result errors
      | GraphQLLeaf name =>
          if isNullish result then ret (Ready CNull)
          else completeLeafValue exeContext name result
      | GraphQLAbstract name =>
          if isNullish result then ret (Ready CNull)
          else completeAbstractValue exeContext name g info p result errors
      | GraphQLObject name =>
          if isNullish result then ret (Ready CNull)
          else completeObjectValue exeContext name g info p result errors
      end
  end.

End Completion.

(** ** Executing one field *)

Definition withExecutors (executeField : GroupedField -> FieldExecutor)
    (fields : list GroupedField) : list (string * FieldExecutor) :=
  map (fun g => (responseName g, executeField g)) fields.

Definition collectedWith (executeField : GroupedField -> FieldExecutor)
    (c : FieldsAndPatches GroupedField)
    : FieldsAndPatches (string * FieldExecutor) :=
  {| fields := withExecutors executeField (fields c);
     patches :=
       map (fun patch =>
              {| label := label patch;
                 patchFields :=
                   withExecutors executeField (patchFields patch) |})
           (patches c) |}.

(** The body of [executeField], given the executors of the sub-selections. *)
Definition executeFieldWith
    (subfields : string -> FieldsAndPatches (string * FieldExecutor))
    (g : GroupedField) : FieldExecutor :=
  fun exeContext parentType source p errors =>
  match getFieldDef (schema exeContext) parentType (firstNode g) with
  | None => ret None
  | Some fieldDef =>
      let returnType := fieldType fieldDef in
      let resolveFn :=
        match resolve fieldDef with
        | Some f => f
        | None => fieldResolver exeContext
        end in
      let info :=
        buildResolveInfo exeContext fieldDef (fieldNodes g) parentType p in
      completed <-
        tryCatch
          (args <- liftResult
                     (getArgumentValues host fieldDef (firstNode g)
                        (variableValues exeContext)) ;;
           result <-
             hostCall (resolveFn source args (contextValue exeContext) info) ;;
           completed <-
             match result with
             | VPromise settle =>
                 ret (Pending
                   (thenP (settlePromise settle) (fun resolved =>
                      completeValue subfields exeContext returnType g info p
                        resolved errors)))
             | _ =>
                 completeValue subfields exeContext returnType g info p
                   result errors
             end ;;
           match completed with
           | Pending promise =>
               ret (Pending
                 (tryCatch promise (fun rawError =>
                    handleFieldError
                      (locatedError rawError (fieldNodes g) (pathToArray p))
                      returnType errors)))
           | Ready c => ret (Ready c)
           end)
          (fun rawError =>
             c <- handleFieldError
                    (locatedError rawError (fieldNodes g) (pathToArray p))
                    returnType errors ;;
             ret (Ready c)) ;;
      ret (Some completed)
  end.

Fixpoint executeField (g : GroupedField) : FieldExecutor :=
  match g with
  | groupedField _ _ _ collected =>
      executeFieldWith
        (fun returnType => collectedWith executeField (collected returnType))
        g
  end.

Definition executeFields (exeContext : ExecutionContext)
    (parentType : string) (sourceValue : value) (p : option Path)
    (fields : list GroupedField) (errors : ErrorsRef)
    : M (PromiseOrValue Completed) :=
  executeFieldsFrom exeContext parentType sourceValue p
    (withExecutors executeField fields) errors.

(** ** Default resolvers *)

(** [source[key]]: the own data property of a plain object when it has one
    of that name, and otherwise what the property lookup of the language
    finds. *)
Definition readProperty (source : value) (key : string) : Property :=
  match source with
  | VObject props =>
      match find (fun kv => String.eqb (fst kv) key) props with
      | Some kv => DataProperty (snd kv)
      | None => lookupProperty host source key
      end
  | _ => lookupProperty host source key
  end.

Definition defaultFieldResolver : GraphQLFieldResolver :=
  fun source args contextValue info w =>
    (* ensure source is a value for which property access is acceptable
       (no [value] is itself a function) *)
    if isObjectLike source then
      match readProperty source (fieldName info) with
      | MethodProperty call => call args contextValue info w
      | DataProperty property => (inl property, w)
      end
    else (inl VUndefined, w).

(** [Promise.all(promisedIsTypeOfResults)]: every promise settles; the first
    rejection wins. *)
Fixpoint settleIsTypeOfResults
    (promised : list (string * (W -> (value + GraphQLError) * W))) (w : W)
    : (list (string * value) + GraphQLError) * W :=
  match promised with
  | [] => (inl [], w)
  | (name, settle) :: rest =>
      match settle w with
      | (inl v, w1) =>
          match settleIsTypeOfResults rest w1 with
          | (inl l, w2) => (inl ((name, v) :: l), w2)
          | (inr e, w2) => (inr e, w2)
          end
      | (inr e, w1) => (inr e, snd (settleIsTypeOfResults rest w1))
      end
  end.

Fixpoint defaultTypeResolverLoop (schema : GraphQLSchema) (v : value)
    (contextValue : value) (info : GraphQLResolveInfo)
    (possibleTypes : list string)
    (promisedIsTypeOfResults :
       list (string * (W -> (value + GraphQLError) * W)))
    (w : W) : (value + GraphQLError) * W :=
  match possibleTypes with
  | [] =>
      match promisedIsTypeOfResults with
      | [] => (inl VUndefined, w)
      | _ =>
          (inl (VPromise (fun w' =>
             match settleIsTypeOfResults promisedIsTypeOfResults w' with
             | (inl isTypeOfResults, w2) =>
                 (inl match find (fun r => truthy (snd r)) isTypeOfResults with
                      | Some r => VString (fst r)
                      | None => VUndefined
                      end, w2)
             | (inr e, w2) => (inr e, w2)
             end)), w)
      end
  | type :: rest =>
      match isTypeOf schema type with
      | Some isTypeOfFn =>
          match isTypeOfFn v contextValue info w with
          | (inl (VPromise settle), w1) =>
              defaultTypeResolverLoop schema v contextValue info rest
                (promisedIsTypeOfResults ++ [(type, settle)]) w1
          | (inl isTypeOfResult, w1) =>
              if truthy isTypeOfResult then (inl (VString type), w1)
              else
                defaultTypeResolverLoop schema v contextValue info rest
                  promisedIsTypeOfResults w1
          | (inr e, w1) => (inr e, w1)
          end
      | None =>
          defaultTypeResolverLoop schema v contextValue info rest
            promisedIsTypeOfResults w
      end
  end.

(** [info.schema] of the source is the schema given here. *)
Definition defaultTypeResolver (schema : GraphQLSchema) : GraphQLTypeResolver :=
  fun v contextValue info abstractType w =>
    (* First, look for `__typename`. *)
    match v with
    | VObject props =>
        match getProperty props "__typename" with
        | VString name => (inl (VString name), w)
        | _ =>
            defaultTypeResolverLoop schema v contextValue info
              (getPossibleTypes schema abstractType) [] w
        end
    | _ =>
        (* Otherwise, test each possible type. *)
        defaultTypeResolverLoop schema v contextValue info
          (getPossibleTypes schema abstractType) [] w
    end.

(** ** Executing operations *)

(** Modelled from the spec: jsutils/promiseReduce is outside src/. The
    callback for the next value starts only once the accumulator, when it is
    a promise, has resolved. *)
Fixpoint promiseReduce {A B} (values : list A)
    (callbackFn : B -> A -> M (PromiseOrValue B))
    (accumulator : PromiseOrValue B) : M (PromiseOrValue B) :=
  match values with
  | [] => ret accumulator
  | v :: rest =>
      next <-
        match accumulator with
        | Pending promise =>
            ret (Pending
                   (thenP promise (fun resolved => callbackFn resolved v)))
        | Ready a => callbackFn a v
        end ;;
      promiseReduce rest callbackFn next
  end.

Definition objectOf (results : PromiseOrValue (list (string * Completed)))
    : PromiseOrValue Completed :=
  match results with
  | Ready r => Ready (CObject r)
  | Pending promise => Pending (r <- promise ;; ret (CObject r))
  end.

Definition executeFieldsSerially (exeContext : ExecutionContext)
    (parentType : string) (sourceValue : value) (p : option Path)
    (fields : list GroupedField) : M (PromiseOrValue Completed) :=
  results <-
    promiseReduce fields
      (fun results g =>
         let fieldPath :=
           addPath p (KeyName (responseName g)) (Some parentType) in
         result <-
           executeField g exeContext parentType sourceValue fieldPath
             (exeErrors exeContext) ;;
         match result with
         | None => ret (Ready results)
         | Some (Pending promise) =>
             ret (Pending
               (resolvedResult <- promise ;;
                ret (setProperty results (responseName g) resolvedResult)))
         | Some (Ready r) =>
             ret (Ready (setProperty results (responseName g) r))
         end)
      (Ready []) ;;
  ret (objectOf results).

(** The serial order in the words of the spec: each field is executed and
    its value, when it is a promise, is awaited to settlement before the next
    field is executed; the settled values accumulate in the response object
    under their response names, in insertion order. [executeFieldsSerially]
    is compared with this definition in C6. *)
Fixpoint executeOneAfterTheOther (exeContext : ExecutionContext)
    (parentType : string) (sourceValue : value) (p : option Path)
    (fields : list GroupedField) (results : list (string * Completed))
    : M (list (string * Completed)) :=
  match fields with
  | [] => ret results
  | g :: rest =>
      result <-
        executeField g exeContext parentType sourceValue
          (addPath p (KeyName (responseName g)) (Some parentType))
          (exeErrors exeContext) ;;
      match result with
      | None =>
          executeOneAfterTheOther exeContext parentType sourceValue p rest
            results
      | Some r =>
          settled <- await r ;;
          executeOneAfterTheOther exeContext parentType sourceValue p rest
            (setProperty results (responseName g) settled)
      end
  end.

Definition operationTypeName (o : OperationTypeNode) : string :=
  match o with
  | QUERY => "query"
  | MUTATION => "mutation"
  | SUBSCRIPTION => "subscription"
  end.

Definition executeOperation (exeContext : ExecutionContext)
    (op : OperationDefinitionNode) (rootValue : value)
    : M (PromiseOrValue Completed) :=
  match getRootType (schema exeContext) (operation op) with
  | None =>
      (* the node of this error is the operation, not a field node *)
      throw (newGraphQLError
        ("Schema is not configured to execute "
         ++ operationTypeName (operation op) ++ " operation.")
        (Some []))
  | Some rootType =>
      let rootFields := fields (collectFields op rootType) in
      let rootPatches := patches (collectFields op rootType) in
      let p : option Path := None in
      result <-
        match operation op with
        | QUERY =>
            executeFields exeContext rootType rootValue p rootFields
              (exeErrors exeContext)
        | MUTATION =>
            executeFieldsSerially exeContext rootType rootValue p rootFields
        | SUBSCRIPTION =>
            executeFields exeContext rootType rootValue p rootFields
              (exeErrors exeContext)
        end ;;
      forEach rootPatches (fun patch =>
        errors <- newErrorArray ;;
        data <- executeFields exeContext rootType rootValue p
                  (patchFields patch) (exeErrors exeContext) ;;
        addFields data errors (label patch) p) ;;;
      ret result
  end.

(** ** The execution context *)

(** The [for (const definition of document.definitions)] loop of
    [buildExecutionContext]; an early [return] of an error list is [inl]. *)
Fixpoint findOperation (definitions : list DefinitionNode)
    (operationName : option string)
    (operation : option OperationDefinitionNode)
    : list GraphQLError + option OperationDefinitionNode :=
  match definitions with
  | [] => inr operation
  | OPERATION_DEFINITION definition :: rest =>
      match operationName with
      | None =>
          match operation with
          | Some _ =>
              inl [newGraphQLError
                     "Must provide operation name if query contains multiple operations."
                     None]
          | None => findOperation rest operationName (Some definition)
          end
      | Some name =>
          if optionStringEqb (operationNameNode definition) name
          then findOperation rest operationName (Some definition)
          else findOperation rest operationName operation
      end
  | _ :: rest => findOperation rest operationName operation
  end.

(** [inr] is what [buildExecutionContext] throws: the source reads
    [document.definitions] first, which fails on a missing document. Of what
    it returns, [inl] is the error list and [inr] the context. *)
Definition buildExecutionContext (args : ExecutionArgs)
    : (list GraphQLError + ExecutionContext) + GraphQLError :=
  match argDocument args with
  | None => inr (missingDocumentError host)
  | Some document =>
      inl
        match
          findOperation (definitions document) (argOperationName args) None
        with
        | inl errors => inl errors
        | inr None =>
            match argOperationName args with
            | Some operationName =>
                inl [newGraphQLError
                       ("Unknown operation named " ++ quoted operationName
                        ++ ".")
                       None]
            | None => inl [newGraphQLError "Must provide an operation." None]
            end
        | inr (Some operation) =>
            let variableDefinitions :=
              match variableDefinitions operation with
              | Some defs => defs
              | None => []
              end in
            let coercedVariableValues :=
              getVariableValues host (argSchema args) variableDefinitions
                match argVariableValues args with
                | Some raw => if isNullish raw then VObject [] else raw
                | None => VObject []
                end
                50 in
            match coercedVariableValues with
            | inl errors => inl errors
            | inr coerced =>
                inr {| schema := argSchema args;
                       rootValue := argRootValue args;
                       contextValue := argContextValue args;
                       exeOperation := operation;
                       variableValues := coerced;
                       fieldResolver :=
                         match argFieldResolver args with
                         | Some f => f
                         | None => defaultFieldResolver
                         end;
                       typeResolver :=
                         match argTypeResolver args with
                         | Some f => f
                         | None => defaultTypeResolver (argSchema args)
                         end;
                       subscribeFieldResolver :=
                         match argSubscribeFieldResolver args with
                         | Some f => f
                         | None => defaultFieldResolver
                         end;
                       (* errors: [] is the first array of the store *)
                       exeErrors := 0 |}
            end
        end
  end.

(** [Some] is the error thrown. [devAssert] (jsutils, outside src/) throws
    an [Error] with the message when its condition is falsy. *)
Definition assertValidExecutionArguments (schema : GraphQLSchema)
    (document : option DocumentNode) (rawVariableValues : option value)
    : option GraphQLError :=
  match document with
  | None => Some (newError "Must provide document.")
  | Some _ =>
      (* If the schema used for execution is invalid, throw an error. *)
      match assertValidSchema host schema with
      | Some e => Some e
      | None =>
          (* Variables, if provided, must be an object. *)
          match rawVariableValues with
          | None => None
          | Some raw =>
              if isNullish raw || isObjectLike raw then None
              else
                Some (newError
                  "Variables must be provided as an Object where each property is a variable value. Perhaps look to see if an unparsed JSON string was provided.")
          end
      end
  end.

Definition buildResponse (data : Completed) (errors : list GraphQLError)
    : ExecutionResult :=
  match errors with
  | [] =>
      {| resultErrors := None; resultData := Some data;
         resultHasNext := None |}
  | _ =>
      {| resultErrors := Some errors; resultData := Some data;
         resultHasNext := None |}
  end.

(** ** The dispatcher *)

Record Dispatcher := {
  _subsequentPayloads : list Payload;
  _initialResult : option ExecutionResult;
  _hasReturnedInitialResult : bool
}.

(** [new Dispatcher()] once execution has pushed [payloads] on it. *)
Definition dispatcherWith (payloads : list Payload) : Dispatcher :=
  {| _subsequentPayloads := payloads;
     _initialResult := None;
     _hasReturnedInitialResult := false |}.

Definition hasSubsequentPayloads (d : Dispatcher) : bool :=
  negb (Nat.eqb (List.length (_subsequentPayloads d)) 0).

(** [get(initialResult)]: the async iterable is the dispatcher itself. *)
Definition get (d : Dispatcher) (initialResult : ExecutionResult)
    : Dispatcher :=
  {| _subsequentPayloads := _subsequentPayloads d;
     _initialResult := Some initialResult;
     _hasReturnedInitialResult := _hasReturnedInitialResult d |}.

(** ** execute and executeSync *)

Inductive ExecuteReturn :=
| ReturnsResult (r : ExecutionResult)
| ReturnsAsyncIterable (d : Dispatcher)
| ReturnsPromise
    (promise : St -> completion (ExecutionResult + Dispatcher) * St).

Definition pushErrorSt (errors : ErrorsRef) (e : GraphQLError) (st : St)
    : St :=
  {| errorArrays := pushAt errors e (errorArrays st); world := world st |}.

Definition initialStore (w : W) : St :=
  {| errorArrays := [[]]; world := w |}.

(** [inr] is the error [execute] throws; the store is the one execution
    leaves behind. *)
Definition execute (args : ExecutionArgs) (w : W)
    : (ExecuteReturn + GraphQLError) * St :=
  let st0 := initialStore w in
  (* If arguments are missing or incorrect, throw an error. *)
  match assertValidExecutionArguments (argSchema args) (argDocument args)
          (argVariableValues args) with
  | Some e => (inr e, st0)
  | None =>
      match buildExecutionContext args with
      | inr e =>
          (* not reached: the document was asserted *)
          (inr e, st0)
      | inl (inl errors) =>
          (* Return early errors if execution context failed. *)
          (inl (ReturnsResult
                  {| resultErrors := Some errors; resultData := None;
                     resultHasNext := None |}), st0)
      | inl (inr exeContext) =>
          match executeOperation exeContext (exeOperation exeContext)
                  (argRootValue args) st0 with
          | (Normal (Pending promise), st1, payloads1) =>
              (inl (ReturnsPromise (fun st =>
                 match promise st with
                 | (Normal data, st2, payloads2) =>
                     let initialResult :=
                       buildResponse data
                         (readErrors (exeErrors exeContext) st2) in
                     let dispatcher :=
                       dispatcherWith (payloads1 ++ payloads2) in
                     if hasSubsequentPayloads dispatcher
                     then (Normal (inr (get dispatcher initialResult)), st2)
                     else (Normal (inl initialResult), st2)
                 | (Abrupt error, st2, _) =>
                     let st3 := pushErrorSt (exeErrors exeContext) error st2 in
                     (Normal
                        (inl (buildResponse CNull
                                (readErrors (exeErrors exeContext) st3))),
                      st3)
                 | (Unsettled, st2, _) => (Unsettled, st2)
                 end)), st1)
          | (Normal (Ready data), st1, payloads1) =>
              let initialResult :=
                buildResponse data (readErrors (exeErrors exeContext) st1) in
              let dispatcher := dispatcherWith payloads1 in
              if hasSubsequentPayloads dispatcher
              then (inl (ReturnsAsyncIterable (get dispatcher initialResult)),
                    st1)
              else (inl (ReturnsResult initialResult), st1)
          | (Abrupt error, st1, _) =>
              let st2 := pushErrorSt (exeErrors exeContext) error st1 in
              (inl (ReturnsResult
                      (buildResponse CNull
                         (readErrors (exeErrors exeContext) st2))), st2)
          | (Unsettled, st1, _) =>
              (* not reached: only a promise can stay unsettled *)
              (inl (ReturnsPromise (fun st => (Unsettled, st))), st1)
          end
      end
  end.

Definition executeSync (args : ExecutionArgs) (w : W)
    : (ExecutionResult + GraphQLError) * St :=
  match execute args w with
  | (inr e, st) => (inr e, st)
  | (inl result, st) =>
      (* Assert that the execution was synchronous. *)
      match result with
      | ReturnsPromise _ | ReturnsAsyncIterable _ =>
          (inr (newError
                  "GraphQL execution failed to complete synchronously."), st)
      | ReturnsResult r => (inl r, st)
      end
  end.

(** ** The async sequence of the dispatcher *)

(** [{...value, hasNext}]; the last payload [{hasNext: false}] spreads no
    patch. *)
Record ExecutionPatchResult := {
  patch : option DispatcherResult;
  hasNext : bool
}.

Inductive AsyncExecutionResult :=
| InitialResult (r : ExecutionResult)
| PatchResult (r : ExecutionPatchResult).

(** [this._subsequentPayloads.splice(this._subsequentPayloads.indexOf(promise),
    1)]: the promises of the queue are distinct objects, so the index found
    is the index of the promise that settled. *)
Fixpoint splice {A} (l : list A) (index : nat) : list A :=
  match l, index with
  | [], _ => []
  | _ :: rest, O => rest
  | a :: rest, S i => a :: splice rest i
  end.

Fixpoint replaceAt {A} (l : list A) (index : nat) (a : A) : list A :=
  match l, index with
  | [], _ => []
  | _ :: rest, O => a :: rest
  | b :: rest, S i => b :: replaceAt rest i a
  end.

Definition withPayloads (d : Dispatcher) (payloads : list Payload)
    : Dispatcher :=
  {| _subsequentPayloads := payloads;
     _initialResult := _initialResult d;
     _hasReturnedInitialResult := _hasReturnedInitialResult d |}.

(** [_race()]. Which pending promise settles first is the host's choice: the
    schedule lists, in order, the index in the queue of the promise the host
    settles next. A promise that fulfils wins the race. A promise that rejects
    or never settles calls no [then] callback: it stays in the queue, settled
    as it is, and the race goes on. [None]: the promise [_race] returned is
    still pending when the schedule ends. *)
Fixpoint _race (schedule : list nat) (d : Dispatcher) (st : St)
    {struct schedule}
    : option (IteratorResult ExecutionPatchResult * Dispatcher * St) :=
  match schedule with
  | [] => None
  | index :: later =>
      match nth_error (_subsequentPayloads d) index with
      | None => None
      | Some (payload run) =>
          match run st with
          | (Normal result, st1, pushed) =>
              let d1 :=
                withPayloads d
                  (splice (_subsequentPayloads d ++ pushed) index) in
              match result with
              | IterDone =>
                  if Nat.eqb (List.length (_subsequentPayloads d1)) 0 then
                    (* async iterable resolver just finished and no more
                       pending payloads *)
                    Some (IterValue {| patch := None; hasNext := false |},
                          d1, st1)
                  else
                    (* async iterable resolver just finished but there are
                       pending payloads: return the next one *)
                    _race later d1 st1
              | IterValue v =>
                  Some (IterValue
                          {| patch := Some v;
                             hasNext :=
                               negb (Nat.eqb
                                 (List.length (_subsequentPayloads d1)) 0) |},
                        d1, st1)
              end
          | (Abrupt e, st1, pushed) =>
              _race later
                (withPayloads d
                   (replaceAt (_subsequentPayloads d) index
                      (payload (throw e)) ++ pushed))
                st1
          | (Unsettled, st1, pushed) =>
              _race later
                (withPayloads d
                   (replaceAt (_subsequentPayloads d) index
                      (payload never) ++ pushed))
                st1
          end
      end
  end.

Definition _next (schedule : list nat) (d : Dispatcher) (st : St)
    : option (IteratorResult AsyncExecutionResult * Dispatcher * St) :=
  if negb (_hasReturnedInitialResult d) then
    Some (IterValue
            (InitialResult
               match _initialResult d with
               | Some r =>
                   {| resultErrors := resultErrors r;
                      resultData := resultData r;
                      resultHasNext := Some true |}
               | None =>
                   {| resultErrors := None; resultData := None;
                      resultHasNext := Some true |}
               end),
          {| _subsequentPayloads := _subsequentPayloads d;
             _initialResult := _initialResult d;
             _hasReturnedInitialResult := true |},
          st)
  else if Nat.eqb (List.length (_subsequentPayloads d)) 0 then
    Some (IterDone, d, st)
  else
    match _race schedule d st with
    | Some (IterValue r, d1, st1) => Some (IterValue (PatchResult r), d1, st1)
    | Some (IterDone, d1, st1) => Some (IterDone, d1, st1)
    | None => None
    end.

(** ** Operations without futures and without incremental delivery *)

(** No promise and no async sequence anywhere in the value. *)
Fixpoint syncValue (v : value) : bool :=
  match v with
  | VPromise _ | VAsyncIterable _ => false
  | VArray items => forallb syncValue items
  | VObject props => forallb (fun kv => syncValue (snd kv)) props
  | _ => true
  end.

(** A resolver that, on a source without futures, returns no future (nor a
    list of futures, nor an async sequence). *)
Definition syncResolver (f : GraphQLFieldResolver) : Prop :=
  forall source args contextValue info w v w1,
    syncValue source = true ->
    f source args contextValue info w = (inl v, w1) ->
    syncValue v = true.

(** The call returned no promise. *)
Definition noPromise (r : (value + GraphQLError) * W) : Prop :=
  forall settle w, r <> (inl (VPromise settle), w).

(** The entry carries no [@stream], and no [@defer] patch is collected for
    it; the same below it. *)
Inductive notIncremental (variables : list (string * value))
    : GroupedField -> Prop :=
| notIncremental_intro (g : GroupedField) :
    getDirectiveValues host "stream" (firstNode g) variables = None ->
    (forall returnType, patches (collectSubfields g returnType) = []) ->
    (forall returnType g',
       In g' (fields (collectSubfields g returnType)) ->
       notIncremental variables g') ->
    notIncremental variables g.

(** The computation ended with a value or a throw, not with a promise, and
    pushed no payload. *)
Definition endsSynchronously {A}
    (r : completion (PromiseOrValue A) * St * list Payload) : Prop :=
  snd r = [] /\
  match fst (fst r) with
  | Normal (Pending _) | Unsettled => False
  | _ => True
  end.

Definition fieldEndsSynchronously
    (r : completion (option (PromiseOrValue Completed)) * St * list Payload)
    : Prop :=
  snd r = [] /\
  match fst (fst r) with
  | Normal (Some (Pending _)) | Unsettled => False
  | _ => True
  end.

Definition syncExecutor (exeContext : ExecutionContext)
    (executeField : FieldExecutor) : Prop :=
  forall parentType source p errors st,
    syncValue source = true ->
    fieldEndsSynchronously
      (executeField exeContext parentType source p errors st).

(** Every resolver, [isTypeOf], [resolveType] and [serialize] the execution
    can call returns no future. *)
Record NoFutures (exeContext : ExecutionContext) : Prop := {
  sync_field_resolvers :
    forall parentType node fieldDef f,
      getFieldDef (schema exeContext) parentType node = Some fieldDef ->
      resolve fieldDef = Some f -> syncResolver f;
  sync_default_resolver : syncResolver (fieldResolver exeContext);
  sync_isTypeOf :
    forall typeName f v contextValue info w,
      isTypeOf (schema exeContext) typeName = Some f ->
      noPromise (f v contextValue info w);
  sync_resolveType :
    forall typeName f v contextValue info abstractType w,
      resolveType (schema exeContext) typeName = Some f ->
      noPromise (f v contextValue info abstractType w);
  sync_typeResolver :
    forall v contextValue info abstractType w,
      noPromise (typeResolver exeContext v contextValue info abstractType w);
  sync_serialize :
    forall typeName v settle,
      serialize (schema exeContext) typeName v <> inl (VPromise settle)
}.

(** No call returns a future, and no selected field is streamed or
    deferred. *)
Record SyncExecution (exeContext : ExecutionContext) : Prop := {
  sync_no_futures : NoFutures exeContext;
  sync_not_incremental :
    forall rootType,
      patches (collectFields (exeOperation exeContext) rootType) = [] /\
      forall g,
        In g (fields (collectFields (exeOperation exeContext) rootType)) ->
        notIncremental (variableValues exeContext) g
}.

(** ** The shape of a completed value *)

(** What a completed value of a type looks like at its top: never null under
    NonNull; a list, a serialized leaf that is neither null nor undefined, or
    an object according to the type, or null. *)
Fixpoint hasShape (returnType : GraphQLOutputType) (c : Completed) : bool :=
  match returnType with
  | GraphQLNonNull ofType =>
      match c with
      | CNull => false
      | _ => hasShape ofType c
      end
  | GraphQLList _ =>
      match c with
      | CNull | CList _ => true
      | _ => false
      end
  | GraphQLLeaf _ =>
      match c with
      | CNull => true
      | CLeaf serialized => negb (isNullish serialized)
      | _ => false
      end
  | GraphQLAbstract _ | GraphQLObject _ =>
      match c with
      | CNull | CObject _ => true
      | _ => false
      end
  end.

(** What the value is, or what the promise resolves to when it does, has the
    property. *)
Definition resolvesTo (P : Completed -> Prop)
    (v : PromiseOrValue Completed) : Prop :=
  match v with
  | Ready c => P c
  | Pending promise =>
      forall st c st1 ps, promise st = (Normal c, st1, ps) -> P c
  end.

Definition isObject (c : Completed) : Prop := exists o, c = CObject o.

(** ** Stores that grow *)

(** [st1] holds every error list of [st], each with what it held in [st]
    as a prefix: errors were only appended, lists were only created. *)
Definition extends (st st1 : St) : Prop :=
  List.length (errorArrays st) <= List.length (errorArrays st1) /\
  forall errors, exists more,
    readErrors errors st1 = readErrors errors st ++ more.

(** Of the error lists of [st], only [errors] may differ in [st1]; lists
    may have been created. *)
Definition touchesOnly (errors : ErrorsRef) (st st1 : St) : Prop :=
  List.length (errorArrays st) <= List.length (errorArrays st1) /\
  forall other,
    other < List.length (errorArrays st) -> other <> errors ->
    readErrors other st1 = readErrors other st.

Section Keeps.

(** How a computation that was given the accumulator [errors] may change
    the store. *)
Variable R : ErrorsRef -> St -> St -> Prop.

(** The computation changes the store as [R errors] allows, and a value it
    returns has the property [Q]. *)
Definition keeps {A} (errors : ErrorsRef) (Q : A -> Prop) (m : M A) : Prop :=
  forall st r st1 ps,
    m st = (r, st1, ps) ->
    R errors st st1 /\ forall a, r = Normal a -> Q a.

(** A promise, when the host settles it, changes the store as [R errors]
    allows. *)
Definition settles {A} (errors : ErrorsRef) (v : PromiseOrValue A) : Prop :=
  match v with
  | Ready _ => True
  | Pending promise => keeps errors (fun _ => True) promise
  end.

(** The executor of a field changes the store as [R] allows for the
    accumulator it is given, now and when the promise it returned settles. *)
Definition keepsField (executeField : FieldExecutor) : Prop :=
  forall exeContext parentType source p errors,
    keeps errors
      (fun r => match r with
                | Some v => settles errors v
                | None => True
                end)
      (executeField exeContext parentType source p errors).

End Keeps.

(** ** Consuming the async sequence *)

(** Successive [next()] calls on the async sequence, each made once the one
    before has settled, with the schedule of the host for each; the results
    they settle to, up to the first call that stays pending. *)
Fixpoint nextCalls (schedules : list (list nat)) (d : Dispatcher) (st : St)
    : list (IteratorResult AsyncExecutionResult) :=
  match schedules with
  | [] => []
  | schedule :: later =>
      match _next schedule d st with
      | Some (r, d1, st1) => r :: nextCalls later d1 st1
      | None => []
      end
  end.

(** The payload has rejected: running it throws, changes nothing and queues
    nothing. *)
Definition rejectedPayload (p : Payload) : Prop :=
  match p with
  | payload run => forall st, exists e, run st = (Abrupt e, st, [])
  end.

(** The payload has settled to a patch: running it reads the store, changes
    nothing and queues nothing. *)
Definition settledTo (p : Payload) (patchOf : St -> DispatcherResult)
    : Prop :=
  match p with
  | payload run =>
      forall st, run st = (Normal (IterValue (patchOf st)), st, [])
  end.

End Model.

Arguments value W : clear implicits.
Arguments Completed W : clear implicits.
Arguments St W : clear implicits.
Arguments Host W : clear implicits.
Arguments GraphQLSchema W : clear implicits.
Arguments GraphQLField W : clear implicits.
Arguments ExecutionArgs W : clear implicits.
Arguments ExecutionContext W : clear implicits.
Arguments Payload W : clear implicits.
Arguments Dispatcher W : clear implicits.

(** * Concrete schemas and documents

    The host world of the examples is a log: resolvers append to it when they
    are invoked, and the promises they return append to it when they settle. *)

Module Examples.

Definition Log := list string.

Definition astToValue (a : AstValue) : value Log :=
  match a with
  | AstInt n => VNumber n
  | AstString s => VString s
  | AstBoolean b => VBoolean b
  | AstNull => VNull
  | AstVariable _ => VUndefined
  end.

Definition String' : GraphQLOutputType := GraphQLLeaf "String".
Definition Int' : GraphQLOutputType := GraphQLLeaf "Int".

Definition logged (entry : string) (v : value Log)
    : Log -> (value Log + GraphQLError) * Log :=
  fun w => (inl v, (w ++ [entry])%list).

(** No variables, no arguments, a valid schema; directive values are read off
    the directive's literal arguments; getVariableValues reports one error
    for each variable definition whose value is missing, up to maxErrors;
    beyond their own data properties, objects have the method [toString] and
    nothing else. *)
Definition exampleHost : Host Log :=
  {| inspect := fun _ => "<value>";
     getVariableValues := fun _ defs raw maxErrors =>
       match raw with
       | VObject props =>
           match filter (fun d => isNullish (getProperty props (variableName d)))
                        defs with
           | [] => inr props
           | missing =>
               inl (map (fun d => newGraphQLError
                                    ("Variable $" ++ variableName d
                                     ++ " was not provided.") None)
                        (firstn maxErrors missing))
           end
       | _ => inr []
       end;
     getArgumentValues := fun _ _ _ => inl [];
     getDirectiveValues := fun name node _ =>
       match find (fun d => String.eqb (directiveName d) name)
                  (nodeDirectives node) with
       | Some d =>
           Some (map (fun kv => (fst kv, astToValue (snd kv)))
                     (directiveArguments d))
       | None => None
       end;
     assertValidSchema := fun _ => None;
     missingDocumentError :=
       newError "Cannot read properties of undefined (reading 'definitions')";
     lookupProperty := fun _ key =>
       if String.eqb key "toString"
       then MethodProperty (fun _ _ _ w => (inl (VString "[object Object]"), w))
       else DataProperty VUndefined;
     SchemaMetaFieldDef :=
       {| fieldDefName := "__schema";
          fieldType := GraphQLNonNull (GraphQLObject "__Schema");
          resolve := Some (fun _ _ _ _ w => (inl (VObject []), w)) |};
     TypeMetaFieldDef :=
       {| fieldDefName := "__type";
          fieldType := GraphQLObject "__Type";
          resolve := Some (fun _ _ _ _ w => (inl VNull, w)) |};
     TypeNameMetaFieldDef :=
       {| fieldDefName := "__typename";
          fieldType := GraphQLNonNull String';
          resolve :=
            Some (fun _ _ _ info w => (inl (VString (parentType info)), w)) |}
  |}.

Definition serializeExample (typeName : string) (v : value Log)
    : value Log + GraphQLError :=
  match v with
  | VString _ | VNumber _ | VBoolean _ => inl v
  | _ => inr (newError (typeName ++ " cannot represent value: <value>"))
  end.

Definition field (name : string) (type : GraphQLOutputType)
    (resolver : option (@GraphQLFieldResolver Log)) : GraphQLField Log :=
  {| fieldDefName := name; fieldType := type; resolve := resolver |}.

(** A resolver that logs its invocation and returns a promise that logs its
    settlement. *)
Definition asyncResolver (name : string) (v : value Log)
    : @GraphQLFieldResolver Log :=
  fun _ _ _ _ =>
    logged ("invoked " ++ name) (VPromise (logged ("settled " ++ name) v)).

Definition plainResolver (name : string) (v : value Log)
    : @GraphQLFieldResolver Log :=
  fun _ _ _ _ => logged ("invoked " ++ name) v.

Definition queryFields : list (GraphQLField Log) :=
  [ field "x" String' None;
    field "n" (GraphQLNonNull String') (Some (fun _ _ _ _ w => (inl VNull, w)));
    field "boom" String'
      (Some (fun _ _ _ _ w => (inr (newError "boom"), w)));
    field "a" String' (Some (asyncResolver "a" (VString "A")));
    field "items" (GraphQLList (GraphQLNonNull Int')) None;
    field "feed" (GraphQLList String') None;
    field "strict" (GraphQLList (GraphQLNonNull (GraphQLObject "Item"))) None;
    field "item" (GraphQLObject "Item") None;
    field "pet" (GraphQLAbstract "Pet") None ].

Definition mutationFields : list (GraphQLField Log) :=
  [ field "a" String' (Some (asyncResolver "a" (VString "A")));
    field "b" String' (Some (asyncResolver "b" (VString "B")));
    field "c" String' (Some (plainResolver "c" (VString "C"))) ].

Definition itemFields : list (GraphQLField Log) :=
  [ field "n" (GraphQLNonNull String') None;
    field "boom" String'
      (Some (fun _ _ _ _ w => (inr (newError "boom"), w))) ].

Definition exampleSchema : GraphQLSchema Log :=
  {| getQueryType := Some "Query";
     getMutationType := Some "Mutation";
     getSubscriptionType := None;
     getType := fun name =>
       if String.eqb name "Query" || String.eqb name "Mutation"
          || String.eqb name "Item" || String.eqb name "Dog"
       then Some KindObject
       else if String.eqb name "Pet" then Some KindUnion
       else if String.eqb name "String" || String.eqb name "Int"
       then Some KindScalar
       else None;
     getFields := fun typeName =>
       if String.eqb typeName "Query" then queryFields
       else if String.eqb typeName "Mutation" then mutationFields
       else if String.eqb typeName "Item" then itemFields
       else if String.eqb typeName "Dog" then [field "x" String' None]
       else [];
     isTypeOf := fun _ => None;
     resolveType := fun _ => None;
     serialize := serializeExample;
     getPossibleTypes := fun name =>
       if String.eqb name "Pet" then ["Dog"] else [];
     isSubType := fun abstractType name =>
       String.eqb abstractType "Pet" && String.eqb name "Dog" |}.

Definition fieldNode (name : string) (directives : list DirectiveNode)
    : FieldNode :=
  {| nodeAlias := None; nodeName := name; nodeArguments := [];
     nodeDirectives := directives |}.

Definition noSubfields : string -> FieldsAndPatches GroupedField :=
  fun _ => {| fields := []; patches := [] |}.

(** The selection [name], without sub-selections. *)
Definition leaf (name : string) : GroupedField :=
  groupedField name (fieldNode name []) [] noSubfields.

(** The selection [name @stream(initialCount: n)]. *)
Definition streamed (name : string) (n : Z) : GroupedField :=
  groupedField name
    (fieldNode name
       [{| directiveName := "stream";
           directiveArguments := [("initialCount", AstInt n)] |}])
    [] noSubfields.

(** The selection [name { subfields... @defer { deferred } }]. *)
Definition object (name : string) (subfields : list GroupedField)
    (deferred : list (PatchRecord GroupedField)) : GroupedField :=
  groupedField name (fieldNode name []) []
    (fun _ => {| fields := subfields; patches := deferred |}).

Definition operationOf (kind : OperationTypeNode) (name : option string)
    (rootFields : list GroupedField)
    (rootPatches : list (PatchRecord GroupedField))
    : OperationDefinitionNode :=
  {| operation := kind;
     operationNameNode := name;
     variableDefinitions := None;
     collectFields := fun _ =>
       {| fields := rootFields; patches := rootPatches |} |}.

Definition argsOf (document : list DefinitionNode)
    (operationName : option string) (root : value Log) : ExecutionArgs Log :=
  {| argSchema := exampleSchema;
     argDocument := Some {| definitions := document |};
     argRootValue := root;
     argContextValue := VUndefined;
     argVariableValues := None;
     argOperationName := operationName;
     argFieldResolver := None;
     argTypeResolver := None;
     argSubscribeFieldResolver := None |}.

(** [{ ...fields }] or [mutation { ...fields }] as the only definition. *)
Definition request (kind : OperationTypeNode)
    (rootFields : list GroupedField)
    (rootPatches : list (PatchRecord GroupedField)) (root : value Log)
    : ExecutionArgs Log :=
  argsOf [OPERATION_DEFINITION (operationOf kind None rootFields rootPatches)]
    None root.

Definition exampleRoot : value Log :=
  VObject [("x", VString "a");
           ("items", VArray [VNumber 1; VNumber 2; VNumber 3; VNumber 4]);
           ("feed",
            VAsyncIterable
              [inl (VString "two"); inl (VObject []); inl (VString "four")]);
           ("strict", VAsyncIterable [inl (VObject [("n", VNull)])]);
           ("item", VObject [("n", VString "here")]);
           ("pet", VObject [("__typename", VString "Dog");
                            ("x", VString "rex")])].

(** The same data with [strict] as a synchronous list. *)
Definition listRoot : value Log :=
  VObject [("strict", VArray [VObject [("n", VNull)]])].

(** A schema whose resolvers are all synchronous:
    [type Query { x: String, n: String!, item: Item }],
    [type Item { n: String! }]. *)
Definition plainSchema : GraphQLSchema Log :=
  {| getQueryType := Some "Query";
     getMutationType := None;
     getSubscriptionType := None;
     getType := fun name =>
       if String.eqb name "Query" || String.eqb name "Item"
       then Some KindObject
       else if String.eqb name "String" then Some KindScalar
       else None;
     getFields := fun typeName =>
       if String.eqb typeName "Query" then
         [ field "x" String' None;
           field "n" (GraphQLNonNull String')
             (Some (fun _ _ _ _ w => (inl VNull, w)));
           field "item" (GraphQLObject "Item") None ]
       else if String.eqb typeName "Item" then
         [ field "n" (GraphQLNonNull String') None ]
       else [];
     isTypeOf := fun _ => None;
     resolveType := fun _ => None;
     serialize := serializeExample;
     getPossibleTypes := fun _ => [];
     isSubType := fun _ _ => false |}.

Definition plainRoot : value Log :=
  VObject [("x", VString "a"); ("item", VObject [("n", VString "here")])].

Definition plainRequest (rootFields : list GroupedField)
    (rootPatches : list (PatchRecord GroupedField)) : ExecutionArgs Log :=
  {| argSchema := plainSchema;
     argDocument :=
       Some {| definitions :=
                 [OPERATION_DEFINITION
                    (operationOf QUERY None rootFields rootPatches)] |};
     argRootValue := plainRoot;
     argContextValue := VUndefined;
     argVariableValues := None;
     argOperationName := None;
     argFieldResolver := None;
     argTypeResolver := None;
     argSubscribeFieldResolver := None |}.

(** The context [buildExecutionContext] builds for [request] on the example
    schema. *)
Definition exampleContext (op : OperationDefinitionNode)
    : ExecutionContext Log :=
  {| schema := exampleSchema;
     rootValue := exampleRoot;
     contextValue := VUndefined;
     exeOperation := op;
     variableValues := [];
     fieldResolver := defaultFieldResolver exampleHost;
     typeResolver := defaultTypeResolver exampleSchema;
     subscribeFieldResolver := defaultFieldResolver exampleHost;
     exeErrors := 0 |}.

(** Successive [next()] calls on the async sequence, each with the schedule
    of the host for it. *)
Fixpoint pull (schedules : list (list nat)) (d : Dispatcher Log)
    (st : St Log) : list (IteratorResult AsyncExecutionResult) :=
  match schedules with
  | [] => []
  | schedule :: later =>
      match _next schedule d st with
      | Some (r, d1, st1) => r :: pull later d1 st1
      | None => []
      end
  end.

(** What the async sequence [execute] returned delivers, and the store at
    the time [execute] returned. *)
Definition delivered (args : ExecutionArgs Log) (schedules : list (list nat))
    : option (list (IteratorResult AsyncExecutionResult) * St Log) :=
  match execute exampleHost args [] with
  | (inl (ReturnsAsyncIterable d), st) => Some (pull schedules d st, st)
  | _ => None
  end.

(** How the promise [execute] returned settles, with the store then. *)
Definition settled (args : ExecutionArgs Log)
    : option (completion ExecutionResult * St Log) :=
  match execute exampleHost args [] with
  | (inl (ReturnsPromise promise), st) =>
      match promise st with
      | (Normal (inl r), st1) => Some (Normal r, st1)
      | (Normal (inr _), st1) => None
      | (Abrupt e, st1) => Some (Abrupt e, st1)
      | (Unsettled, st1) => Some (Unsettled, st1)
      end
  | _ => None
  end.

Definition errorAt (msg : string) (fieldName : string)
    (p : list PathKey) : GraphQLError :=
  {| message := msg;
     nodes := Some [fieldNode fieldName []];
     path := Some p |}.

(** The store at the start of [execute], with an empty log. *)
Definition emptyStore : St Log := initialStore [].

(** The resolve info of [items @stream(initialCount: 2)] on the query root. *)
Definition itemsInfo : GraphQLResolveInfo :=
  {| fieldName := "items";
     infoFieldNodes := fieldNodes (streamed "items" 2);
     returnType := GraphQLList (GraphQLNonNull Int');
     parentType := "Query";
     infoPath := pathNode None (KeyName "items") (Some "Query") |}.

(** [completeValue] at the element type [Int!] of [items]. *)
Definition completeInt (p : Path) (v : value Log) (errors : ErrorsRef)
    : M (PromiseOrValue (Completed Log)) :=
  completeValue exampleHost (fun _ => {| fields := []; patches := [] |})
    (exampleContext (operationOf QUERY None [streamed "items" 2] []))
    (GraphQLNonNull Int') (streamed "items" 2) itemsInfo p v errors.

(** [mutation { a b c }] *)
Definition threeMutations : OperationDefinitionNode :=
  operationOf MUTATION None [leaf "a"; leaf "b"; leaf "c"] [].

(** [{ pet { x } }], the selection and its resolve info. *)
Definition pet : GroupedField := object "pet" [leaf "x"] [].

Definition petInfo : GraphQLResolveInfo :=
  {| fieldName := "pet";
     infoFieldNodes := fieldNodes pet;
     returnType := GraphQLAbstract "Pet";
     parentType := "Query";
     infoPath := pathNode None (KeyName "pet") (Some "Query") |}.

(** A request for one operation on the plain schema, and the context
    [buildExecutionContext] builds for it. *)
Definition plainArgs (op : OperationDefinitionNode) : ExecutionArgs Log :=
  {| argSchema := plainSchema;
     argDocument := Some {| definitions := [OPERATION_DEFINITION op] |};
     argRootValue := plainRoot;
     argContextValue := VUndefined;
     argVariableValues := None;
     argOperationName := None;
     argFieldResolver := None;
     argTypeResolver := None;
     argSubscribeFieldResolver := None |}.

Definition plainContextOf (op : OperationDefinitionNode)
    : ExecutionContext Log :=
  {| schema := plainSchema;
     rootValue := plainRoot;
     contextValue := VUndefined;
     exeOperation := op;
     variableValues := [];
     fieldResolver := defaultFieldResolver exampleHost;
     typeResolver := defaultTypeResolver plainSchema;
     subscribeFieldResolver := defaultFieldResolver exampleHost;
     exeErrors := 0 |}.

Definition plainContext (rootFields : list GroupedField)
    (rootPatches : list (PatchRecord GroupedField)) : ExecutionContext Log :=
  plainContextOf (operationOf QUERY None rootFields rootPatches).

(** The resolve info of the root field [name] of type [type]. *)
Definition rootInfo (name : string) (type : GraphQLOutputType)
    : GraphQLResolveInfo :=
  {| fieldName := name;
     infoFieldNodes := [fieldNode name []];
     returnType := type;
     parentType := "Query";
     infoPath := pathNode None (KeyName name) (Some "Query") |}.

(** [completeValue] at the leaf type [String], without sub-selections. *)
Definition completeString (p : Path) (v : value Log) (errors : ErrorsRef)
    : M (PromiseOrValue (Completed Log)) :=
  completeValue exampleHost (fun _ => {| fields := []; patches := [] |})
    (plainContext [leaf "feed"] []) String' (leaf "feed")
    (rootInfo "feed" (GraphQLList String')) p v errors.

(** A schema whose object type [Dog] checks its values with [isTypeOf]: a
    value is a Dog when it has a property [bark]. *)
Definition guardedSchema : GraphQLSchema Log :=
  {| getQueryType := Some "Query";
     getMutationType := None;
     getSubscriptionType := None;
     getType := fun name =>
       if String.eqb name "Query" || String.eqb name "Dog"
       then Some KindObject
       else if String.eqb name "Pet" then Some KindUnion
       else if String.eqb name "String" then Some KindScalar
       else None;
     getFields := fun typeName =>
       if String.eqb typeName "Query"
       then [field "dog" (GraphQLObject "Dog") None;
             field "pet" (GraphQLAbstract "Pet") None]
       else if String.eqb typeName "Dog" then [field "bark" String' None]
       else [];
     isTypeOf := fun name =>
       if String.eqb name "Dog"
       then Some (fun v _ _ w =>
                    (inl match v with
                         | VObject props =>
                             VBoolean
                               (negb (isNullish (getProperty props "bark")))
                         | _ => VBoolean false
                         end, w))
       else None;
     resolveType := fun _ => None;
     serialize := serializeExample;
     getPossibleTypes := fun name =>
       if String.eqb name "Pet" then ["Dog"] else [];
     isSubType := fun abstractType name =>
       String.eqb abstractType "Pet" && String.eqb name "Dog" |}.

Definition guardedContext : ExecutionContext Log :=
  {| schema := guardedSchema;
     rootValue := VObject [];
     contextValue := VUndefined;
     exeOperation := operationOf QUERY None [object "dog" [leaf "bark"] []] [];
     variableValues := [];
     fieldResolver := defaultFieldResolver exampleHost;
     typeResolver := defaultTypeResolver guardedSchema;
     subscribeFieldResolver := defaultFieldResolver exampleHost;
     exeErrors := 0 |}.

(** What [String.serialize] makes of an element. *)
Definition serialized (item : value Log) : Completed Log + GraphQLError :=
  match item with
  | VString _ | VNumber _ | VBoolean _ => inl (CLeaf item)
  | _ => inr (newError "String cannot represent value: <value>")
  end.

(** A store with two error lists. *)
Definition twoLists : St Log := {| errorArrays := [[]; []]; world := [] |}.

(** A store whose first error list already holds an error. *)
Definition earlierStore : St Log :=
  {| errorArrays := [[newError "earlier"]]; world := [] |}.

(** [name @stream(initialCount: n, if: false)] *)
Definition unstreamed (name : string) (n : Z) : GroupedField :=
  groupedField name
    (fieldNode name
       [{| directiveName := "stream";
           directiveArguments :=
             [("initialCount", AstInt n); ("if", AstBoolean false)] |}])
    [] noSubfields.

(** [mutation { a ... @defer { b c } }] *)
Definition deferredMutations : OperationDefinitionNode :=
  operationOf MUTATION None [leaf "a"]
    [{| label := None; patchFields := [leaf "b"; leaf "c"] |}].

(** [{ items @stream(initialCount: 1) }] with [items: [Int!]] over
    [[1, null]]: the streamed element is null. *)
Definition nullInTheStream : ExecutionArgs Log :=
  request QUERY [streamed "items" 1] []
    (VObject [("items", VArray [VNumber 1; VNull])]).



End Examples.

(** * Properties *)

Unset Implicit Arguments.

Section Properties.

Context {W : Type} (host : Host W).

Notation M := (@M W).
Notation Result := (@PromiseOrValue W (Completed W)).

(** ** The monad, pointwise *)

Lemma bind_ret_l {A B} (a : A) (f : A -> M B) (st : St W) :
  bind (ret a) f st = f a st.
Proof.
  unfold bind, ret. destruct (f a st) as [[r st2] ps2]. reflexivity.
Qed.

Lemma bind_throw {A B} (e : GraphQLError) (f : A -> M B) (st : St W) :
  bind (throw e) f st = (Abrupt e, st, []).
Proof. reflexivity. Qed.

Lemma bind_normal {A B} (m : M A) (f : A -> M B) st a st1 ps1 :
  m st = (Normal a, st1, ps1) ->
  bind m f st =
  (fst (fst (f a st1)), snd (fst (f a st1)), ps1 ++ snd (f a st1)).
Proof.
  intros H. unfold bind. rewrite H.
  destruct (f a st1) as [[r st2] ps2]. reflexivity.
Qed.

Lemma bind_abrupt {A B} (m : M A) (f : A -> M B) st e st1 ps1 :
  m st = (Abrupt e, st1, ps1) -> bind m f st = (Abrupt e, st1, ps1).
Proof. intros H. unfold bind. rewrite H. reflexivity. Qed.

Lemma bind_unsettled {A B} (m : M A) (f : A -> M B) st st1 ps1 :
  m st = (Unsettled, st1, ps1) -> bind m f st = (Unsettled, st1, ps1).
Proof. intros H. unfold bind. rewrite H. reflexivity. Qed.

Lemma bind_ext {A B} (m : M A) (f g : A -> M B) st :
  (forall a st1, f a st1 = g a st1) -> bind m f st = bind m g st.
Proof.
  intros H. unfold bind. destruct (m st) as [[[a | e |] st1] ps1]; auto.
  rewrite H. reflexivity.
Qed.

Lemma bind_cong_l {A B} (m1 m2 : M A) (f : A -> M B) st :
  m1 st = m2 st -> bind m1 f st = bind m2 f st.
Proof. intros H. unfold bind. rewrite H. reflexivity. Qed.

Lemma bind_assoc {A B C} (m : M A) (f : A -> M B) (g : B -> M C) st :
  bind (bind m f) g st = bind m (fun a => bind (f a) g) st.
Proof.
  unfold bind. destruct (m st) as [[[a | e |] st1] ps1]; auto.
  destruct (f a st1) as [[[b | e |] st2] ps2]; auto.
  destruct (g b st2) as [[r st3] ps3]. rewrite app_assoc. reflexivity.
Qed.

Lemma bind_ret_r {A} (m : M A) st : bind m ret st = m st.
Proof.
  unfold bind, ret. destruct (m st) as [[[a | e |] st1] ps1]; auto.
  rewrite app_nil_r. reflexivity.
Qed.

(** Inversion of a bind that completed normally. *)
Lemma bind_inv_normal {A B} (m : M A) (f : A -> M B) st b st2 ps :
  bind m f st = (Normal b, st2, ps) ->
  exists a st1 ps1 ps2,
    m st = (Normal a, st1, ps1) /\ f a st1 = (Normal b, st2, ps2) /\
    ps = ps1 ++ ps2.
Proof.
  unfold bind. destruct (m st) as [[[a | e |] st1] ps1]; try discriminate.
  destruct (f a st1) as [[r st3] ps3] eqn:E. intros H. inversion H; subst.
  exists a, st1, ps1, ps3. auto.
Qed.

(** ** Looking up a field definition *)

Lemma optionStringEqb_true (a : option string) (b : string) :
  optionStringEqb a b = true <-> a = Some b.
Proof.
  destruct a as [x |]; simpl.
  - rewrite String.eqb_eq. split; [intros -> | intros [= ->]]; reflexivity.
  - split; discriminate.
Qed.

Lemma executeField_unfold (g : GroupedField) :
  executeField host g =
  executeFieldWith host
    (fun returnType =>
       collectedWith (executeField host) (collectSubfields g returnType))
    g.
Proof. destruct g; reflexivity. Qed.

Lemma getFieldDef_undefined (schema : GraphQLSchema W) (parentType : string)
    (node : FieldNode) :
  find (fun f => String.eqb (fieldDefName f) (nodeName node))
       (getFields schema parentType) = None ->
  nodeName node <> fieldDefName (TypeNameMetaFieldDef host) ->
  (getQueryType schema = Some parentType ->
   nodeName node <> fieldDefName (SchemaMetaFieldDef host) /\
   nodeName node <> fieldDefName (TypeMetaFieldDef host)) ->
  getFieldDef host schema parentType node = None.
Proof.
  intros Hfind Htn Hq. unfold getFieldDef.
  destruct (optionStringEqb (getQueryType schema) parentType) eqn:Eq.
  - apply optionStringEqb_true in Eq. destruct (Hq Eq) as [Hs Ht].
    apply String.eqb_neq in Hs, Ht, Htn. rewrite Hs, Ht, Htn. simpl.
    exact Hfind.
  - rewrite !andb_false_r. apply String.eqb_neq in Htn. rewrite Htn.
    exact Hfind.
Qed.

Lemma executeField_undefined (g : GroupedField) exeContext parentType source
    p errors st :
  getFieldDef host (schema exeContext) parentType (firstNode g) = None ->
  executeField host g exeContext parentType source p errors st =
  (Normal None, st, []).
Proof.
  intros H. rewrite executeField_unfold. unfold executeFieldWith.
  rewrite H. reflexivity.
Qed.

(** ** The keys of the object [executeFields] builds *)

Lemma setProperty_keys {A} (object : list (string * A)) key (v : A) k :
  In k (map fst (setProperty object key v)) ->
  In k (map fst object) \/ k = key.
Proof.
  induction object as [| [k0 old] rest IH]; simpl.
  - intros [H | []]. right. symmetry. exact H.
  - destruct (String.eqb k0 key) eqn:E; simpl.
    + intros H. left. exact H.
    + intros [H | H]; [left; left; exact H |].
      destruct (IH H) as [H1 | H1]; [left; right; exact H1 | right; exact H1].
Qed.

Lemma readyEntries_keys {A}
    (object : list (string * @PromiseOrValue W A)) k :
  In k (map fst (readyEntries object)) -> In k (map fst object).
Proof.
  induction object as [| [k0 [a | q]] rest IH]; simpl; auto.
  intros [H | H]; auto.
Qed.

Lemma combine_keys {A} (keys : list string) (vs : list A) k :
  In k (map fst (combine keys vs)) -> In k keys.
Proof.
  revert vs. induction keys as [| k0 rest IH]; intros [| v vs]; simpl; auto.
  - intros [].
  - intros [H | H]; [left; exact H | right; exact (IH _ H)].
Qed.

Lemma executeFieldsLoop_keys exeContext parentType source p errors
    (fields : list GroupedField) :
  forall results cp st results' cp' st' ps,
    executeFieldsLoop exeContext parentType source p errors
      (withExecutors (executeField host) fields) results cp st =
    (Normal (results', cp'), st', ps) ->
    forall k, In k (map fst results') ->
      In k (map fst results) \/
      exists g, In g fields /\ responseName g = k /\
        getFieldDef host (schema exeContext) parentType (firstNode g) <> None.
Proof.
  induction fields as [| g rest IH]; intros results cp st results' cp' st' ps H k Hk.
  - simpl in H. inversion H; subst. left. exact Hk.
  - simpl in H. apply bind_inv_normal in H.
    destruct H as (r & st1 & ps1 & ps2 & Hf & Hrest & _).
    destruct r as [r |].
    + destruct (IH _ _ _ _ _ _ _ Hrest k Hk) as [H1 | (g' & Hin & Hn & Hd)].
      * apply setProperty_keys in H1. destruct H1 as [H1 | H1]; [left; exact H1 |].
        right. exists g. split; [left; reflexivity |]. split; [symmetry; exact H1 |].
        intros Hnone. rewrite (executeField_undefined _ _ _ _ _ _ _ Hnone) in Hf.
        discriminate.
      * right. exists g'. split; [right; exact Hin | auto].
    + destruct (IH _ _ _ _ _ _ _ Hrest k Hk) as [H1 | (g' & Hin & Hn & Hd)].
      * left. exact H1.
      * right. exists g'. split; [right; exact Hin | auto].
Qed.

(** C10. A selected field whose name has no definition on the parent object
    type and is not an introspection meta-field ([__schema] or [__type] on the
    query root, [__typename] anywhere): [executeField] returns undefined
    without touching the store (no error is appended to any error array, no
    resolver runs) and without pushing a payload; and its response key is
    absent from the object [executeFields] returns, whether the object is
    returned directly or through a promise. *)
Theorem C10_undefined_field_is_omitted
    (exeContext : ExecutionContext W) (parentType : string) (g : GroupedField) :
  find (fun f => String.eqb (fieldDefName f) (nodeName (firstNode g)))
       (getFields (schema exeContext) parentType) = None ->
  nodeName (firstNode g) <> fieldDefName (TypeNameMetaFieldDef host) ->
  (getQueryType (schema exeContext) = Some parentType ->
   nodeName (firstNode g) <> fieldDefName (SchemaMetaFieldDef host) /\
   nodeName (firstNode g) <> fieldDefName (TypeMetaFieldDef host)) ->
  (forall source p errors st,
     executeField host g exeContext parentType source p errors st =
     (Normal None, st, [])) /\
  (forall source p fields errors st st1 ps,
     (forall g', In g' fields -> responseName g' = responseName g ->
                 firstNode g' = firstNode g) ->
     (forall object,
        executeFields host exeContext parentType source p fields errors st =
        (Normal (Ready (CObject object)), st1, ps) ->
        ~ In (responseName g) (map fst object)) /\
     (forall promise st2 object st3 ps3,
        executeFields host exeContext parentType source p fields errors st =
        (Normal (Pending promise), st1, ps) ->
        promise st2 = (Normal (CObject object), st3, ps3) ->
        ~ In (responseName g) (map fst object))).
Proof.
  intros Hfind Htn Hq.
  pose proof (getFieldDef_undefined (schema exeContext) parentType
                (firstNode g) Hfind Htn Hq) as Hnone.
  split.
  - intros. apply executeField_undefined. exact Hnone.
  - intros source p fields errors st st1 ps Huniq.
    assert (Hloop : forall results cp st' ps',
      executeFieldsLoop exeContext parentType source p errors
        (withExecutors (executeField host) fields) [] false st =
      (Normal (results, cp), st', ps') ->
      ~ In (responseName g) (map fst results)).
    { intros results cp st' ps' H Hin.
      destruct (executeFieldsLoop_keys _ _ _ _ _ _ _ _ _ _ _ _ _ H _ Hin)
        as [[] | (g' & Hg' & Hn & Hd)].
      apply Hd. rewrite (Huniq g' Hg' Hn). exact Hnone. }
    unfold executeFields, executeFieldsFrom. split.
    + intros object H. apply bind_inv_normal in H.
      destruct H as ([results cp] & st' & ps1 & ps2 & Hl & Hr & _).
      simpl in Hr. destruct cp; simpl in Hr; inversion Hr; subst.
      intros Hin. apply readyEntries_keys in Hin.
      exact (Hloop _ _ _ _ Hl Hin).
    + intros promise st2 object st3 ps3 H Hp. apply bind_inv_normal in H.
      destruct H as ([results cp] & st' & ps1 & ps2 & Hl & Hr & _).
      simpl in Hr. destruct cp; simpl in Hr; inversion Hr; subst.
      unfold promiseForObject in Hp. apply bind_inv_normal in Hp.
      destruct Hp as (vs & st4 & ps4 & ps5 & _ & Hret & _).
      inversion Hret; subst. intros Hin. apply combine_keys in Hin.
      exact (Hloop _ _ _ _ Hl Hin).
Qed.

(** ** Abstract types *)

Lemma ensureValidRuntimeType_inl (exeContext : ExecutionContext W)
    (returnType : string) (nodes : list FieldNode) (info : GraphQLResolveInfo)
    (runtimeTypeName result : value W) (name : string) :
  ensureValidRuntimeType host runtimeTypeName exeContext returnType nodes
    info result = inl name <->
  runtimeTypeName = VString name /\
  getType (schema exeContext) name = Some KindObject /\
  isSubType (schema exeContext) returnType name = true.
Proof.
  unfold ensureValidRuntimeType. split.
  - destruct runtimeTypeName; simpl; try discriminate.
    destruct (getType (schema exeContext) s) as [[] |] eqn:Et;
      try discriminate.
    destruct (isSubType (schema exeContext) returnType s) eqn:Es;
      try discriminate.
    intros [= <-]. auto.
  - intros (-> & Ht & Hs). simpl. rewrite Ht, Hs. reflexivity.
Qed.

Lemma ensureValidRuntimeType_unlocated (exeContext : ExecutionContext W)
    (returnType : string) (nodes : list FieldNode) (info : GraphQLResolveInfo)
    (runtimeTypeName result : value W) (e : GraphQLError) :
  ensureValidRuntimeType host runtimeTypeName exeContext returnType nodes
    info result = inr e ->
  path e = None.
Proof.
  unfold ensureValidRuntimeType.
  destruct (isNullish runtimeTypeName); [intros [= <-]; reflexivity |].
  destruct runtimeTypeName; try (intros [= <-]; reflexivity).
  destruct (getType (schema exeContext) s) as [[] |];
    try (intros [= <-]; reflexivity).
  destruct (isSubType (schema exeContext) returnType s);
    [discriminate | intros [= <-]; reflexivity].
Qed.

Lemma locatedError_unlocated (e : GraphQLError) (ns : list FieldNode)
    (p : list PathKey) :
  path e = None ->
  path (locatedError e ns p) = Some p /\
  nodes (locatedError e ns p) <> None /\
  message (locatedError e ns p) = message e.
Proof.
  intros H. unfold locatedError. rewrite H. simpl.
  repeat split. discriminate.
Qed.

Lemma locatedError_located (e : GraphQLError) (ns : list FieldNode)
    (p q : list PathKey) :
  path e = Some q -> locatedError e ns p = e.
Proof. intros H. unfold locatedError. rewrite H. reflexivity. Qed.

Lemma locatedError_has_path (e : GraphQLError) (ns : list FieldNode)
    (p : list PathKey) :
  path (locatedError e ns p) <> None.
Proof.
  unfold locatedError. destruct (path e) eqn:E; simpl; [rewrite E |];
    discriminate.
Qed.

(** C7. The runtime type an abstract field resolves to is accepted exactly
    when it is a string that names a type of the schema, that type is an
    Object type, and it is a possible type of the abstract type; then
    completion proceeds as that Object type. In every other case (null and
    undefined included) [ensureValidRuntimeType] throws a GraphQLError, so
    [completeAbstractValue] throws (or its promise rejects) instead of
    completing the value, and the catch of [executeField] locates that error
    at the field's path. *)
Theorem C7_runtime_type_is_validated
    (subfields : string -> FieldsAndPatches (string * FieldExecutor))
    (exeContext : ExecutionContext W) (returnType : string)
    (g : GroupedField) (info : GraphQLResolveInfo) (p : Path)
    (result : value W) (errors : ErrorsRef) :
  let resolveTypeFn :=
    match resolveType (schema exeContext) returnType with
    | Some f => f
    | None => typeResolver exeContext
    end in
  let validated runtimeTypeName :=
    ensureValidRuntimeType host runtimeTypeName exeContext returnType
      (fieldNodes g) info result in
  (* accepted exactly when all four conditions hold *)
  (forall runtimeTypeName name,
     validated runtimeTypeName = inl name <->
     runtimeTypeName = VString name /\
     getType (schema exeContext) name = Some KindObject /\
     isSubType (schema exeContext) returnType name = true) /\
  (* a violation is an error that [executeField] locates at the path *)
  (forall runtimeTypeName e,
     validated runtimeTypeName = inr e ->
     path (locatedError e (fieldNodes g) (pathToArray p))
     = Some (pathToArray p) /\
     nodes (locatedError e (fieldNodes g) (pathToArray p)) <> None) /\
  (* [resolveType] returned a value *)
  (forall st runtimeTypeName w1,
     resolveTypeFn result (contextValue exeContext) info returnType (world st)
     = (inl runtimeTypeName, w1) ->
     (forall settle, runtimeTypeName <> VPromise settle) ->
     completeAbstractValue host subfields exeContext returnType g info p
       result errors st =
     match validated runtimeTypeName with
     | inr e => (Abrupt e, withWorld st w1, [])
     | inl name =>
         completeObjectValue host subfields exeContext name g info p result
           errors (withWorld st w1)
     end) /\
  (* [resolveType] returned a promise *)
  (forall st settle w1,
     resolveTypeFn result (contextValue exeContext) info returnType (world st)
     = (inl (VPromise settle), w1) ->
     exists promise,
       completeAbstractValue host subfields exeContext returnType g info p
         result errors st =
       (Normal (Pending promise), withWorld st w1, []) /\
       forall st2 resolvedRuntimeType w2,
         settle (world st2) = (inl resolvedRuntimeType, w2) ->
         promise st2 =
         match validated resolvedRuntimeType with
         | inr e => (Abrupt e, withWorld st2 w2, [])
         | inl name =>
             bind
               (completeObjectValue host subfields exeContext name g info p
                  result errors)
               await (withWorld st2 w2)
         end).
Proof.
  intros resolveTypeFn validated. split; [| split; [| split]].
  - intros. apply ensureValidRuntimeType_inl.
  - intros runtimeTypeName e H.
    apply ensureValidRuntimeType_unlocated in H.
    destruct (locatedError_unlocated e (fieldNodes g) (pathToArray p) H)
      as (H1 & H2 & _).
    split; assumption.
  - intros st runtimeTypeName w1 Hr Hnp.
    unfold completeAbstractValue. fold resolveTypeFn.
    unfold bind at 1. unfold hostCall, settlePromise. rewrite Hr.
    unfold validated.
    destruct runtimeTypeName;
      try (exfalso; exact (Hnp _ eq_refl));
      match goal with
      | |- context [liftResult ?X] => destruct X as [name | err]
      end; simpl;
      try reflexivity;
      rewrite bind_ret_l;
      match goal with
      | |- (let (_, _) := ?X in _) = _ => destruct X as [[r st2] ps2]
      end; reflexivity.
  - intros st settle w1 Hr. eexists. split.
    + unfold completeAbstractValue. fold resolveTypeFn.
      unfold bind at 1. unfold hostCall, settlePromise. rewrite Hr.
      unfold ret. simpl. reflexivity.
    + intros st2 resolvedRuntimeType w2 Hs. cbv beta.
      unfold thenP. unfold bind at 1. cbv beta. rewrite Hs.
      unfold validated.
      destruct (ensureValidRuntimeType host resolvedRuntimeType exeContext
                  returnType (fieldNodes g) info result) as [name | err].
      * rewrite bind_assoc. simpl liftResult. rewrite bind_ret_l.
        match goal with
        | |- (let (_, _) := ?X in _) = _ => destruct X as [[r st3] ps3]
        end.
        reflexivity.
      * reflexivity.
Qed.

(** ** Building the execution context *)



Lemma findOperation_unknown (definitions : list DefinitionNode)
    (name : string) (found : option OperationDefinitionNode) :
  (forall op, In (OPERATION_DEFINITION op) definitions ->
              operationNameNode op <> Some name) ->
  findOperation definitions (Some name) found = inr found.
Proof.
  revert found. induction definitions as [| d rest IH]; intros found H.
  - reflexivity.
  - destruct d as [op | |]; simpl.
    + destruct (optionStringEqb (operationNameNode op) name) eqn:E.
      * apply optionStringEqb_true in E. exfalso.
        exact (H op (or_introl eq_refl) E).
      * apply IH. intros op' Hin. apply H. right. exact Hin.
    + apply IH. intros op' Hin. apply H. right. exact Hin.
    + apply IH. intros op' Hin. apply H. right. exact Hin.
Qed.

Lemma findOperation_empty (definitions : list DefinitionNode)
    (operationName : option string) (found : option OperationDefinitionNode) :
  (forall op, ~ In (OPERATION_DEFINITION op) definitions) ->
  findOperation definitions operationName found = inr found.
Proof.
  revert found. induction definitions as [| d rest IH]; intros found H.
  - reflexivity.
  - destruct d as [op | |]; simpl.
    + exfalso. exact (H op (or_introl eq_refl)).
    + apply IH. intros op' Hin. exact (H op' (or_intror Hin)).
    + apply IH. intros op' Hin. exact (H op' (or_intror Hin)).
Qed.

(** Once the arguments are asserted, [buildExecutionContext] finds a
    document and does not throw. *)
Lemma asserted_document (args : ExecutionArgs W) (e : GraphQLError) :
  assertValidExecutionArguments host (argSchema args) (argDocument args)
    (argVariableValues args) = None ->
  buildExecutionContext host args <> inr e.
Proof.
  unfold assertValidExecutionArguments, buildExecutionContext.
  destruct (argDocument args); [intros _ H | intros H]; discriminate H.
Qed.


(** ** The async sequence of the dispatcher *)

Lemma splice_app {A} (l pushed : list A) (index : nat) :
  index < List.length l ->
  splice (l ++ pushed) index = firstn index l ++ skipn (S index) l ++ pushed.
Proof.
  revert index. induction l as [| a rest IH]; intros index H; simpl in H.
  - lia.
  - destruct index as [| i]; simpl.
    + reflexivity.
    + rewrite IH by lia. reflexivity.
Qed.

Lemma nth_error_payload_lt (payloads : list (Payload W)) (index : nat)
    (q : Payload W) :
  nth_error payloads index = Some q -> index < List.length payloads.
Proof. intros H. apply nth_error_Some. rewrite H. discriminate. Qed.

(** X25. The async sequence [get(initial)] returns. The first [next()]
    gives the initial result with [hasNext: true]. Every later [next()] on a
    non-empty queue races the pending payloads: when the promise the host
    settles first (at [index]) fulfils, it is taken out of the queue, the
    others and the ones pushed meanwhile stay, and its payload is emitted
    with [hasNext] true exactly when the queue is not empty then. When the
    promise that fulfilled carries the done signal and the queue is empty,
    [{hasNext: false}] is emitted, and the [next()] after that ends the
    sequence; when the queue is not empty, the race is run again. *)
Theorem X25_the_race_delivers_the_payload_that_fulfils
    (d : Dispatcher W) (st : St W) :
  (forall schedule initialResult,
     _hasReturnedInitialResult d = false ->
     _next schedule (get d initialResult) st =
     Some (IterValue
             (InitialResult
                {| resultErrors := resultErrors initialResult;
                   resultData := resultData initialResult;
                   resultHasNext := Some true |}),
           {| _subsequentPayloads := _subsequentPayloads d;
              _initialResult := Some initialResult;
              _hasReturnedInitialResult := true |},
           st)) /\
  (_hasReturnedInitialResult d = true ->
   forall index later run st1 pushed,
     nth_error (_subsequentPayloads d) index = Some (payload run) ->
     let remaining :=
       firstn index (_subsequentPayloads d)
       ++ skipn (S index) (_subsequentPayloads d) ++ pushed in
     (forall v,
        run st = (Normal (IterValue v), st1, pushed) ->
        exists more,
          _next (index :: later) d st =
          Some (IterValue (PatchResult {| patch := Some v; hasNext := more |}),
                withPayloads d remaining, st1) /\
          (more = true <-> remaining <> [])) /\
     (run st = (Normal IterDone, st1, pushed) ->
      remaining = [] ->
      _next (index :: later) d st =
      Some (IterValue (PatchResult {| patch := None; hasNext := false |}),
            withPayloads d [], st1) /\
      forall schedule,
        _next schedule (withPayloads d []) st1 =
        Some (IterDone, withPayloads d [], st1)) /\
     (run st = (Normal IterDone, st1, pushed) ->
      remaining <> [] ->
      _next (index :: later) d st =
      _next later (withPayloads d remaining) st1)).
Proof.
  split.
  - intros schedule initialResult Hflag. unfold _next, get. simpl.
    rewrite Hflag. reflexivity.
  - intros Hflag index later run st1 pushed Hnth remaining.
    pose proof (nth_error_payload_lt _ _ _ Hnth) as Hlt.
    assert (Hne : Nat.eqb (List.length (_subsequentPayloads d)) 0 = false).
    { apply Nat.eqb_neq. lia. }
    assert (Hsplice :
      splice (_subsequentPayloads d ++ pushed) index = remaining).
    { apply splice_app. exact Hlt. }
    split; [| split].
    + intros v Hrun. eexists. split.
      * unfold _next. rewrite Hflag, Hne. simpl. rewrite Hnth, Hrun.
        rewrite Hsplice. simpl. reflexivity.
      * rewrite negb_true_iff, Nat.eqb_neq.
        destruct remaining; simpl; split; intros H; try discriminate; try lia.
        exfalso. apply H. reflexivity.
    + intros Hrun Hempty. split.
      * unfold _next. rewrite Hflag, Hne. simpl. rewrite Hnth, Hrun.
        rewrite Hsplice, Hempty. simpl. reflexivity.
      * intros schedule. unfold _next. simpl. rewrite Hflag. reflexivity.
    + intros Hrun Hmore.
      assert (Hlen : Nat.eqb (List.length remaining) 0 = false).
      { apply Nat.eqb_neq. destruct remaining; simpl; [congruence | lia]. }
      unfold _next. rewrite Hflag, Hne. simpl. rewrite Hnth, Hrun.
      rewrite Hsplice. simpl. rewrite Hflag. rewrite Hlen. simpl.
      reflexivity.
Qed.

(** Payloads that reject stay in the queue: a race among them is never
    won. *)
Lemma replaceAt_Forall {A} (P : A -> Prop) (l : list A) (index : nat)
    (a : A) :
  Forall P l -> P a -> Forall P (replaceAt l index a).
Proof.
  intros Hl Ha. revert index.
  induction Hl as [| b rest Hb Hrest IH]; intros index; simpl.
  - constructor.
  - destruct index; constructor; auto.
Qed.

Lemma race_over_rejected_payloads (schedule : list nat) :
  forall (d : Dispatcher W) (st : St W),
    Forall rejectedPayload (_subsequentPayloads d) ->
    _race schedule d st = None.
Proof.
  induction schedule as [| index later IH]; intros d st Hall;
    [reflexivity |].
  simpl. destruct (nth_error (_subsequentPayloads d) index) as [[run] |] eqn:En;
    [| reflexivity].
  pose proof (proj1 (Forall_forall _ _) Hall _ (nth_error_In _ _ En)) as Hrun.
  destruct (Hrun st) as [e He]. rewrite He. apply IH. simpl.
  rewrite app_nil_r. apply replaceAt_Forall; [exact Hall |].
  intros st'. exists e. reflexivity.
Qed.

Lemma next_over_rejected_payloads (schedule : list nat) (d : Dispatcher W)
    (st : St W) :
  _hasReturnedInitialResult d = true ->
  _subsequentPayloads d <> [] ->
  Forall rejectedPayload (_subsequentPayloads d) ->
  _next schedule d st = None.
Proof.
  intros Hflag Hne Hall. unfold _next. rewrite Hflag. simpl.
  destruct (_subsequentPayloads d) eqn:Eq; [contradiction |]. simpl.
  rewrite race_over_rejected_payloads; [reflexivity |].
  rewrite Eq. exact Hall.
Qed.

Lemma tryCatch_inv_normal {A} (m : M A) (handler : GraphQLError -> M A)
    st a st2 ps :
  tryCatch m handler st = (Normal a, st2, ps) ->
  m st = (Normal a, st2, ps) \/
  exists e st1 ps1 ps2,
    m st = (Abrupt e, st1, ps1) /\ handler e st1 = (Normal a, st2, ps2) /\
    ps = ps1 ++ ps2.
Proof.
  unfold tryCatch. destruct (m st) as [[[a' | e |] st1] ps1]; intros H.
  - left. exact H.
  - right. destruct (handler e st1) as [[r st3] ps3] eqn:E.
    inversion H; subst. exists e, st1, ps1, ps3. auto.
  - discriminate.
Qed.

Lemma readyValues_length {A} (vs : list (@PromiseOrValue W A)) :
  Forall (fun v => isPromise v = false) vs ->
  List.length (readyValues vs) = List.length vs.
Proof.
  induction 1 as [| v rest Hv _ IH]; simpl; [reflexivity |].
  destruct v; simpl in *; [rewrite IH; reflexivity | discriminate].
Qed.

Lemma promiseAll_length {A} (vs : list (@PromiseOrValue W A)) :
  forall st l st1 ps,
    promiseAll vs st = (Normal l, st1, ps) -> List.length l = List.length vs.
Proof.
  induction vs as [| v rest IH]; intros st l st1 ps H; simpl in H.
  - inversion H. reflexivity.
  - destruct (await v st) as [[[a | e |] st2] ps2].
    + destruct (promiseAll rest st2) as [[[l' | e |] st3] ps3] eqn:E;
        inversion H; subst. simpl. rewrite (IH _ _ _ _ E). reflexivity.
    + destruct (promiseAll rest st2) as [[c st3] ps3]. discriminate.
    + destruct (promiseAll rest st2) as [[[l' | e |] st3] ps3]; discriminate.
Qed.

(** ** Streamed lists *)

Section StreamedList.

Variable completeItem :
  Path -> value W -> ErrorsRef -> M Result.
Variable nodes : list FieldNode.
Variable itemType : GraphQLOutputType.
Variable p : Path.
Variable errors : ErrorsRef.
Variable n : Z.
Variable label : option string.

Local Notation stream :=
  (Some {| initialCount := Some n; streamLabel := label |}).

(** The promise [addValue] pushes for the element at [index], with its own
    error array [errorsRef]. *)
Local Notation handed index item errorsRef :=
  (addValuePayload completeItem
     (addPath (Some p) (KeyIndex index) None) item nodes itemType label
     errorsRef).

Lemma completeListItems_streamed (items : list (value W)) :
  forall index cp acc st,
    (n <= Z.of_nat index)%Z ->
    completeListItems completeItem stream nodes itemType p errors items
      index cp acc st =
    (Normal (cp, acc),
     {| errorArrays := errorArrays st ++ repeat [] (List.length items);
        world := world st |},
     map (fun j =>
            handed (index + j) (nth j items VUndefined)
              (List.length (errorArrays st) + j))
         (seq 0 (List.length items))).
Proof.
  induction items as [| item rest IH]; intros index cp acc st Hn.
  - simpl. unfold ret. rewrite app_nil_r. destruct st; reflexivity.
  - simpl completeListItems.
    replace (n <=? Z.of_nat index)%Z with true
      by (symmetry; apply Z.leb_le; exact Hn).
    unfold bind at 1. unfold addValue. unfold bind at 1.
    unfold newErrorArray. cbv beta iota. unfold pushPayload at 1.
    cbv beta iota. rewrite IH by lia. simpl.
    rewrite <- app_assoc. simpl.
    rewrite Nat.add_0_r, Nat.add_0_r.
    f_equal. f_equal.
    rewrite <- seq_shift, map_map. apply map_ext. intros j.
    rewrite length_app. simpl.
    replace (index + S j) with (S (index + j)) by lia.
    replace (List.length (errorArrays st) + 1 + j)
      with (List.length (errorArrays st) + S j) by lia.
    reflexivity.
Qed.

Lemma completeListItems_inline (pre suf : list (value W)) :
  forall index cp acc st,
    (Z.of_nat (index + List.length pre) <= n)%Z ->
    completeListItems completeItem stream nodes itemType p errors
      (pre ++ suf) index cp acc st =
    bind
      (completeListItems completeItem None nodes itemType p errors pre
         index cp acc)
      (fun r =>
         completeListItems completeItem stream nodes itemType p errors
           suf (index + List.length pre) (fst r) (snd r))
      st.
Proof.
  induction pre as [| item rest IH]; intros index cp acc st Hn.
  - simpl. rewrite bind_ret_l. simpl. rewrite Nat.add_0_r. reflexivity.
  - simpl app. simpl completeListItems.
    replace (n <=? Z.of_nat index)%Z with false
      by (symmetry; apply Z.leb_gt; simpl in Hn; lia).
    rewrite bind_assoc. apply bind_ext. intros r st1.
    rewrite IH by (simpl in Hn; lia).
    simpl List.length. replace (S index + List.length rest)
      with (index + S (List.length rest)) by lia.
    reflexivity.
Qed.

(** Without [@stream], the loop adds one entry for each element, and leaves
    [containsPromise] false only if no entry is a promise. *)
Lemma completeListItems_plain (items : list (value W)) :
  forall index cp acc st cp1 results st1 ps1,
    completeListItems completeItem None nodes itemType p errors items index
      cp acc st = (Normal (cp1, results), st1, ps1) ->
    List.length results = List.length acc + List.length items /\
    (cp1 = false ->
     cp = false /\
     (Forall (fun v => isPromise v = false) acc ->
      Forall (fun v => isPromise v = false) results)).
Proof.
  induction items as [| item rest IH];
    intros index cp acc st cp1 results st1 ps1 H.
  - simpl in H. inversion H; subst. split; [simpl; lia | auto].
  - simpl in H. apply bind_inv_normal in H.
    destruct H as (r & st2 & ps2 & ps3 & Hstep & Hrest & _).
    apply IH in Hrest. destruct Hrest as [Hlen Hready].
    assert (Hr : (fst r = true \/ fst r = cp) /\
                 exists x, snd r = acc ++ [x] /\
                   (fst r = false -> isPromise x = false)).
    { apply tryCatch_inv_normal in Hstep.
      destruct Hstep as [Hb | (e & st3 & ps4 & ps5 & _ & Hh & _)].
      - apply bind_inv_normal in Hb.
        destruct Hb as (completedItem & st3 & ps4 & ps5 & _ & Hm & _).
        destruct completedItem; inversion Hm; subst; simpl.
        + split; [right; reflexivity | eexists; split; [reflexivity | auto]].
        + split; [left; reflexivity |
                  eexists; split; [reflexivity | discriminate]].
      - apply bind_inv_normal in Hh.
        destruct Hh as (c & st4 & ps6 & ps7 & _ & Hm & _).
        inversion Hm; subst; simpl.
        split; [right; reflexivity | eexists; split; [reflexivity | auto]]. }
    destruct Hr as [Hcp (x & Hx & Hxr)]. split.
    + rewrite Hlen, Hx, length_app. simpl. lia.
    + intros Hfalse. destruct (Hready Hfalse) as [Hf Hall].
      destruct Hcp as [Hcp | Hcp]; [congruence |]. split; [congruence |].
      intros Hacc. apply Hall. rewrite Hx. apply Forall_app. split; auto.
Qed.

Lemma tryCatch_inv_abrupt {A} (m : M A) (handler : GraphQLError -> M A)
    st e st2 ps :
  tryCatch m handler st = (Abrupt e, st2, ps) ->
  exists e0 st1 ps1 ps2,
    m st = (Abrupt e0, st1, ps1) /\ handler e0 st1 = (Abrupt e, st2, ps2).
Proof.
  unfold tryCatch. destruct (m st) as [[[a | e0 |] st1] ps1]; intros H;
    try discriminate H.
  destruct (handler e0 st1) as [[r st3] ps3] eqn:E.
  inversion H; subst. exists e0, st1, ps1, ps3. split; [reflexivity | exact E].
Qed.

(** The loop over the elements that are not streamed adds, for each element
    in order, the entry of [completeElementAt], and sets [containsPromise]
    when an entry is a promise. *)
Lemma completeListItems_step_entry (item : value W) (index : nat) (cp : bool)
    (acc : list Result) (st : St W) :
  tryCatch
    (bind
       match item with
       | VPromise settle =>
           ret (Pending
                  (thenP (settlePromise settle)
                     (fun resolved =>
                        completeItem (addPath (Some p) (KeyIndex index) None)
                          resolved errors)))
       | _ =>
           completeItem (addPath (Some p) (KeyIndex index) None) item errors
       end
       (fun completedItem =>
          match completedItem with
          | Pending promise =>
              ret (true,
                   acc ++
                   [Pending
                      (tryCatch promise
                         (fun rawError =>
                            handleFieldError
                              (locatedError rawError nodes
                                 (pathToArray
                                    (addPath (Some p) (KeyIndex index) None)))
                              itemType errors))])
          | Ready c => ret (cp, acc ++ [Ready c])
          end))
    (fun rawError =>
       bind
         (handleFieldError
            (locatedError rawError nodes
               (pathToArray (addPath (Some p) (KeyIndex index) None)))
            itemType errors)
         (fun c => ret (cp, acc ++ [Ready c])))
    st =
  bind (completeElementAt completeItem nodes itemType p errors index item)
    (fun entry => ret (if isPromise entry then true else cp, acc ++ [entry]))
    st.
Proof.
  assert (Hplain :
    tryCatch
      (bind
         (completeItem (addPath (Some p) (KeyIndex index) None) item errors)
         (fun completedItem =>
            match completedItem with
            | Pending promise =>
                ret (true,
                     acc ++
                     [Pending
                        (tryCatch promise
                           (fun rawError =>
                              handleFieldError
                                (locatedError rawError nodes
                                   (pathToArray
                                      (addPath (Some p) (KeyIndex index)
                                         None)))
                                itemType errors))])
            | Ready c => ret (cp, acc ++ [Ready c])
            end))
      (fun rawError =>
         bind
           (handleFieldError
              (locatedError rawError nodes
                 (pathToArray (addPath (Some p) (KeyIndex index) None)))
              itemType errors)
           (fun c => ret (cp, acc ++ [Ready c])))
      st =
    bind
      (tryCatch
         (bind
            (completeItem (addPath (Some p) (KeyIndex index) None) item
               errors)
            (fun completed =>
               match completed with
               | Ready c => ret (Ready c)
               | Pending promise =>
                   ret (Pending
                          (tryCatch promise
                             (fun rawError =>
                                handleFieldError
                                  (locatedError rawError nodes
                                     (pathToArray
                                        (addPath (Some p) (KeyIndex index)
                                           None)))
                                  itemType errors)))
               end))
         (fun rawError =>
            bind
              (handleFieldError
                 (locatedError rawError nodes
                    (pathToArray (addPath (Some p) (KeyIndex index) None)))
                 itemType errors)
              (fun c => ret (Ready c))))
      (fun entry =>
         ret (if isPromise entry then true else cp, acc ++ [entry]))
      st).
  { unfold tryCatch, bind.
    destruct (completeItem (addPath (Some p) (KeyIndex index) None) item
                errors st) as [[[[c | promise] | e |] st1] ps1];
      simpl; rewrite ?app_nil_r; try reflexivity.
    unfold handleFieldError.
    destruct (isNonNullType itemType); simpl; rewrite ?app_nil_r;
      reflexivity. }
  unfold completeElementAt. cbv zeta.
  destruct item; try exact Hplain.
  unfold tryCatch at 1. rewrite bind_ret_l. rewrite bind_ret_l. reflexivity.
Qed.

Lemma completeListItems_elements (items : list (value W)) :
  forall index cp acc st,
    completeListItems completeItem None nodes itemType p errors items index
      cp acc st =
    bind
      (completeElementsFrom completeItem nodes itemType p errors index items)
      (fun entries => ret (cp || existsb isPromise entries, acc ++ entries))
      st.
Proof.
  induction items as [| item rest IH]; intros index cp acc st.
  - simpl. rewrite bind_ret_l. rewrite orb_false_r, app_nil_r. reflexivity.
  - simpl completeListItems. simpl completeElementsFrom.
    rewrite (bind_cong_l _ _ _ _
               (completeListItems_step_entry item index cp acc st)).
    rewrite !bind_assoc. apply bind_ext. intros entry st1.
    rewrite bind_ret_l. cbn [fst snd]. rewrite IH.
    rewrite !bind_assoc. apply bind_ext. intros entries st2.
    rewrite !bind_ret_l. simpl existsb. rewrite <- app_assoc. simpl app.
    destruct (isPromise entry), cp; reflexivity.
Qed.

(** With a nullable element type no entry throws. *)
Lemma completeElementsFrom_throws (items : list (value W)) :
  forall index st e st1 ps1,
    completeElementsFrom completeItem nodes itemType p errors index items st
    = (Abrupt e, st1, ps1) ->
    isNonNullType itemType = true.
Proof.
  induction items as [| item rest IH]; intros index st e st1 ps1 H.
  - discriminate H.
  - simpl in H. unfold bind at 1 in H.
    destruct (completeElementAt completeItem nodes itemType p errors index
                item st) as [[[entry | e0 |] st2] ps2] eqn:Eentry.
    + unfold bind at 1 in H.
      destruct (completeElementsFrom completeItem nodes itemType p errors
                  (S index) rest st2) as [[[entries | e1 |] st3] ps3] eqn:Er.
      * discriminate H.
      * exact (IH _ _ _ _ _ Er).
      * discriminate H.
    + clear H IH. unfold completeElementAt in Eentry. cbv zeta in Eentry.
      assert (Hplain :
        forall m : M Result,
          tryCatch m
            (fun rawError =>
               bind
                 (handleFieldError
                    (locatedError rawError nodes
                       (pathToArray (addPath (Some p) (KeyIndex index) None)))
                    itemType errors)
                 (fun c => ret (Ready c))) st = (Abrupt e0, st2, ps2) ->
          isNonNullType itemType = true).
      { intros m Hm. apply tryCatch_inv_abrupt in Hm.
        destruct Hm as (e1 & st3 & ps3 & ps4 & _ & Hh).
        unfold handleFieldError in Hh.
        destruct (isNonNullType itemType); [reflexivity | discriminate Hh]. }
      destruct item; try exact (Hplain _ Eentry). discriminate Eentry.
    + discriminate H.
Qed.

Lemma completeElementsFrom_length (items : list (value W)) :
  forall index st entries st1 ps1,
    completeElementsFrom completeItem nodes itemType p errors index items st
    = (Normal entries, st1, ps1) ->
    List.length entries = List.length items.
Proof.
  induction items as [| item rest IH]; intros index st entries st1 ps1 H.
  - inversion H. reflexivity.
  - simpl in H. apply bind_inv_normal in H.
    destruct H as (entry & st2 & ps2 & ps3 & _ & H & _).
    apply bind_inv_normal in H.
    destruct H as (more & st3 & ps4 & ps5 & Hrest & H & _).
    inversion H; subst. simpl. rewrite (IH _ _ _ _ _ Hrest). reflexivity.
Qed.

End StreamedList.

(** C4, amended. A list field whose [@stream] is in force ([getStreamValues]
    returns [initialCount: n]: the directive is there and its [if] argument
    is not false), [n >= 0], over a synchronous iterable of length [L]. With
    [k = min(n, L)]: the elements at indices [0 .. k-1] are completed inline,
    one after the other, each at [path + index] ([completeElementAt]). If an
    entry throws, which only a NonNull element type allows, the list
    completion throws that error and the loop has handed no element to the
    dispatcher. Otherwise the list returned (or the promise of it) holds
    exactly these [k] entries in order, and each element at an index [>= n]
    has been handed to the dispatcher with [addValue], with its path
    [path + index] and an error array of its own, in iteration order, after
    the payloads the inline completions pushed. *)
Theorem C4_streamed_list_is_split
    (completeItem : Path -> value W -> ErrorsRef -> M Result)
    (exeContext : ExecutionContext W) (itemType : GraphQLOutputType)
    (g : GroupedField) (info : GraphQLResolveInfo) (p : Path)
    (items : list (value W)) (errors : ErrorsRef) (n : Z)
    (label : option string) (st : St W) :
  getStreamValues host exeContext g =
  Some {| initialCount := Some n; streamLabel := label |} ->
  (0 <= n)%Z ->
  let k := Nat.min (Z.to_nat n) (List.length items) in
  let inline :=
    completeElementsFrom completeItem (fieldNodes g) itemType p errors 0
      (firstn k items) st in
  completeListValue host completeItem exeContext itemType g info p
    (VArray items) errors st =
  match inline with
  | (Normal entries, st1, ps1) =>
      (Normal (listOf entries),
       {| errorArrays :=
            errorArrays st1 ++ repeat [] (List.length items - k);
          world := world st1 |},
       ps1 ++
       map (fun j =>
              addValuePayload completeItem
                (addPath (Some p) (KeyIndex (k + j)) None)
                (nth (k + j) items VUndefined) (fieldNodes g) itemType label
                (List.length (errorArrays st1) + j))
           (seq 0 (List.length items - k)))
  | (Abrupt e, st1, ps1) => (Abrupt e, st1, ps1)
  | (Unsettled, st1, ps1) => (Unsettled, st1, ps1)
  end /\
  (forall entries st1 ps1,
     inline = (Normal entries, st1, ps1) ->
     List.length entries = k /\
     resolvesTo (fun c => exists l, c = CList l /\ List.length l = k)
       (listOf entries)) /\
  (forall e st1 ps1,
     inline = (Abrupt e, st1, ps1) -> isNonNullType itemType = true).
Proof.
  intros Hs Hn k inline.
  assert (Hpre : List.length (firstn k items) = k).
  { rewrite length_firstn. unfold k. lia. }
  split; [| split].
  - unfold completeListValue. rewrite Hs. unfold bind at 1.
    rewrite <- (firstn_skipn k items) at 1.
    rewrite completeListItems_inline by (rewrite Hpre; lia).
    unfold bind at 1. rewrite completeListItems_elements.
    unfold bind at 1. fold inline.
    destruct inline as [[[entries | e |] st1] ps1]; try reflexivity.
    unfold ret at 1. cbn [fst snd]. rewrite Hpre. simpl (0 + k).
    assert (Hrest :
      completeListItems completeItem
        (Some {| initialCount := Some n; streamLabel := label |})
        (fieldNodes g) itemType p errors (skipn k items) k
        (false || existsb isPromise entries) ([] ++ entries) st1 =
      (Normal (false || existsb isPromise entries, [] ++ entries),
       {| errorArrays :=
            errorArrays st1 ++ repeat [] (List.length items - k);
          world := world st1 |},
       map (fun j =>
              addValuePayload completeItem
                (addPath (Some p) (KeyIndex (k + j)) None)
                (nth (k + j) items VUndefined) (fieldNodes g) itemType label
                (List.length (errorArrays st1) + j))
           (seq 0 (List.length items - k)))).
    { destruct (le_lt_dec (Z.to_nat n) (List.length items)) as [Hle | Hgt].
      - rewrite completeListItems_streamed by (unfold k; lia).
        rewrite length_skipn. f_equal. apply map_ext. intros j.
        rewrite nth_skipn. reflexivity.
      - assert (Hk : k = List.length items) by (unfold k; lia).
        rewrite skipn_all2 by lia. rewrite Hk, Nat.sub_diag. simpl.
        rewrite !app_nil_r. destruct st1; reflexivity. }
    rewrite Hrest. simpl. unfold listOf.
    destruct (existsb isPromise entries); simpl; rewrite !app_nil_r;
      reflexivity.
  - intros entries st1 ps1 Hin. subst inline.
    pose proof (completeElementsFrom_length _ _ _ _ _ _ _ _ _ _ _ Hin)
      as Hlen.
    rewrite Hpre in Hlen. split; [exact Hlen |].
    unfold listOf. destruct (existsb isPromise entries) eqn:Ep; simpl.
    + intros st2 c st3 ps3 Hc. apply bind_inv_normal in Hc.
      destruct Hc as (l & st4 & ps4 & ps5 & Hall & Hr & _).
      inversion Hr; subst. exists l. split; [reflexivity |].
      rewrite (promiseAll_length _ _ _ _ _ Hall). exact Hlen.
    + eexists. split; [reflexivity |].
      rewrite readyValues_length; [exact Hlen |].
      apply Forall_forall. intros v Hv.
      destruct (isPromise v) eqn:Ev; [| reflexivity].
      assert (existsb isPromise entries = true)
        by (apply existsb_exists; exists v; split; assumption).
      congruence.
  - intros e st1 ps1 Hin.
    exact (completeElementsFrom_throws _ _ _ _ _ _ _ _ _ _ _ Hin).
Qed.

(** ** Serial execution *)

Section Serial.

Variable exeContext : ExecutionContext W.
Variable parentType : string.
Variable sourceValue : value W.
Variable p : option Path.

(** The callback [executeFieldsSerially] gives to [promiseReduce]. *)
Local Notation callbackFn :=
  (fun (results : list (string * Completed W)) (g : GroupedField) =>
     bind
       (executeField host g exeContext parentType sourceValue
          (addPath p (KeyName (responseName g)) (Some parentType))
          (exeErrors exeContext))
       (fun result =>
          match result with
          | None => ret (Ready results)
          | Some (Pending promise) =>
              ret (Pending
                     (bind promise (fun resolvedResult =>
                        ret (setProperty results (responseName g)
                               resolvedResult))))
          | Some (Ready r) =>
              ret (Ready (setProperty results (responseName g) r))
          end)).

Lemma callbackFn_then (g : GroupedField) (rest : list GroupedField)
    (results : list (string * Completed W)) (st : St W) :
  bind (callbackFn results g)
    (fun next =>
       bind (await next)
         (executeOneAfterTheOther host exeContext parentType sourceValue p
            rest))
    st =
  executeOneAfterTheOther host exeContext parentType sourceValue p (g :: rest)
    results st.
Proof.
  cbv beta. rewrite bind_assoc. simpl executeOneAfterTheOther.
  apply bind_ext. intros [[r | promise] |] st1.
  - rewrite bind_ret_l. reflexivity.
  - rewrite bind_ret_l. simpl await. rewrite bind_assoc.
    apply bind_ext. intros resolved st2. rewrite bind_ret_l. reflexivity.
  - rewrite bind_ret_l. simpl await. rewrite bind_ret_l. reflexivity.
Qed.

Lemma promiseReduce_serial (fields : list GroupedField) :
  forall accumulator st,
    bind (promiseReduce fields callbackFn accumulator) await st =
    bind (await accumulator)
      (executeOneAfterTheOther host exeContext parentType sourceValue p
         fields)
      st.
Proof.
  induction fields as [| g rest IH]; intros accumulator st.
  - simpl. rewrite bind_ret_l, bind_ret_r. reflexivity.
  - simpl promiseReduce. rewrite bind_assoc.
    rewrite (bind_ext _ _
               (fun next =>
                  bind (await next)
                    (executeOneAfterTheOther host exeContext parentType
                       sourceValue p rest)))
      by (intros; apply IH).
    destruct accumulator as [results | promise].
    + simpl await. rewrite bind_ret_l. apply callbackFn_then.
    + rewrite bind_ret_l. simpl await. unfold thenP.
      rewrite bind_assoc. apply bind_ext. intros results st1.
      rewrite bind_assoc. apply callbackFn_then.
Qed.

End Serial.

(** C6, amended. The root fields of a mutation that field collection does
    not defer run serially, in collection order. A mutation operation
    executes these fields with [executeFieldsSerially] and then, as soon as
    that has returned, the fields of each deferred root fragment with
    [executeFields]; and [executeFieldsSerially], followed to the settlement
    of the promise it may return, does what executing the fields one after
    the other does: a field is executed (its resolver invoked) only after the
    value of the field before it, a promise included, has settled, and the
    settled values are stored under the response names in insertion order.
    The equation is between computations on the store, so it covers the
    order of every effect on the host world. *)
Theorem C6_mutation_fields_run_serially
    (exeContext : ExecutionContext W) (op : OperationDefinitionNode)
    (rootValue : value W) (rootType : string) (st : St W) :
  operation op = MUTATION ->
  getRootType (schema exeContext) MUTATION = Some rootType ->
  executeOperation host exeContext op rootValue st =
  bind
    (executeFieldsSerially host exeContext rootType rootValue None
       (fields (collectFields op rootType)))
    (fun result =>
       bind
         (forEach (patches (collectFields op rootType)) (fun patch =>
            bind newErrorArray (fun errors =>
              bind
                (executeFields host exeContext rootType rootValue None
                   (patchFields patch) (exeErrors exeContext))
                (fun data => addFields data errors (label patch) None))))
         (fun _ => ret result))
    st /\
  forall parentType sourceValue p fields st0,
    bind
      (executeFieldsSerially host exeContext parentType sourceValue p fields)
      await st0 =
    bind
      (executeOneAfterTheOther host exeContext parentType sourceValue p
         fields [])
      (fun results => ret (CObject results))
      st0.
Proof.
  intros Hop Hroot. split.
  - unfold executeOperation. rewrite Hop, Hroot. reflexivity.
  - intros parentType sourceValue p fields st0.
    unfold executeFieldsSerially. rewrite bind_assoc.
    rewrite (bind_ext _ _
               (fun results =>
                  bind (await results) (fun r => ret (CObject r)))).
    + rewrite <- bind_assoc. apply bind_cong_l.
      etransitivity.
      * exact (promiseReduce_serial exeContext parentType sourceValue p
                 fields (Ready []) st0).
      * simpl await. apply bind_ret_l.
    + intros [r | promise] st1; rewrite bind_ret_l; simpl.
      * rewrite bind_ret_l. reflexivity.
      * reflexivity.
Qed.

(** ** Unfolding [completeValue] *)

Section CompleteValueCases.

Variable subfields : string -> FieldsAndPatches (string * @FieldExecutor W).
Variable exeContext : ExecutionContext W.
Variable g : GroupedField.
Variable info : GraphQLResolveInfo.
Variable p : Path.
Variable errors : ErrorsRef.

Lemma completeValue_error (returnType : GraphQLOutputType)
    (e : GraphQLError) :
  completeValue host subfields exeContext returnType g info p (VError e)
    errors = throw e.
Proof. destruct returnType; reflexivity. Qed.

Lemma completeValue_nonnull (ofType : GraphQLOutputType) (result : value W) :
  (forall e, result <> VError e) ->
  completeValue host subfields exeContext (GraphQLNonNull ofType) g info p
    result errors =
  bind (completeValue host subfields exeContext ofType g info p result errors)
    (fun completed =>
       match completed with
       | Ready CNull =>
           throw (newError
             ("Cannot return null for non-nullable field "
              ++ parentType info ++ "." ++ fieldName info ++ "."))
       | _ => ret completed
       end).
Proof.
  intros H. destruct result; try reflexivity. exfalso. exact (H _ eq_refl).
Qed.

Lemma completeValue_list (ofType : GraphQLOutputType) (result : value W) :
  (forall e, result <> VError e) ->
  completeValue host subfields exeContext (GraphQLList ofType) g info p
    result errors =
  if isNullish result then ret (Ready CNull)
  else
    completeListValue host
      (completeValue host subfields exeContext ofType g info)
      exeContext ofType g info p result errors.
Proof.
  intros H. destruct result; try reflexivity. exfalso. exact (H _ eq_refl).
Qed.

Lemma completeValue_leaf (name : string) (result : value W) :
  (forall e, result <> VError e) ->
  completeValue host subfields exeContext (GraphQLLeaf name) g info p result
    errors =
  if isNullish result then ret (Ready CNull)
  else completeLeafValue host exeContext name result.
Proof.
  intros H. destruct result; try reflexivity. exfalso. exact (H _ eq_refl).
Qed.

Lemma completeValue_abstract (name : string) (result : value W) :
  (forall e, result <> VError e) ->
  completeValue host subfields exeContext (GraphQLAbstract name) g info p
    result errors =
  if isNullish result then ret (Ready CNull)
  else
    completeAbstractValue host subfields exeContext name g info p result
      errors.
Proof.
  intros H. destruct result; try reflexivity. exfalso. exact (H _ eq_refl).
Qed.

Lemma completeValue_object (name : string) (result : value W) :
  (forall e, result <> VError e) ->
  completeValue host subfields exeContext (GraphQLObject name) g info p
    result errors =
  if isNullish result then ret (Ready CNull)
  else
    completeObjectValue host subfields exeContext name g info p result errors.
Proof.
  intros H. destruct result; try reflexivity. exfalso. exact (H _ eq_refl).
Qed.

Lemma error_or_not (result : value W) :
  (exists e, result = VError e) \/ (forall e, result <> VError e).
Proof.
  destruct result; try (right; discriminate). left. eexists. reflexivity.
Qed.

End CompleteValueCases.

(** ** Execution without futures *)

Section Synchronous.

Variable exeContext : ExecutionContext W.
Hypothesis Hsync : SyncExecution host exeContext.

Lemma handleFieldError_ends (error : GraphQLError)
    (returnType : GraphQLOutputType) (errors : ErrorsRef) (st : St W) :
  snd (handleFieldError error returnType errors st) = [] /\
  fst (fst (handleFieldError error returnType errors st)) <> Unsettled.
Proof.
  unfold handleFieldError. destruct (isNonNullType returnType); simpl;
    split; auto; discriminate.
Qed.

Lemma executeFieldsLoop_sync (parentType : string) (source : value W)
    (p : option Path) (errors : ErrorsRef)
    (fields : list (string * @FieldExecutor W)) :
  syncValue source = true ->
  Forall (fun entry => syncExecutor exeContext (snd entry)) fields ->
  forall results st,
    snd (executeFieldsLoop exeContext parentType source p errors fields
           results false st) = [] /\
    match fst (fst (executeFieldsLoop exeContext parentType source p errors
                      fields results false st)) with
    | Normal r => snd r = false
    | Abrupt _ => True
    | Unsettled => False
    end.
Proof.
  intros Hsrc Hall. induction Hall as [| [name exec] rest Hexec _ IH];
    intros results st.
  - simpl. auto.
  - simpl executeFieldsLoop. unfold bind.
    specialize (Hexec parentType source
                  (addPath p (KeyName name) (Some parentType)) errors st Hsrc).
    simpl in Hexec.
    destruct (exec exeContext parentType source
                (addPath p (KeyName name) (Some parentType)) errors st)
      as [[[[[c | promise] |] | e |] st1] ps1];
      destruct Hexec as [Hps Hc]; simpl in Hps, Hc; subst; try contradiction;
      simpl; auto.
    + specialize (IH (setProperty results name (Ready c)) st1).
      destruct (executeFieldsLoop exeContext parentType source p errors rest
                  (setProperty results name (Ready c)) false st1)
        as [[r st2] ps2]. exact IH.
    + specialize (IH results st1).
      destruct (executeFieldsLoop exeContext parentType source p errors rest
                  results false st1) as [[r st2] ps2]. exact IH.
Qed.

Lemma executeFieldsFrom_sync (parentType : string) (source : value W)
    (p : option Path) (errors : ErrorsRef)
    (fields : list (string * @FieldExecutor W)) (st : St W) :
  syncValue source = true ->
  Forall (fun entry => syncExecutor exeContext (snd entry)) fields ->
  endsSynchronously
    (executeFieldsFrom exeContext parentType source p fields errors st).
Proof.
  intros Hsrc Hall. unfold executeFieldsFrom, bind.
  destruct (executeFieldsLoop_sync parentType source p errors fields Hsrc
              Hall [] st) as [Hps Hc].
  destruct (executeFieldsLoop exeContext parentType source p errors fields
              [] false st) as [[[[results cp] | e |] st1] ps1];
    simpl in Hps, Hc; try contradiction.
  - rewrite Hc, Hps. simpl. unfold endsSynchronously. simpl. auto.
  - rewrite Hps. simpl. unfold endsSynchronously. simpl. auto.
Qed.

Lemma syncValue_not_promise {T} (v : value W)
    (onPromise : (W -> (value W + GraphQLError) * W) -> T) (otherwise : T) :
  syncValue v = true ->
  match v with
  | VPromise settle => onPromise settle
  | _ => otherwise
  end = otherwise.
Proof. destruct v; simpl; intros H; try discriminate; reflexivity. Qed.

Lemma completeListItems_sync
    (completeItem : Path -> value W -> ErrorsRef -> M Result)
    (nodes : list FieldNode) (itemType : GraphQLOutputType) (p : Path)
    (errors : ErrorsRef) :
  (forall path v errs st,
     syncValue v = true -> endsSynchronously (completeItem path v errs st)) ->
  forall items,
    forallb syncValue items = true ->
    forall index acc st,
      snd (completeListItems completeItem None nodes itemType p errors items
             index false acc st) = [] /\
      match fst (fst (completeListItems completeItem None nodes itemType p
                        errors items index false acc st)) with
      | Normal r => fst r = false
      | Abrupt _ => True
      | Unsettled => False
      end.
Proof.
  intros Hitem. induction items as [| item rest IH]; intros Hall index acc st.
  - simpl. auto.
  - simpl in Hall. apply andb_true_iff in Hall. destruct Hall as [Hi Hrest].
    simpl completeListItems.
    rewrite (syncValue_not_promise item _ _ Hi).
    specialize (Hitem (addPath (Some p) (KeyIndex index) None) item errors st
                  Hi).
    unfold bind, tryCatch.
    destruct (completeItem (addPath (Some p) (KeyIndex index) None) item
                errors st) as [[[[c | promise] | e |] st1] ps1];
      destruct Hitem as [Hps Hc]; simpl in Hps, Hc; subst;
      try contradiction; simpl.
    + specialize (IH Hrest (S index) (acc ++ [Ready c]) st1).
      destruct (completeListItems completeItem None nodes itemType p errors
                  rest (S index) false (acc ++ [Ready c]) st1)
        as [[r st2] ps2]. exact IH.
    + unfold handleFieldError. destruct (isNonNullType itemType); simpl.
      * auto.
      * specialize (IH Hrest (S index) (acc ++ [Ready CNull])
                      (pushErrorSt errors
                         (locatedError e nodes
                            (pathToArray
                               (addPath (Some p) (KeyIndex index) None)))
                         st1)).
        unfold pushErrorSt in IH.
        destruct (completeListItems completeItem None nodes itemType p
                    errors rest (S index) false (acc ++ [Ready CNull]) _)
          as [[r st2] ps2]. exact IH.
Qed.

Section CompleteValueSync.

Variable subfields : string -> FieldsAndPatches (string * @FieldExecutor W).
Variable g : GroupedField.
Variable info : GraphQLResolveInfo.

Hypothesis Hstream :
  getDirectiveValues host "stream" (firstNode g) (variableValues exeContext)
  = None.
Hypothesis Hpatches : forall returnType, patches (subfields returnType) = [].
Hypothesis Hfields :
  forall returnType,
    Forall (fun entry => syncExecutor exeContext (snd entry))
           (fields (subfields returnType)).

Lemma collectAndExecuteSubfields_sync (returnType : string) (p : Path)
    (result : value W) (errors : ErrorsRef) (st : St W) :
  syncValue result = true ->
  endsSynchronously
    (collectAndExecuteSubfields subfields exeContext returnType g p result
       errors st).
Proof.
  intros Hr. unfold collectAndExecuteSubfields. rewrite Hpatches.
  pose proof (executeFieldsFrom_sync returnType result (Some p) errors
                (fields (subfields returnType)) st Hr (Hfields returnType))
    as H.
  unfold bind.
  destruct (executeFieldsFrom exeContext returnType result (Some p)
              (fields (subfields returnType)) errors st)
    as [[[[c | promise] | e |] st1] ps1];
    destruct H as [Hps Hc]; simpl in Hps, Hc; subst; try contradiction;
    unfold endsSynchronously; simpl; auto.
Qed.

Lemma completeObjectValue_sync (returnType : string) (p : Path)
    (result : value W) (errors : ErrorsRef) (st : St W) :
  syncValue result = true ->
  endsSynchronously
    (completeObjectValue host subfields exeContext returnType g info p result
       errors st).
Proof.
  intros Hr. unfold completeObjectValue.
  destruct (isTypeOf (schema exeContext) returnType) as [f |] eqn:Ef.
  - pose proof (@sync_isTypeOf _ _ _ (sync_no_futures Hsync) returnType f result
                  (contextValue exeContext) info (world st) Ef) as Hnp.
    unfold bind at 1. unfold hostCall, settlePromise.
    destruct (f result (contextValue exeContext) info (world st))
      as [[v | e] w1].
    + destruct v; try (exfalso; exact (Hnp _ _ eq_refl));
        match goal with
        | |- context [negb (truthy ?v)] => destruct (negb (truthy v))
        end;
        try (unfold endsSynchronously; simpl; auto; fail);
        match goal with
        | |- endsSynchronously (let (_, _) := ?X in _) =>
            pose proof (collectAndExecuteSubfields_sync returnType p result
                          errors (withWorld st w1) Hr) as H;
            destruct X as [[[[c | promise] | err |] st1] ps1];
            destruct H as [Hps Hc]; simpl in Hps, Hc; subst;
            try contradiction; unfold endsSynchronously; simpl; auto
        end.
    + unfold endsSynchronously. simpl. auto.
  - apply collectAndExecuteSubfields_sync. exact Hr.
Qed.

Lemma completeAbstractValue_sync (returnType : string) (p : Path)
    (result : value W) (errors : ErrorsRef) (st : St W) :
  syncValue result = true ->
  endsSynchronously
    (completeAbstractValue host subfields exeContext returnType g info p
       result errors st).
Proof.
  intros Hr. unfold completeAbstractValue.
  assert (Hnp : noPromise
    (match resolveType (schema exeContext) returnType with
     | Some f => f
     | None => typeResolver exeContext
     end result (contextValue exeContext) info returnType (world st))).
  { destruct (resolveType (schema exeContext) returnType) as [f |] eqn:Ef.
    - exact (@sync_resolveType _ _ _ (sync_no_futures Hsync) returnType f result
               (contextValue exeContext) info returnType (world st) Ef).
    - apply (sync_typeResolver (sync_no_futures Hsync)). }
  unfold bind at 1. unfold hostCall, settlePromise.
  destruct (match resolveType (schema exeContext) returnType with
            | Some f => f
            | None => typeResolver exeContext
            end result (contextValue exeContext) info returnType (world st))
    as [[v | e] w1].
  - destruct v; try (exfalso; exact (Hnp _ _ eq_refl));
      match goal with
      | |- context [liftResult ?X] => destruct X as [name | err]
      end;
      try (unfold endsSynchronously; simpl; auto; fail);
      simpl liftResult; rewrite bind_ret_l;
      match goal with
      | |- endsSynchronously (let (_, _) := ?X in _) =>
          pose proof (completeObjectValue_sync name p result errors
                        (withWorld st w1) Hr) as H;
          destruct X as [[[[c | promise] | err |] st1] ps1];
          destruct H as [Hps Hc]; simpl in Hps, Hc; subst;
          try contradiction; unfold endsSynchronously; simpl; auto
      end.
  - unfold endsSynchronously. simpl. auto.
Qed.

Lemma getStreamValues_none : getStreamValues host exeContext g = None.
Proof.
  unfold getStreamValues. rewrite Hstream. reflexivity.
Qed.

Lemma completeValue_sync (returnType : GraphQLOutputType) :
  forall p result errors st,
    syncValue result = true ->
    endsSynchronously
      (completeValue host subfields exeContext returnType g info p result
         errors st).
Proof.
  induction returnType as [ofType IH | ofType IH | name | name | name];
    intros p result errors st Hr;
    (destruct (error_or_not result) as [[e ->] | Hne];
     [rewrite completeValue_error; unfold endsSynchronously; simpl; auto |]).
  - rewrite completeValue_nonnull by exact Hne. unfold bind.
    specialize (IH p result errors st Hr).
    destruct (completeValue host subfields exeContext ofType g info p result
                errors st) as [[[[c | promise] | e |] st1] ps1];
      destruct IH as [Hps Hc]; simpl in Hps, Hc; subst; try contradiction;
      [destruct c |]; unfold endsSynchronously; simpl; auto.
  - rewrite completeValue_list by exact Hne.
    destruct (isNullish result); [unfold endsSynchronously; simpl; auto |].
    unfold completeListValue.
    destruct result; simpl in Hr; try discriminate;
      try (unfold endsSynchronously; simpl; auto; fail).
    rewrite getStreamValues_none. unfold bind.
    pose proof (completeListItems_sync
                  (completeValue host subfields exeContext ofType g info)
                  (fieldNodes g) ofType p errors IH items Hr 0 [] st) as H.
    destruct (completeListItems
                (completeValue host subfields exeContext ofType g info) None
                (fieldNodes g) ofType p errors items 0 false [] st)
      as [[[[cp results] | e |] st1] ps1];
      destruct H as [Hps Hc]; simpl in Hps, Hc; subst; try contradiction;
      unfold endsSynchronously; simpl; auto.
  - rewrite completeValue_leaf by exact Hne.
    destruct (isNullish result); [unfold endsSynchronously; simpl; auto |].
    unfold completeLeafValue.
    pose proof (sync_serialize (sync_no_futures Hsync) name result) as Hser.
    destruct (serialize (schema exeContext) name result) as [v | e]; simpl.
    + rewrite bind_ret_l.
      destruct (isNullish v); [unfold endsSynchronously; simpl; auto |].
      destruct v; try (exfalso; exact (Hser _ eq_refl));
        unfold endsSynchronously; simpl; auto.
    + unfold endsSynchronously. simpl. auto.
  - rewrite completeValue_abstract by exact Hne.
    destruct (isNullish result); [unfold endsSynchronously; simpl; auto |].
    apply completeAbstractValue_sync. exact Hr.
  - rewrite completeValue_object by exact Hne.
    destruct (isNullish result); [unfold endsSynchronously; simpl; auto |].
    apply completeObjectValue_sync. exact Hr.
Qed.

End CompleteValueSync.

Lemma executeField_sync (g : GroupedField) :
  notIncremental host (variableValues exeContext) g ->
  syncExecutor exeContext (executeField host g).
Proof.
  induction 1 as [g Hstream Hpatches _ IH].
  intros parentType source p errors st Hsrc.
  rewrite executeField_unfold. unfold executeFieldWith.
  destruct (getFieldDef host (schema exeContext) parentType (firstNode g))
    as [fieldDef |] eqn:Edef;
    [| unfold fieldEndsSynchronously; simpl; auto].
  set (subfields := fun returnType =>
         collectedWith (executeField host) (collectSubfields g returnType)).
  assert (Hsubp : forall returnType, patches (subfields returnType) = []).
  { intros returnType. unfold subfields, collectedWith. simpl.
    rewrite Hpatches. reflexivity. }
  assert (Hsubf : forall returnType,
    Forall (fun entry => syncExecutor exeContext (snd entry))
           (fields (subfields returnType))).
  { intros returnType. unfold subfields, collectedWith, withExecutors. simpl.
    apply Forall_forall. intros entry Hin. apply in_map_iff in Hin.
    destruct Hin as (g' & <- & Hin). simpl. exact (IH returnType g' Hin). }
  assert (Hres : syncResolver
    match resolve fieldDef with
    | Some f => f
    | None => fieldResolver exeContext
    end).
  { destruct (resolve fieldDef) as [f |] eqn:Ef.
    - exact (@sync_field_resolvers _ _ _ (sync_no_futures Hsync) parentType (firstNode g)
               fieldDef f Edef Ef).
    - exact (sync_default_resolver (sync_no_futures Hsync)). }
  cbv zeta.
  set (info := buildResolveInfo exeContext fieldDef (fieldNodes g)
                 parentType p).
  unfold bind at 1. unfold tryCatch at 1.
  destruct (getArgumentValues host fieldDef (firstNode g)
              (variableValues exeContext)) as [args | e]; simpl liftResult.
  - rewrite bind_ret_l. unfold bind at 1. unfold hostCall, settlePromise.
    destruct (match resolve fieldDef with
              | Some f => f
              | None => fieldResolver exeContext
              end source args (contextValue exeContext) info (world st))
      as [[v | e] w1] eqn:Ecall.
    + pose proof (Hres _ _ _ _ _ _ _ Hsrc Ecall) as Hv.
      rewrite (syncValue_not_promise v _ _ Hv).
      pose proof (completeValue_sync subfields g info Hstream Hsubp Hsubf
                    (fieldType fieldDef) p v errors (withWorld st w1) Hv)
        as Hc.
      unfold bind at 1.
      destruct (completeValue host subfields exeContext (fieldType fieldDef)
                  g info p v errors (withWorld st w1))
        as [[[[c | promise] | e |] st1] ps1];
        destruct Hc as [Hps Hc]; simpl in Hps, Hc; subst;
        try contradiction; simpl.
      * unfold fieldEndsSynchronously. simpl. auto.
      * unfold handleFieldError.
        destruct (isNonNullType (fieldType fieldDef));
          unfold fieldEndsSynchronously; simpl; auto.
    + simpl. unfold handleFieldError.
      destruct (isNonNullType (fieldType fieldDef));
        unfold fieldEndsSynchronously; simpl; auto.
  - simpl. unfold handleFieldError.
    destruct (isNonNullType (fieldType fieldDef));
      unfold fieldEndsSynchronously; simpl; auto.
Qed.

Lemma withExecutors_sync (fields : list GroupedField) :
  (forall g, In g fields ->
              notIncremental host (variableValues exeContext) g) ->
  Forall (fun entry => syncExecutor exeContext (snd entry))
         (withExecutors (executeField host) fields).
Proof.
  intros H. apply Forall_forall. intros entry Hin. unfold withExecutors in Hin.
  apply in_map_iff in Hin. destruct Hin as (g & <- & Hin). simpl.
  apply executeField_sync. exact (H g Hin).
Qed.

Lemma executeFieldsSerially_sync (parentType : string) (source : value W)
    (p : option Path) (fields : list GroupedField) (st : St W) :
  syncValue source = true ->
  (forall g, In g fields ->
              notIncremental host (variableValues exeContext) g) ->
  endsSynchronously
    (executeFieldsSerially host exeContext parentType source p fields st).
Proof.
  intros Hsrc Hall. unfold executeFieldsSerially.
  match goal with
  | |- context [promiseReduce fields ?cb (Ready [])] => set (callback := cb)
  end.
  assert (H : forall results st0 r st1 ps1,
    promiseReduce fields callback (Ready results) st0 = (r, st1, ps1) ->
    ps1 = [] /\
    match r with
    | Normal (Ready _) | Abrupt _ => True
    | _ => False
    end).
  { clear st. induction fields as [| g rest IH];
      intros results st0 r st1 ps1 E.
    - simpl in E. inversion E; subst. auto.
    - simpl in E. unfold bind at 1 in E. unfold callback at 1 in E.
      cbv zeta beta in E. unfold bind at 1 in E.
      pose proof (executeField_sync g (Hall g (or_introl eq_refl)) parentType
                    source
                    (addPath p (KeyName (responseName g)) (Some parentType))
                    (exeErrors exeContext) st0 Hsrc) as Hf.
      assert (IH' := IH (fun g' Hin => Hall g' (or_intror Hin))).
      destruct (executeField host g exeContext parentType source
                  (addPath p (KeyName (responseName g)) (Some parentType))
                  (exeErrors exeContext) st0)
        as [[[[[c | promise] |] | e |] st2] ps2];
        destruct Hf as [Hps Hc]; simpl in Hps, Hc; subst;
        try contradiction; simpl in E.
      + destruct (promiseReduce rest callback
                    (Ready (setProperty results (responseName g) c)) st2)
          as [[r' st3] ps3] eqn:E2.
        inversion E; subst. exact (IH' _ _ _ _ _ E2).
      + destruct (promiseReduce rest callback (Ready results) st2)
          as [[r' st3] ps3] eqn:E2.
        inversion E; subst. exact (IH' _ _ _ _ _ E2).
      + inversion E; subst. auto. }
  unfold bind.
  destruct (promiseReduce fields callback (Ready []) st)
    as [[r st1] ps1] eqn:E.
  destruct (H _ _ _ _ _ E) as [Hps Hc]. subst.
  destruct r as [[r | promise] | e |]; try contradiction;
    unfold endsSynchronously; simpl; auto.
Qed.

Lemma executeOperation_sync (rootValue : value W) (st : St W) :
  syncValue rootValue = true ->
  endsSynchronously
    (executeOperation host exeContext (exeOperation exeContext) rootValue st).
Proof.
  intros Hroot. unfold executeOperation.
  destruct (getRootType (schema exeContext)
              (operation (exeOperation exeContext))) as [rootType |];
    [| unfold endsSynchronously; simpl; auto].
  destruct (sync_not_incremental Hsync rootType) as [Hpatches Hfields].
  rewrite Hpatches. cbv zeta. simpl forEach.
  assert (H : endsSynchronously
    (match operation (exeOperation exeContext) with
     | QUERY =>
         executeFields host exeContext rootType rootValue None
           (fields (collectFields (exeOperation exeContext) rootType))
           (exeErrors exeContext)
     | MUTATION =>
         executeFieldsSerially host exeContext rootType rootValue None
           (fields (collectFields (exeOperation exeContext) rootType))
     | SUBSCRIPTION =>
         executeFields host exeContext rootType rootValue None
           (fields (collectFields (exeOperation exeContext) rootType))
           (exeErrors exeContext)
     end st)).
  { destruct (operation (exeOperation exeContext)).
    - apply executeFieldsFrom_sync; [exact Hroot |].
      apply withExecutors_sync. exact Hfields.
    - apply executeFieldsSerially_sync; assumption.
    - apply executeFieldsFrom_sync; [exact Hroot |].
      apply withExecutors_sync. exact Hfields. }
  unfold bind at 1.
  match type of H with
  | endsSynchronously ?X =>
      destruct X as [[[[c | promise] | e |] st1] ps1]
  end;
    destruct H as [Hps Hc]; simpl in Hps, Hc; subst; try contradiction;
    unfold endsSynchronously; simpl; auto.
Qed.

End Synchronous.

(** The default resolvers return no future of their own. *)

Lemma defaultFieldResolver_sync :
  (forall source key,
     match lookupProperty host source key with
     | DataProperty v => syncValue v = true
     | MethodProperty call =>
         forall args contextValue info w v w1,
           call args contextValue info w = (inl v, w1) -> syncValue v = true
     end) ->
  syncResolver (defaultFieldResolver host).
Proof.
  intros Hhost source args contextValue info w v w1 Hsrc H.
  unfold defaultFieldResolver in H.
  destruct (isObjectLike source); [| inversion H; reflexivity].
  assert (Hread :
    match readProperty host source (fieldName info) with
    | DataProperty v => syncValue v = true
    | MethodProperty call =>
        forall args contextValue info w v w1,
          call args contextValue info w = (inl v, w1) -> syncValue v = true
    end).
  { unfold readProperty. destruct source; try apply Hhost.
    destruct (find (fun kv => String.eqb (fst kv) (fieldName info)) props)
      as [kv |] eqn:E; [| apply Hhost].
    apply find_some in E. destruct E as [Hin _]. simpl in Hsrc.
    rewrite forallb_forall in Hsrc. exact (Hsrc kv Hin). }
  destruct (readProperty host source (fieldName info)) as [property | call].
  - inversion H; subst. exact Hread.
  - exact (Hread _ _ _ _ _ _ H).
Qed.

Lemma defaultTypeResolverLoop_noPromise (schema : GraphQLSchema W)
    (v contextValue : value W) (info : GraphQLResolveInfo)
    (possibleTypes : list string) :
  (forall typeName f v' contextValue' info' w',
     isTypeOf schema typeName = Some f ->
     noPromise (f v' contextValue' info' w')) ->
  forall w,
    noPromise
      (defaultTypeResolverLoop schema v contextValue info possibleTypes [] w).
Proof.
  intros Hno. induction possibleTypes as [| type rest IH]; intros w.
  - simpl. intros settle w' H. discriminate.
  - simpl. destruct (isTypeOf schema type) as [f |] eqn:Ef; [| apply IH].
    pose proof (Hno type f v contextValue info w Ef) as Hf.
    destruct (f v contextValue info w) as [[r | e] w1].
    + destruct r; try (exfalso; exact (Hf _ _ eq_refl));
        match goal with
        | |- context [truthy ?x] => destruct (truthy x)
        end;
        try apply IH; intros settle w' H; discriminate.
    + intros settle w' H. discriminate.
Qed.

Lemma defaultTypeResolver_noPromise (schema : GraphQLSchema W) :
  (forall typeName f v' contextValue' info' w',
     isTypeOf schema typeName = Some f ->
     noPromise (f v' contextValue' info' w')) ->
  forall v contextValue info abstractType w,
    noPromise (defaultTypeResolver schema v contextValue info abstractType w).
Proof.
  intros Hno v contextValue info abstractType w. unfold defaultTypeResolver.
  destruct v; try (apply defaultTypeResolverLoop_noPromise; exact Hno).
  destruct (getProperty props "__typename");
    try (apply defaultTypeResolverLoop_noPromise; exact Hno).
  intros settle w' H. discriminate.
Qed.

(** C2, amended. When the root value is and holds no future and no async
    sequence, at any depth of its lists and objects ([syncValue]); every
    resolver, a field's own or the field resolver of the request, called on
    such a source returns a value that likewise is and holds none
    ([syncResolver]); no [isTypeOf], [resolveType], type resolver or
    [serialize] call returns a future; and no selected field carries
    [@stream] and field collection defers no fragment, at the root or below:
    then [execute] throws the error of its argument assertions or returns a
    concrete ExecutionResult, neither a promise nor an async sequence.
    [executeSync] returns the result of [execute] unchanged when it is a
    concrete result, throws the error 'GraphQL execution failed to complete
    synchronously.' exactly when it is a promise or an async sequence, and
    throws what [execute] throws. *)
Theorem C2_execute_without_futures_returns_a_result
    (args : ExecutionArgs W) (w : W) :
  (syncValue (argRootValue args) = true ->
   (forall exeContext,
      buildExecutionContext host args = inl (inr exeContext) ->
      SyncExecution host exeContext) ->
   exists st,
     (exists r, execute host args w = (inl (ReturnsResult r), st) /\
                executeSync host args w = (inl r, st)) \/
     (exists e, execute host args w = (inr e, st) /\
                assertValidExecutionArguments host (argSchema args)
                  (argDocument args) (argVariableValues args) = Some e)) /\
  (forall result st,
     execute host args w = (inl result, st) ->
     executeSync host args w =
     match result with
     | ReturnsResult r => (inl r, st)
     | ReturnsPromise _ | ReturnsAsyncIterable _ =>
         (inr (newError "GraphQL execution failed to complete synchronously."),
          st)
     end) /\
  (forall e st,
     execute host args w = (inr e, st) ->
     executeSync host args w = (inr e, st)).
Proof.
  split; [| split].
  - intros Hroot Hsync.
    assert (Hex : exists st,
      (exists r, execute host args w = (inl (ReturnsResult r), st)) \/
      (exists e, execute host args w = (inr e, st) /\
                 assertValidExecutionArguments host (argSchema args)
                   (argDocument args) (argVariableValues args) = Some e)).
    { unfold execute.
      destruct (assertValidExecutionArguments host (argSchema args)
                  (argDocument args) (argVariableValues args)) as [e |]
        eqn:Ea.
      - eexists. right. exists e. split; reflexivity.
      - destruct (buildExecutionContext host args)
          as [[errors | exeContext] | e0] eqn:Eb;
          [| | exfalso; exact (asserted_document _ _ Ea Eb)].
        + eexists. left. eexists. reflexivity.
        + pose proof (executeOperation_sync exeContext
                        (Hsync exeContext eq_refl) (argRootValue args)
                        (initialStore w) Hroot) as H.
          destruct (executeOperation host exeContext
                      (exeOperation exeContext) (argRootValue args)
                      (initialStore w))
            as [[[[data | promise] | e |] st1] ps1];
            destruct H as [Hps Hc]; simpl in Hps, Hc; subst;
            try contradiction.
          * simpl. eexists. left. eexists. reflexivity.
          * eexists. left. eexists. reflexivity. }
    destruct Hex as [st [[r Hr] | [e [He Ha]]]].
    + exists st. left. exists r. split; [exact Hr |].
      unfold executeSync. rewrite Hr. reflexivity.
    + exists st. right. exists e. split; assumption.
  - intros result st H. unfold executeSync. rewrite H.
    destruct result; reflexivity.
  - intros e st H. unfold executeSync. rewrite H. reflexivity.
Qed.

(** ** Field errors *)

(** [handleFieldError] itself: rethrow under NonNull, otherwise push on the
    given accumulator and yield null. *)
Lemma handleFieldError_spec (error : GraphQLError)
    (returnType : GraphQLOutputType) (errors : ErrorsRef) (st : St W) :
  handleFieldError error returnType errors st =
  if isNonNullType returnType then (Abrupt error, st, [])
  else (Normal CNull, pushErrorSt errors error st, []).
Proof.
  unfold handleFieldError. destruct (isNonNullType returnType); reflexivity.
Qed.

(** Pushing on one error list leaves the others as they are. *)
Lemma pushAt_nth_error (errors other : nat) (e : GraphQLError)
    (arrays : list (list GraphQLError)) :
  nth_error (pushAt errors e arrays) other =
  if Nat.eqb other errors
  then option_map (fun l => l ++ [e]) (nth_error arrays other)
  else nth_error arrays other.
Proof.
  revert errors other.
  induction arrays as [| a rest IH]; intros errors other.
  - destruct errors, other; simpl; try reflexivity.
    destruct (Nat.eqb other errors); reflexivity.
  - destruct errors as [| r]; destruct other as [| o]; simpl;
      try reflexivity.
    apply IH.
Qed.

(** [handleFieldError] rethrows the error it was given, leaving the store
    as it is, when the return type is NonNull; for any other type it yields
    null and appends the error to the accumulator it was given, and to no
    other. *)
Lemma handleFieldError_rethrows_or_records (error : GraphQLError)
    (returnType : GraphQLOutputType) (errors : ErrorsRef) (st : St W) :
  handleFieldError error returnType errors st =
  (if isNonNullType returnType then (Abrupt error, st, [])
   else (Normal CNull, pushErrorSt errors error st, [])) /\
  nth_error (errorArrays (pushErrorSt errors error st)) errors
  = option_map (fun l => l ++ [error]) (nth_error (errorArrays st) errors) /\
  forall other,
    other <> errors ->
    nth_error (errorArrays (pushErrorSt errors error st)) other
    = nth_error (errorArrays st) other.
Proof.
  split; [apply handleFieldError_spec |]. unfold pushErrorSt. simpl. split.
  - rewrite pushAt_nth_error, Nat.eqb_refl. reflexivity.
  - intros other Hne. rewrite pushAt_nth_error.
    destruct (Nat.eqb_spec other errors) as [E | _]; [contradiction |].
    reflexivity.
Qed.

(** A null under NonNull is a field error. *)
Lemma completeValue_null_under_nonnull
    (subfields : string -> FieldsAndPatches (string * @FieldExecutor W))
    (exeContext : ExecutionContext W) (ofType : GraphQLOutputType)
    (g : GroupedField) (info : GraphQLResolveInfo) (p : Path)
    (result : value W) (errors : ErrorsRef) (st st1 : St W)
    (ps1 : list (Payload W)) :
  (forall e, result <> VError e) ->
  completeValue host subfields exeContext ofType g info p result errors st =
  (Normal (Ready CNull), st1, ps1) ->
  completeValue host subfields exeContext (GraphQLNonNull ofType) g info p
    result errors st =
  (Abrupt (newError
             ("Cannot return null for non-nullable field "
              ++ parentType info ++ "." ++ fieldName info ++ ".")),
   st1, ps1).
Proof.
  intros Hne H. rewrite completeValue_nonnull by exact Hne.
  unfold bind. rewrite H. simpl. rewrite app_nil_r. reflexivity.
Qed.

(** X2. The frame of a field whose resolver returned a value: an error
    thrown by the completion is located at the field's path (an error that
    already has a path keeps it), rethrown when the field is NonNull, and
    otherwise pushed on the accumulator while the field becomes null. *)
Theorem X2_field_error_bubbles_or_becomes_null (g : GroupedField)
    (exeContext : ExecutionContext W) (parentTypeName : string)
    (source : value W) (p : Path) (errors : ErrorsRef) (st st1 : St W)
    (fieldDef : GraphQLField W) (args : list (string * value W))
    (v : value W) (w1 : W) (rawError : GraphQLError)
    (ps1 : list (Payload W)) :
  getFieldDef host (schema exeContext) parentTypeName (firstNode g)
  = Some fieldDef ->
  getArgumentValues host fieldDef (firstNode g) (variableValues exeContext)
  = inl args ->
  match resolve fieldDef with
  | Some f => f
  | None => fieldResolver exeContext
  end source args (contextValue exeContext)
    (buildResolveInfo exeContext fieldDef (fieldNodes g) parentTypeName p)
    (world st) = (inl v, w1) ->
  (forall settle, v <> VPromise settle) ->
  completeValue host
    (fun returnType =>
       collectedWith (executeField host) (collectSubfields g returnType))
    exeContext (fieldType fieldDef) g
    (buildResolveInfo exeContext fieldDef (fieldNodes g) parentTypeName p)
    p v errors (withWorld st w1) = (Abrupt rawError, st1, ps1) ->
  executeField host g exeContext parentTypeName source p errors st =
  if isNonNullType (fieldType fieldDef)
  then (Abrupt (locatedError rawError (fieldNodes g) (pathToArray p)),
        st1, ps1)
  else (Normal (Some (Ready CNull)),
        pushErrorSt errors
          (locatedError rawError (fieldNodes g) (pathToArray p)) st1,
        ps1).
Proof.
  intros Hdef Hargs Hcall Hnp Hc.
  rewrite executeField_unfold. unfold executeFieldWith. rewrite Hdef.
  cbv zeta. rewrite Hargs. simpl liftResult.
  unfold bind at 1. unfold tryCatch at 1. rewrite bind_ret_l.
  unfold bind at 1. unfold hostCall, settlePromise. rewrite Hcall.
  assert (Hm : forall T (a : (W -> (value W + GraphQLError) * W) -> T) (b : T),
            match v with VPromise settle => a settle | _ => b end = b).
  { intros. destruct v; try reflexivity. exfalso. exact (Hnp _ eq_refl). }
  rewrite Hm. unfold bind at 1. rewrite Hc.
  unfold bind at 1. rewrite handleFieldError_spec.
  destruct (isNonNullType (fieldType fieldDef)); simpl;
    rewrite ?app_nil_r; reflexivity.
Qed.

(** ** Lists drawn from an async sequence *)

Section AsyncSequence.

Variable completeItem : Path -> value W -> ErrorsRef -> M Result.
Variable stream : option StreamValues.
Variable nodes : list FieldNode.
Variable itemType : GraphQLOutputType.
Variable p : Path.
Variable errors : ErrorsRef.

(** A failing element under a nullable element type: null is pushed, the
    error is recorded, [resolve] is called, and the loop goes on to the next
    element with the same array. *)
Lemma asyncIteratorNext_goes_on_after_a_failure
    (v : value W) (rest : list (value W + GraphQLError)) (index : nat)
    (s : AsyncListState) (st st1 : St W) (rawError : GraphQLError)
    (ps1 : list (Payload W)) :
  streamedFrom stream index = false ->
  isNonNullType itemType = false ->
  completeItem (addPath (Some p) (KeyIndex index) None) v errors st
  = (Abrupt rawError, st1, ps1) ->
  forall r st2 ps2,
    asyncIteratorNext completeItem stream nodes itemType p errors rest
      (S index) (resolveNow (pushResult s (Ready CNull)))
      (pushErrorSt errors
         (locatedError rawError nodes
            (pathToArray (addPath (Some p) (KeyIndex index) None)))
         st1) = (r, st2, ps2) ->
    asyncIteratorNext completeItem stream nodes itemType p errors
      (inl v :: rest) index s st = (r, st2, ps1 ++ ps2).
Proof.
  intros Hs Hnn Hc r st2 ps2 Hrest. simpl asyncIteratorNext. rewrite Hs.
  unfold bind at 1. unfold tryCatch at 1. unfold bind at 1. rewrite Hc.
  cbv beta iota. unfold ret at 1. cbv beta iota.
  unfold bind at 1. unfold tryCatch at 1. unfold bind at 1.
  rewrite handleFieldError_spec, Hnn. cbv beta iota.
  unfold ret at 1. cbv beta iota. simpl app.
  simpl pathToArray in Hrest. simpl pathToArray. rewrite Hrest.
  rewrite !app_nil_r. reflexivity.
Qed.

(** A failing element under a NonNull element type: [handleFieldError]
    throws inside the callback, which ends there; [resolve] is not called, no
    error is recorded and the loop stops. *)
Lemma asyncIteratorNext_stops_under_nonnull
    (v : value W) (rest : list (value W + GraphQLError)) (index : nat)
    (s : AsyncListState) (st st1 : St W) (rawError : GraphQLError)
    (ps1 : list (Payload W)) :
  streamedFrom stream index = false ->
  isNonNullType itemType = true ->
  completeItem (addPath (Some p) (KeyIndex index) None) v errors st
  = (Abrupt rawError, st1, ps1) ->
  asyncIteratorNext completeItem stream nodes itemType p errors
    (inl v :: rest) index s st =
  (Normal (pushResult s (Ready CNull)), st1, ps1).
Proof.
  intros Hs Hnn Hc. simpl asyncIteratorNext. rewrite Hs.
  unfold bind at 1. unfold tryCatch at 1. unfold bind at 1. rewrite Hc.
  cbv beta iota. unfold ret at 1. cbv beta iota.
  unfold bind at 1. unfold tryCatch at 1. unfold bind at 1.
  rewrite handleFieldError_spec, Hnn. cbv beta iota.
  unfold ret. simpl. rewrite !app_nil_r. reflexivity.
Qed.

End AsyncSequence.

(** * Further properties of the executor *)

(** ** The arguments of [execute] *)

(** X3. [execute] throws exactly when [assertValidExecutionArguments] does,
    before anything is executed: when no document is given, with 'Must
    provide document.'; else when the schema is not valid, with the error of
    [assertValidSchema]; else when variables are given that are neither
    nullish nor object-like. *)
Theorem X3_execute_throws_only_on_invalid_arguments
    (args : ExecutionArgs W) (w : W) :
  (forall e st,
     execute host args w = (inr e, st) <->
     assertValidExecutionArguments host (argSchema args) (argDocument args)
       (argVariableValues args) = Some e /\
     st = initialStore w) /\
  (forall e,
     assertValidExecutionArguments host (argSchema args) (argDocument args)
       (argVariableValues args) = Some e <->
     (argDocument args = None /\ e = newError "Must provide document.") \/
     (argDocument args <> None /\
      assertValidSchema host (argSchema args) = Some e) \/
     (argDocument args <> None /\
      assertValidSchema host (argSchema args) = None /\
      exists raw,
        argVariableValues args = Some raw /\
        isNullish raw = false /\ isObjectLike raw = false /\
        e = newError
              "Variables must be provided as an Object where each property is a variable value. Perhaps look to see if an unparsed JSON string was provided.")).
Proof.
  split.
  - intros e st. unfold execute.
    destruct (assertValidExecutionArguments host (argSchema args)
                (argDocument args) (argVariableValues args)) as [e0 |] eqn:Ea.
    + split.
      * intros H. inversion H. split; reflexivity.
      * intros [H ->]. inversion H. reflexivity.
    + split; [| intros [H _]; discriminate].
      destruct (buildExecutionContext host args)
        as [[errors | exeContext] | e1] eqn:Eb;
        [discriminate | | exfalso; exact (asserted_document _ _ Ea Eb)].
      destruct (executeOperation host exeContext (exeOperation exeContext)
                  (argRootValue args) (initialStore w))
        as [[[[data | promise] | err |] st1] ps]; cbv zeta;
        try discriminate;
        destruct (hasSubsequentPayloads (dispatcherWith ps)); discriminate.
  - intros e. unfold assertValidExecutionArguments.
    destruct (argDocument args) as [document |].
    2: { split.
         - intros H. inversion H. left. split; reflexivity.
         - intros [[_ ->] | [[H _] | [H _]]];
             [reflexivity | exfalso; exact (H eq_refl) ..]. }
    assert (Hdoc : Some document <> None) by discriminate.
    destruct (assertValidSchema host (argSchema args)) as [e0 |].
    + split; [intros H; right; left; split; assumption |].
      intros [[H _] | [[_ H] | (_ & H & _)]];
        [discriminate | exact H | discriminate].
    + destruct (argVariableValues args) as [raw |].
      * destruct (isNullish raw) eqn:En; simpl.
        -- split; [discriminate |].
           intros [[H _] | [[_ H] | (_ & _ & raw' & Hr & Hn & _)]];
             [discriminate | discriminate |].
           inversion Hr; subst. congruence.
        -- destruct (isObjectLike raw) eqn:Eo.
           ++ split; [discriminate |].
              intros [[H _] | [[_ H] | (_ & _ & raw' & Hr & _ & Ho & _)]];
                [discriminate | discriminate |].
              inversion Hr; subst. congruence.
           ++ split.
              ** intros H. inversion H. right. right.
                 split; [exact Hdoc |]. split; [reflexivity |].
                 exists raw. repeat split; assumption.
              ** intros [[H _] | [[_ H] | (_ & _ & raw' & _ & _ & _ & ->)]];
                   [discriminate | discriminate | reflexivity].
      * split; [discriminate |].
        intros [[H _] | [[_ H] | (_ & _ & raw' & Hr & _)]]; discriminate.
Qed.

(** ** The response of [execute] *)

Lemma hasSubsequentPayloads_true (payloads : list (Payload W)) :
  hasSubsequentPayloads (dispatcherWith payloads) = true -> payloads <> [].
Proof.
  intros H ->. discriminate H.
Qed.

(** X4. Once the arguments are accepted and the context is built, [execute]
    does not throw and the promise it may return does not reject: what it
    returns, what its promise resolves to and the initial result of the
    async sequence are all [buildResponse(data, exeContext.errors)], with
    [data] always present and [errors] present exactly when the list is not
    empty; the async sequence is returned only over a non-empty queue. *)
Theorem X4_execute_resolves_to_a_response
    (args : ExecutionArgs W) (w : W) (exeContext : ExecutionContext W) :
  assertValidExecutionArguments host (argSchema args) (argDocument args)
    (argVariableValues args) = None ->
  buildExecutionContext host args = inl (inr exeContext) ->
  (exists result st0,
     execute host args w = (inl result, st0) /\
     match result with
     | ReturnsResult r =>
         exists data,
           r = buildResponse data (readErrors (exeErrors exeContext) st0)
     | ReturnsAsyncIterable d =>
         (exists data,
            _initialResult d =
            Some (buildResponse data
                    (readErrors (exeErrors exeContext) st0))) /\
         _hasReturnedInitialResult d = false /\
         _subsequentPayloads d <> []
     | ReturnsPromise promise =>
         forall st,
           match promise st with
           | (Abrupt _, _) => False
           | (Normal (inl r), st2) =>
               exists data,
                 r = buildResponse data
                       (readErrors (exeErrors exeContext) st2)
           | (Normal (inr d), st2) =>
               (exists data,
                  _initialResult d =
                  Some (buildResponse data
                          (readErrors (exeErrors exeContext) st2))) /\
               _hasReturnedInitialResult d = false /\
               _subsequentPayloads d <> []
           | (Unsettled, _) => True
           end
     end) /\
  (forall (data : Completed W) (errors : list GraphQLError),
     resultData (buildResponse data errors) = Some data /\
     resultHasNext (buildResponse data errors) = None /\
     resultErrors (buildResponse data errors) =
     match errors with [] => None | _ => Some errors end).
Proof.
  intros Hargs Hctx. split.
  - unfold execute. rewrite Hargs, Hctx. cbv zeta.
    destruct (executeOperation host exeContext (exeOperation exeContext)
                (argRootValue args) (initialStore w))
      as [[[[data | promise] | err |] st1] ps1].
    + destruct (hasSubsequentPayloads (dispatcherWith ps1)) eqn:Eh.
      * eexists _, _. split; [reflexivity |]. simpl.
        split; [eexists; reflexivity |]. split; [reflexivity |].
        apply hasSubsequentPayloads_true. exact Eh.
      * eexists _, _. split; [reflexivity |]. eexists. reflexivity.
    + eexists _, _. split; [reflexivity |]. intros st.
      destruct (promise st) as [[[data | err |] st2] ps2]; [| | exact I].
      * destruct (hasSubsequentPayloads (dispatcherWith (ps1 ++ ps2)))
          eqn:Eh.
        -- simpl. split; [eexists; reflexivity |]. split; [reflexivity |].
           apply hasSubsequentPayloads_true. exact Eh.
        -- eexists. reflexivity.
      * eexists. reflexivity.
    + eexists _, _. split; [reflexivity |]. eexists. reflexivity.
    + eexists _, _. split; [reflexivity |]. intros st. exact I.
  - intros data errors. destruct errors; repeat split.
Qed.

(** ** Null, undefined and Error values *)

Section CompleteValueEdges.

Variable subfields : string -> FieldsAndPatches (string * @FieldExecutor W).
Variable exeContext : ExecutionContext W.
Variable g : GroupedField.
Variable info : GraphQLResolveInfo.
Variable p : Path.
Variable errors : ErrorsRef.

Lemma nullish_not_error (result : value W) :
  isNullish result = true -> forall e, result <> VError e.
Proof.
  intros H e ->. discriminate H.
Qed.

Lemma completeValue_nullish (returnType : GraphQLOutputType)
    (result : value W) (st : St W) :
  isNullish result = true ->
  completeValue host subfields exeContext returnType g info p result
    errors st =
  if isNonNullType returnType
  then (Abrupt
          (newError
             ("Cannot return null for non-nullable field "
              ++ parentType info ++ "." ++ fieldName info ++ ".")),
        st, [])
  else (Normal (Ready CNull), st, []).
Proof.
  intros Hnull. pose proof (nullish_not_error result Hnull) as Hne.
  induction returnType as [ofType IH | ofType _ | name | name | name].
  - rewrite completeValue_nonnull by exact Hne. unfold bind. rewrite IH.
    destruct (isNonNullType ofType); reflexivity.
  - rewrite completeValue_list by exact Hne. rewrite Hnull. reflexivity.
  - rewrite completeValue_leaf by exact Hne. rewrite Hnull. reflexivity.
  - rewrite completeValue_abstract by exact Hne. rewrite Hnull.
    reflexivity.
  - rewrite completeValue_object by exact Hne. rewrite Hnull. reflexivity.
Qed.

(** X5. [completeValue] on an Error value throws that very error, whatever
    the type; on null or undefined it returns null for a nullable type and
    throws 'Cannot return null for non-nullable field ...' for a NonNull
    type. In all three cases the store is left as it is (no error is
    recorded, nothing of the host is called) and no payload is queued. *)
Theorem X5_completeValue_of_null_and_of_an_error
    (returnType : GraphQLOutputType) (result : value W) (st : St W) :
  (forall e,
     result = VError e ->
     completeValue host subfields exeContext returnType g info p result
       errors st = (Abrupt e, st, [])) /\
  (isNullish result = true ->
   completeValue host subfields exeContext returnType g info p result
     errors st =
   if isNonNullType returnType
   then (Abrupt
           (newError
              ("Cannot return null for non-nullable field "
               ++ parentType info ++ "." ++ fieldName info ++ ".")),
         st, [])
   else (Normal (Ready CNull), st, [])).
Proof.
  split.
  - intros e ->. rewrite completeValue_error. reflexivity.
  - apply completeValue_nullish.
Qed.

End CompleteValueEdges.

(** ** The shape of what [completeValue] returns *)

Lemma await_resolvesTo (P : Completed W -> Prop)
    (v : Result) st c st1 ps :
  resolvesTo P v -> await v st = (Normal c, st1, ps) -> P c.
Proof.
  destruct v as [a | promise]; simpl; intros Hv H.
  - inversion H; subst. exact Hv.
  - exact (Hv _ _ _ _ H).
Qed.

(** A [then] whose callback returns objects resolves to an object. *)
Lemma thenP_resolvesTo {A} (P : Completed W -> Prop) (promise : M A)
    (callback : A -> M (Result)) :
  (forall a st v st1 ps,
     callback a st = (Normal v, st1, ps) -> resolvesTo P v) ->
  resolvesTo P (Pending (thenP promise callback)).
Proof.
  intros Hcb st c st1 ps H. unfold thenP in H.
  apply bind_inv_normal in H.
  destruct H as (a & st2 & ps1 & ps2 & _ & H & _).
  apply bind_inv_normal in H.
  destruct H as (v & st3 & ps3 & ps4 & Hc & Ha & _).
  exact (await_resolvesTo P v _ _ _ _ (Hcb _ _ _ _ _ Hc) Ha).
Qed.

Lemma executeFieldsFrom_object (exeContext : ExecutionContext W)
    (parentType : string) (source : value W) (p : option Path)
    (fields : list (string * @FieldExecutor W)) (errors : ErrorsRef)
    st v st1 ps :
  executeFieldsFrom exeContext parentType source p fields errors st
  = (Normal v, st1, ps) ->
  resolvesTo isObject v.
Proof.
  unfold executeFieldsFrom. intros H. apply bind_inv_normal in H.
  destruct H as (r & st2 & ps1 & ps2 & _ & H & _).
  destruct (negb (snd r)); inversion H; subst; simpl.
  - eexists. reflexivity.
  - intros st3 c st4 ps3 Hp. unfold promiseForObject in Hp.
    apply bind_inv_normal in Hp.
    destruct Hp as (l & st5 & ps4 & ps5 & _ & Hr & _).
    inversion Hr; subst. eexists. reflexivity.
Qed.

Section ObjectShape.

Variable subfields : string -> FieldsAndPatches (string * @FieldExecutor W).
Variable exeContext : ExecutionContext W.
Variable g : GroupedField.
Variable info : GraphQLResolveInfo.
Variable p : Path.
Variable errors : ErrorsRef.

Lemma collectAndExecuteSubfields_object (returnType : string)
    (result : value W) st v st1 ps :
  collectAndExecuteSubfields subfields exeContext returnType g p result
    errors st = (Normal v, st1, ps) ->
  resolvesTo isObject v.
Proof.
  unfold collectAndExecuteSubfields. intros H. apply bind_inv_normal in H.
  destruct H as (subFields & st2 & ps1 & ps2 & Hf & H & _).
  apply bind_inv_normal in H.
  destruct H as (u & st3 & ps3 & ps4 & _ & H & _).
  inversion H; subst. exact (executeFieldsFrom_object _ _ _ _ _ _ _ _ _ _ Hf).
Qed.

Lemma completeObjectValue_object (returnType : string) (result : value W)
    st v st1 ps :
  completeObjectValue host subfields exeContext returnType g info p result
    errors st = (Normal v, st1, ps) ->
  resolvesTo isObject v.
Proof.
  unfold completeObjectValue.
  destruct (isTypeOf (schema exeContext) returnType) as [isTypeOfFn |].
  - intros H. apply bind_inv_normal in H.
    destruct H as (r & st2 & ps1 & ps2 & _ & H & _).
    assert (Hsync :
      forall st' v' st1' ps',
        (if negb (truthy r)
         then throw (invalidReturnTypeError host returnType result
                       (fieldNodes g))
         else collectAndExecuteSubfields subfields exeContext returnType g p
                result errors) st' = (Normal v', st1', ps') ->
        resolvesTo isObject v').
    { intros st' v' st1' ps'. destruct (negb (truthy r)); [discriminate |].
      apply collectAndExecuteSubfields_object. }
    destruct r; try exact (Hsync _ _ _ _ H).
    inversion H; subst. apply thenP_resolvesTo.
    intros a st' v' st1' ps'. destruct (negb (truthy a)); [discriminate |].
    apply collectAndExecuteSubfields_object.
  - apply collectAndExecuteSubfields_object.
Qed.

Lemma completeAbstractValue_object (returnType : string) (result : value W)
    st v st1 ps :
  completeAbstractValue host subfields exeContext returnType g info p result
    errors st = (Normal v, st1, ps) ->
  resolvesTo isObject v.
Proof.
  unfold completeAbstractValue. cbv zeta. intros H.
  apply bind_inv_normal in H.
  destruct H as (r & st2 & ps1 & ps2 & _ & H & _).
  assert (Hcb :
    forall resolved st' v' st1' ps',
      bind
        (liftResult
           (ensureValidRuntimeType host resolved exeContext returnType
              (fieldNodes g) info result))
        (fun runtimeObjectType =>
           completeObjectValue host subfields exeContext runtimeObjectType g
             info p result errors) st' = (Normal v', st1', ps') ->
      resolvesTo isObject v').
  { intros resolved st' v' st1' ps' Hb. apply bind_inv_normal in Hb.
    destruct Hb as (name & st3 & ps3 & ps4 & _ & Hb & _).
    exact (completeObjectValue_object _ _ _ _ _ _ Hb). }
  destruct r; try exact (Hcb _ _ _ _ _ H).
  inversion H; subst. apply thenP_resolvesTo. exact Hcb.
Qed.

Lemma hasShape_nonnull (returnType : GraphQLOutputType) (c : Completed W) :
  hasShape (GraphQLNonNull returnType) c = true ->
  hasShape returnType c = true /\
  hasShape (GraphQLNonNull (GraphQLNonNull returnType)) c = true.
Proof.
  destruct c; simpl; try discriminate; auto.
Qed.

Lemma isObject_shape (name : string) (c : Completed W) :
  isObject c ->
  hasShape (GraphQLNonNull (GraphQLObject name)) c = true /\
  hasShape (GraphQLNonNull (GraphQLAbstract name)) c = true.
Proof.
  intros [o ->]. split; reflexivity.
Qed.

Lemma resolvesTo_impl (P Q : Completed W -> Prop)
    (v : Result) :
  (forall c, P c -> Q c) -> resolvesTo P v -> resolvesTo Q v.
Proof.
  intros H. destruct v as [c | promise]; simpl.
  - apply H.
  - intros Hp st c st1 ps Hr. exact (H _ (Hp _ _ _ _ Hr)).
Qed.

(** X6. In a schema whose [serialize] functions return no promise, what
    [completeValue] returns has the shape of the return type: under NonNull
    never null; for a list type a list or null; for a leaf type the
    serialized value, which is neither null nor undefined, or null; for an
    object or abstract type an object or null. A promise it returns never
    resolves to null, and what it resolves to has that shape too. (A promise
    returned by [serialize] is passed on as it is and can resolve to
    anything.) *)
Theorem X6_completed_value_has_the_shape_of_its_type
    (returnType : GraphQLOutputType) (result : value W) (st st1 : St W)
    (v : Result) (ps : list (Payload W)) :
  (forall name raw settle,
     serialize (schema exeContext) name raw <> inl (VPromise settle)) ->
  completeValue host subfields exeContext returnType g info p result errors
    st = (Normal v, st1, ps) ->
  match v with
  | Ready c => hasShape returnType c = true
  | Pending promise =>
      forall st2 c st3 ps3,
        promise st2 = (Normal c, st3, ps3) ->
        c <> CNull /\ hasShape returnType c = true
  end.
Proof.
  intros Hser.
  destruct (error_or_not result) as [[e ->] | Hne].
  { rewrite completeValue_error. discriminate. }
  assert (Hgoal :
    forall v : Result,
      match v with
      | Ready c => hasShape returnType c = true
      | Pending promise =>
          resolvesTo
            (fun c => hasShape (GraphQLNonNull returnType) c = true)
            (Pending promise)
      end ->
      match v with
      | Ready c => hasShape returnType c = true
      | Pending promise =>
          forall st2 c st3 ps3,
            promise st2 = (Normal c, st3, ps3) ->
            c <> CNull /\ hasShape returnType c = true
      end).
  { intros [c | promise]; [auto |]. simpl. intros Hp st2 c st3 ps3 Hr.
    specialize (Hp _ _ _ _ Hr). destruct c; try discriminate;
      (split; [discriminate | exact Hp]). }
  intros H. apply Hgoal. clear Hgoal.
  revert st st1 v ps H.
  induction returnType as [ofType IH | ofType _ | name | name | name];
    intros st st1 v ps H.
  - rewrite completeValue_nonnull in H by exact Hne.
    apply bind_inv_normal in H.
    destruct H as (completed & st2 & ps1 & ps2 & Hc & H & _).
    specialize (IH _ _ _ _ Hc).
    destruct completed as [c | promise].
    + destruct c; try discriminate; inversion H; subst; simpl; exact IH.
    + inversion H; subst. intros st3 c st4 ps3 Hr.
      exact (proj2 (hasShape_nonnull _ _ (IH _ _ _ _ Hr))).
  - rewrite completeValue_list in H by exact Hne.
    destruct (isNullish result); [inversion H; reflexivity |].
    unfold completeListValue in H. destruct result; try discriminate.
    + apply bind_inv_normal in H.
      destruct H as (r & st2 & ps1 & ps2 & _ & H & _).
      destruct (fst r); inversion H; subst; [| reflexivity].
      intros st3 c st4 ps3 Hr. apply bind_inv_normal in Hr.
      destruct Hr as (l & st5 & ps4 & ps5 & _ & Hr & _).
      inversion Hr; reflexivity.
    + unfold completeAsyncIteratorValue in H. inversion H; subst.
      intros st3 c st4 ps3 Hr. apply bind_inv_normal in Hr.
      destruct Hr as (s & st5 & ps4 & ps5 & _ & Hr & _).
      destruct (resolvedWith s) as [[rs [|]] |]; try discriminate.
      * apply bind_inv_normal in Hr.
        destruct Hr as (l & st6 & ps6 & ps7 & _ & Hr & _).
        inversion Hr; reflexivity.
      * inversion Hr; reflexivity.
  - rewrite completeValue_leaf in H by exact Hne.
    destruct (isNullish result); [inversion H; reflexivity |].
    unfold completeLeafValue in H. apply bind_inv_normal in H.
    destruct H as (s & st3 & ps3 & ps4 & Hs & H & _).
    destruct (isNullish s) eqn:Es; [discriminate |].
    assert (Hnp : forall settle, s <> VPromise settle).
    { intros settle ->.
      destruct (serialize (schema exeContext) name result) as [s' | e] eqn:E;
        [| discriminate Hs].
      inversion Hs; subst. exact (Hser _ _ _ E). }
    destruct s; try (exfalso; exact (Hnp _ eq_refl));
      inversion H; subst; simpl; try reflexivity; discriminate Es.
  - rewrite completeValue_abstract in H by exact Hne.
    destruct (isNullish result); [inversion H; reflexivity |].
    apply completeAbstractValue_object in H.
    destruct v as [c | promise].
    + destruct H as [o ->]. reflexivity.
    + refine (resolvesTo_impl _ _ _ _ H).
      intros c Hc. exact (proj2 (isObject_shape name c Hc)).
  - rewrite completeValue_object in H by exact Hne.
    destruct (isNullish result); [inversion H; reflexivity |].
    apply completeObjectValue_object in H.
    destruct v as [c | promise].
    + destruct H as [o ->]. reflexivity.
    + refine (resolvesTo_impl _ _ _ _ H).
      intros c Hc. exact (proj1 (isObject_shape name c Hc)).
Qed.

End ObjectShape.

(** ** The [isTypeOf] check of an object type *)

Lemma hostCall_bind {B} (f : W -> (value W + GraphQLError) * W)
    (k : value W -> M B) (st : St W) :
  bind (hostCall f) k st =
  match f (world st) with
  | (inl v, w1) => k v (withWorld st w1)
  | (inr e, w1) => (Abrupt e, withWorld st w1, [])
  end.
Proof.
  unfold bind, hostCall, settlePromise.
  destruct (f (world st)) as [[v | e] w1]; [| reflexivity].
  destruct (k v (withWorld st w1)) as [[r st2] ps2]. reflexivity.
Qed.

Lemma settlePromise_then {B} (settle : W -> (value W + GraphQLError) * W)
    (callback : value W -> M (@PromiseOrValue W B)) (st : St W) :
  thenP (settlePromise settle) callback st =
  match settle (world st) with
  | (inl v, w1) => bind (callback v) await (withWorld st w1)
  | (inr e, w1) => (Abrupt e, withWorld st w1, [])
  end.
Proof.
  unfold thenP. apply (hostCall_bind settle).
Qed.

(** X7. An object type with an [isTypeOf] function has it called on the
    value before any sub-field is executed. When it throws, the error is
    thrown on; when it returns a falsy value, or a promise that resolves to
    one, [completeObjectValue] throws (or the promise rejects with)
    'Expected value of type "T" but got: ...' carrying the field nodes, and
    no sub-field is executed; otherwise, and when the type has no
    [isTypeOf], the sub-selection is collected and executed. *)
Theorem X7_isTypeOf_guards_the_object
    (subfields : string -> FieldsAndPatches (string * @FieldExecutor W))
    (exeContext : ExecutionContext W) (returnType : string)
    (g : GroupedField) (info : GraphQLResolveInfo) (p : Path)
    (result : value W) (errors : ErrorsRef) (st : St W) :
  let complete :=
    completeObjectValue host subfields exeContext returnType g info p result
      errors in
  let execute :=
    collectAndExecuteSubfields subfields exeContext returnType g p result
      errors in
  let invalid :=
    newGraphQLError
      ("Expected value of type " ++ quoted returnType ++ " but got: "
       ++ inspect host result ++ ".")
      (Some (fieldNodes g)) in
  (isTypeOf (schema exeContext) returnType = None ->
   complete st = execute st) /\
  (forall isTypeOfFn,
     isTypeOf (schema exeContext) returnType = Some isTypeOfFn ->
     match isTypeOfFn result (contextValue exeContext) info (world st) with
     | (inr e, w1) => complete st = (Abrupt e, withWorld st w1, [])
     | (inl (VPromise settle), w1) =>
         exists promise,
           complete st = (Normal (Pending promise), withWorld st w1, []) /\
           forall st2,
             promise st2 =
             match settle (world st2) with
             | (inr e, w2) => (Abrupt e, withWorld st2 w2, [])
             | (inl resolvedIsTypeOf, w2) =>
                 if truthy resolvedIsTypeOf
                 then bind execute await (withWorld st2 w2)
                 else (Abrupt invalid, withWorld st2 w2, [])
             end
     | (inl isTypeOfResult, w1) =>
         complete st =
         if truthy isTypeOfResult then execute (withWorld st w1)
         else (Abrupt invalid, withWorld st w1, [])
     end).
Proof.
  cbv zeta. unfold completeObjectValue. split.
  - intros ->. reflexivity.
  - intros isTypeOfFn ->. rewrite hostCall_bind.
    destruct (isTypeOfFn result (contextValue exeContext) info (world st))
      as [[v | e] w1]; [| reflexivity].
    destruct v; try (simpl; reflexivity);
      try (destruct (truthy _); reflexivity).
    eexists. split; [reflexivity |]. intros st2.
    rewrite settlePromise_then.
    destruct (settle (world st2)) as [[v | e] w2]; [| reflexivity].
    destruct (truthy v); reflexivity.
Qed.

(** ** The default type resolver *)




(** ** The default field resolver *)

Lemma withWorld_same (st : St W) : withWorld st (world st) = st.
Proof. destruct st; reflexivity. Qed.

(** X9. A field without a resolver of its own, executed with the default
    field resolver on a source that is not object-like (undefined, null, a
    boolean, a number, a string), or on a source whose property of the
    field's name is missing, null or undefined (what [source[fieldName]]
    finds, own or inherited, is nullish and so no function): the field is
    null when its type is nullable, and no error is recorded; when its type is
    NonNull, 'Cannot return null for non-nullable field ...' is thrown to the
    frame above, located at the field's path. The store is left as it is. *)
Theorem X9_a_missing_property_completes_to_null
    (g : GroupedField) (exeContext : ExecutionContext W)
    (parentTypeName : string) (source : value W) (p : Path)
    (errors : ErrorsRef) (st : St W) (fieldDef : GraphQLField W)
    (args : list (string * value W)) :
  getFieldDef host (schema exeContext) parentTypeName (firstNode g)
  = Some fieldDef ->
  resolve fieldDef = None ->
  fieldResolver exeContext = defaultFieldResolver host ->
  getArgumentValues host fieldDef (firstNode g) (variableValues exeContext)
  = inl args ->
  (isObjectLike source = true ->
   exists property,
     readProperty host source (fieldDefName fieldDef) = DataProperty property /\
     isNullish property = true) ->
  executeField host g exeContext parentTypeName source p errors st =
  if isNonNullType (fieldType fieldDef)
  then (Abrupt
          {| message :=
               "Cannot return null for non-nullable field "
               ++ parentTypeName ++ "." ++ fieldDefName fieldDef ++ ".";
             nodes := Some (fieldNodes g);
             path := Some (pathToArray p) |},
        st, [])
  else (Normal (Some (Ready CNull)), st, []).
Proof.
  intros Hdef Hres Hdefault Hargs Hmissing.
  rewrite executeField_unfold. unfold executeFieldWith. rewrite Hdef.
  cbv zeta. rewrite Hargs, Hres, Hdefault. simpl liftResult.
  unfold bind at 1. unfold tryCatch at 1. rewrite bind_ret_l.
  rewrite hostCall_bind.
  assert (Hcall :
    exists v,
      defaultFieldResolver host source args (contextValue exeContext)
        (buildResolveInfo exeContext fieldDef (fieldNodes g) parentTypeName p)
        (world st) = (inl v, world st) /\ isNullish v = true).
  { unfold defaultFieldResolver.
    destruct (isObjectLike source); [| eexists; split; reflexivity].
    destruct (Hmissing eq_refl) as (property & Hread & Hnull).
    simpl fieldName. rewrite Hread. exists property. split; [reflexivity |].
    exact Hnull. }
  destruct Hcall as (v & -> & Hv). rewrite withWorld_same.
  assert (Hnp :
    forall T (a : (W -> (value W + GraphQLError) * W) -> T) (b : T),
      match v with VPromise settle => a settle | _ => b end = b).
  { intros. destruct v; try reflexivity. discriminate Hv. }
  rewrite Hnp. unfold bind at 1.
  rewrite (completeValue_nullish _ _ _ _ _ _ _ _ _ Hv).
  destruct (isNonNullType (fieldType fieldDef)) eqn:Enn.
  - unfold handleFieldError. rewrite Enn. reflexivity.
  - reflexivity.
Qed.

(** ** The order of the keys of the response *)

Lemma setProperty_new {A} (object : list (string * A)) (key : string)
    (v : A) :
  ~ In key (map fst object) ->
  setProperty object key v = object ++ [(key, v)].
Proof.
  induction object as [| [k old] rest IH]; intros Hnew; simpl.
  - reflexivity.
  - destruct (String.eqb_spec k key) as [-> | _].
    + exfalso. apply Hnew. left. reflexivity.
    + rewrite IH; [reflexivity |]. intros Hin. apply Hnew. right. exact Hin.
Qed.

Lemma readyEntries_all {A} (object : list (string * @PromiseOrValue W A)) :
  forallb (fun kv => negb (isPromise (snd kv))) object = true ->
  map fst (readyEntries object) = map fst object.
Proof.
  induction object as [| [k [a | promise]] rest IH]; simpl; intros H.
  - reflexivity.
  - rewrite IH; [reflexivity | exact H].
  - discriminate.
Qed.

Lemma combine_fst {A B} (keys : list A) (vs : list B) :
  List.length vs = List.length keys -> map fst (combine keys vs) = keys.
Proof.
  revert vs. induction keys as [| k rest IH]; intros [| v vs] H; simpl;
    try reflexivity; try discriminate.
  rewrite IH; [reflexivity |]. simpl in H. lia.
Qed.

(** A field that has a definition gives an entry to the response. *)
Lemma executeField_defined (g : GroupedField) exeContext parentType source
    p errors st r st1 ps :
  getFieldDef host (schema exeContext) parentType (firstNode g) <> None ->
  executeField host g exeContext parentType source p errors st =
  (Normal r, st1, ps) ->
  r <> None.
Proof.
  intros Hdef H. rewrite executeField_unfold in H. unfold executeFieldWith in H.
  destruct (getFieldDef host (schema exeContext) parentType (firstNode g))
    as [fieldDef |]; [| contradiction]. cbv zeta in H.
  apply bind_inv_normal in H.
  destruct H as (completed & st2 & ps1 & ps2 & _ & H & _).
  inversion H. discriminate.
Qed.

Section ResponseKeys.

Variable exeContext : ExecutionContext W.
Variable parentType : string.
Variable source : value W.
Variable p : option Path.
Variable errors : ErrorsRef.

Local Notation defined :=
  (fun g =>
     match getFieldDef host (schema exeContext) parentType (firstNode g) with
     | Some _ => true
     | None => false
     end).

Lemma executeFieldsLoop_order (fields : list GroupedField) :
  forall results cp st results' cp' st' ps,
    NoDup (map responseName fields) ->
    (forall g, In g fields -> ~ In (responseName g) (map fst results)) ->
    executeFieldsLoop exeContext parentType source p errors
      (withExecutors (executeField host) fields) results cp st =
    (Normal (results', cp'), st', ps) ->
    map fst results' =
    map fst results ++ map responseName (filter defined fields) /\
    ((cp = false ->
      forallb (fun kv => negb (isPromise (snd kv))) results = true) ->
     cp' = false ->
     forallb (fun kv => negb (isPromise (snd kv))) results' = true).
Proof.
  induction fields as [| g rest IH];
    intros results cp st results' cp' st' ps Hnodup Hnew H.
  - simpl in H. inversion H; subst. simpl. rewrite app_nil_r. auto.
  - simpl in H. apply bind_inv_normal in H.
    destruct H as (r & st1 & ps1 & ps2 & Hf & Hrest & _).
    simpl in Hnodup. inversion Hnodup as [| n l Hn Hnd]; subst.
    simpl filter.
    destruct (getFieldDef host (schema exeContext) parentType (firstNode g))
      as [fieldDef |] eqn:Edef.
    + destruct r as [r |].
      2:{ exfalso. refine (executeField_defined g _ _ _ _ _ _ _ _ _ _ Hf _).
          - rewrite Edef. discriminate.
          - reflexivity. }
      rewrite (setProperty_new results (responseName g) r) in Hrest
        by (apply Hnew; left; reflexivity).
      apply IH in Hrest; [| exact Hnd |].
      * destruct Hrest as [Hkeys Hready]. split.
        -- rewrite Hkeys, map_app, <- app_assoc. reflexivity.
        -- intros Hcp Hcp'. apply Hready; [| exact Hcp'].
           destruct (isPromise r) eqn:Er; [discriminate |].
           intros Hc. rewrite forallb_app, (Hcp Hc). simpl. rewrite Er.
           reflexivity.
      * intros g' Hin Hk. rewrite map_app in Hk. apply in_app_or in Hk.
        destruct Hk as [Hk | [Hk | []]].
        -- exact (Hnew g' (or_intror Hin) Hk).
        -- apply Hn. simpl in Hk. rewrite Hk. apply in_map. exact Hin.
    + rewrite (executeField_undefined g _ _ _ _ _ _ Edef) in Hf.
      inversion Hf; subst.
      apply IH in Hrest; [exact Hrest | exact Hnd |].
      intros g' Hin. apply Hnew. right. exact Hin.
Qed.

(** X10. The keys of the object [executeFields] returns, directly or through
    its promise, are the response names of the selected fields that have a
    definition, in the order of the selection: a field that resolves later
    does not move, and a field without definition leaves no key. *)
Theorem X10_response_keys_follow_the_selection
    (fields : list GroupedField) (st st1 : St W) (v : Result)
    (ps : list (Payload W)) :
  NoDup (map responseName fields) ->
  executeFields host exeContext parentType source p fields errors st
  = (Normal v, st1, ps) ->
  resolvesTo
    (fun c =>
       exists object,
         c = CObject object /\
         map fst object = map responseName (filter defined fields))
    v.
Proof.
  intros Hnodup H. unfold executeFields, executeFieldsFrom in H.
  apply bind_inv_normal in H.
  destruct H as ([results cp] & st2 & ps1 & ps2 & Hloop & H & _).
  apply executeFieldsLoop_order in Hloop;
    [| exact Hnodup | intros g _ []].
  destruct Hloop as [Hkeys Hready]. simpl in Hkeys, H.
  destruct cp; simpl in H; inversion H; subst; simpl.
  - intros st3 c st4 ps3 Hp. unfold promiseForObject in Hp.
    apply bind_inv_normal in Hp.
    destruct Hp as (l & st5 & ps4 & ps5 & Hall & Hr & _).
    inversion Hr; subst. eexists. split; [reflexivity |].
    rewrite combine_fst; [exact Hkeys |].
    rewrite (promiseAll_length _ _ _ _ _ Hall), !length_map. reflexivity.
  - eexists. split; [reflexivity |].
    rewrite readyEntries_all; [exact Hkeys |].
    apply Hready; [intros _; reflexivity | reflexivity].
Qed.

End ResponseKeys.

(** ** Lists without [@stream] *)

(** X11. A list field without [@stream] (or with [@stream(if: false)]) over
    an array returns, directly or through its promise, a list with exactly
    one entry for each element of the array, and queues no element; a value
    that is neither an array nor an async sequence makes it throw 'Expected
    Iterable, but did not find one for field ...', with the store as it
    was. *)
Theorem X11_a_list_keeps_the_length_of_its_source
    (completeItem : Path -> value W -> ErrorsRef -> M Result)
    (exeContext : ExecutionContext W) (itemType : GraphQLOutputType)
    (g : GroupedField) (info : GraphQLResolveInfo) (p : Path)
    (result : value W) (errors : ErrorsRef) (st : St W) :
  match result with
  | VArray items =>
      getStreamValues host exeContext g = None ->
      forall v st1 ps,
        completeListValue host completeItem exeContext itemType g info p
          result errors st = (Normal v, st1, ps) ->
        resolvesTo
          (fun c =>
             exists l, c = CList l /\ List.length l = List.length items)
          v
  | VAsyncIterable _ => True
  | _ =>
      completeListValue host completeItem exeContext itemType g info p
        result errors st =
      (Abrupt
         (newGraphQLError
            ("Expected Iterable, but did not find one for field "
             ++ quoted (parentType info ++ "." ++ fieldName info) ++ ".")
            None),
       st, [])
  end.
Proof.
  destruct result; try reflexivity; try exact I.
  intros Hstream v st1 ps H. unfold completeListValue in H.
  rewrite Hstream in H. apply bind_inv_normal in H.
  destruct H as ([cp results] & st2 & ps1 & ps2 & Hloop & H & _).
  apply completeListItems_plain in Hloop.
  destruct Hloop as [Hlen Hready]. simpl in Hlen, H.
  destruct cp; inversion H; subst; simpl.
  - intros st3 c st4 ps3 Hp. apply bind_inv_normal in Hp.
    destruct Hp as (l & st5 & ps4 & ps5 & Hall & Hr & _).
    inversion Hr; subst. eexists. split; [reflexivity |].
    rewrite (promiseAll_length _ _ _ _ _ Hall). exact Hlen.
  - eexists. split; [reflexivity |].
    rewrite readyValues_length; [exact Hlen |].
    apply Hready; [reflexivity | constructor].
Qed.

(** ** The operation [buildExecutionContext] selects *)

(** With a name, whatever was found before the last operation of that name
    is replaced by it. *)
Lemma findOperation_named (before after : list DefinitionNode)
    (op : OperationDefinitionNode) (name : string)
    (found : option OperationDefinitionNode) :
  operationNameNode op = Some name ->
  (forall op', In (OPERATION_DEFINITION op') after ->
               operationNameNode op' <> Some name) ->
  findOperation (before ++ OPERATION_DEFINITION op :: after) (Some name)
    found = inr (Some op).
Proof.
  intros Hname Hafter. revert found.
  induction before as [| d rest IH]; intros found; simpl.
  - apply optionStringEqb_true in Hname. rewrite Hname.
    apply findOperation_unknown. exact Hafter.
  - destruct d as [op' | |]; try apply IH.
    destruct (optionStringEqb (operationNameNode op') name); apply IH.
Qed.

Lemma findOperation_only (before after : list DefinitionNode)
    (op : OperationDefinitionNode) :
  (forall op', ~ In (OPERATION_DEFINITION op') (before ++ after)) ->
  findOperation (before ++ OPERATION_DEFINITION op :: after) None None
  = inr (Some op).
Proof.
  intros Hnone. induction before as [| d rest IH]; simpl.
  - apply findOperation_empty. exact Hnone.
  - destruct d as [op' | |].
    + exfalso. exact (Hnone op' (or_introl eq_refl)).
    + apply IH. intros op' Hin. exact (Hnone op' (or_intror Hin)).
    + apply IH. intros op' Hin. exact (Hnone op' (or_intror Hin)).
Qed.

(** X12. [buildExecutionContext] selects, when an operation name is given,
    the last operation definition of the document with that name, and
    without a name the only operation definition of the document (fragment
    and other definitions do not count). When the variables coerce, the
    context holds that operation, the coerced variables, the schema, root and
    context value of the arguments, and the default field and type resolvers
    wherever the arguments give none. *)
Theorem X12_buildExecutionContext_selects_the_operation
    (args : ExecutionArgs W) (before after : list DefinitionNode)
    (op : OperationDefinitionNode) (coerced : list (string * value W)) :
  argDocument args =
  Some {| definitions := before ++ OPERATION_DEFINITION op :: after |} ->
  match argOperationName args with
  | Some name =>
      operationNameNode op = Some name /\
      forall op', In (OPERATION_DEFINITION op') after ->
                  operationNameNode op' <> Some name
  | None => forall op', ~ In (OPERATION_DEFINITION op') (before ++ after)
  end ->
  getVariableValues host (argSchema args)
    match variableDefinitions op with
    | Some defs => defs
    | None => []
    end
    match argVariableValues args with
    | Some raw => if isNullish raw then VObject [] else raw
    | None => VObject []
    end
    50 = inr coerced ->
  buildExecutionContext host args =
  inl
    (inr {| schema := argSchema args;
            rootValue := argRootValue args;
            contextValue := argContextValue args;
            exeOperation := op;
            variableValues := coerced;
            fieldResolver :=
              match argFieldResolver args with
              | Some f => f
              | None => defaultFieldResolver host
              end;
            typeResolver :=
              match argTypeResolver args with
              | Some f => f
              | None => defaultTypeResolver (argSchema args)
              end;
            subscribeFieldResolver :=
              match argSubscribeFieldResolver args with
              | Some f => f
              | None => defaultFieldResolver host
              end;
            exeErrors := 0 |}).
Proof.
  intros Hdefs Hsel Hvars. unfold buildExecutionContext. rewrite Hdefs.
  cbn [definitions].
  assert (Hfound :
    findOperation (before ++ OPERATION_DEFINITION op :: after)
      (argOperationName args) None = inr (Some op)).
  { destruct (argOperationName args) as [name |].
    - destruct Hsel as [Hname Hafter]. apply findOperation_named; assumption.
    - apply findOperation_only. exact Hsel. }
  rewrite Hfound. cbv zeta. rewrite Hvars. reflexivity.
Qed.

(** ** What [addValue] delivers *)

Lemma readErrors_pushed (errors : ErrorsRef) (e : GraphQLError) (st : St W) :
  errors < List.length (errorArrays st) ->
  readErrors errors (pushErrorSt errors e st) = readErrors errors st ++ [e].
Proof.
  unfold readErrors, pushErrorSt. simpl. generalize (errorArrays st).
  induction errors as [| r IH]; intros [| a rest] H; simpl in *;
    try lia; try reflexivity.
  apply IH. lia.
Qed.

(** X13. The payload [addValue] queues for a list element that is not a
    promise, once it runs: when the completion of the element returns a
    value, the patch carries that value as [data], the path of the element,
    the label, and the errors of the patch's own list if there are any; when
    the completion throws and the element type is nullable, the patch carries
    [data: null] and the located error is the last of the patch's errors;
    when it throws and the element type is NonNull, the payload rejects with
    the located error, recording nothing. *)
Theorem X13_addValue_delivers_the_element_or_its_error
    (completeItem : Path -> value W -> ErrorsRef -> M Result)
    (p : Path) (item : value W) (nodes : list FieldNode)
    (itemType : GraphQLOutputType) (label : option string)
    (errors : ErrorsRef) (st st1 : St W) (ps1 : list (Payload W)) :
  (forall settle, item <> VPromise settle) ->
  errors < List.length (errorArrays st1) ->
  let run :=
    match addValuePayload completeItem p item nodes itemType label errors with
    | payload run => run
    end in
  (forall c,
     completeItem p item errors st = (Normal (Ready c), st1, ps1) ->
     run st =
     (Normal
        (IterValue
           {| patchData := c;
              patchPath := pathToArray p;
              patchLabel := label;
              patchErrors :=
                match readErrors errors st1 with
                | [] => None
                | errs => Some errs
                end |}),
      st1, ps1)) /\
  (forall rawError,
     completeItem p item errors st = (Abrupt rawError, st1, ps1) ->
     let error := locatedError rawError nodes (pathToArray p) in
     run st =
     if isNonNullType itemType then (Abrupt error, st1, ps1)
     else
       (Normal
          (IterValue
             {| patchData := CNull;
                patchPath := pathToArray p;
                patchLabel := label;
                patchErrors := Some (readErrors errors st1 ++ [error]) |}),
        pushErrorSt errors error st1, ps1)).
Proof.
  intros Hnp Hlen run.
  assert (Hitem :
    match item with
    | VPromise settle => settlePromise settle
    | _ => ret item
    end = ret item).
  { destruct item; try reflexivity. exfalso. exact (Hnp _ eq_refl). }
  split.
  - intros c Hc. unfold run. simpl. rewrite Hitem.
    unfold bind at 1. unfold tryCatch. unfold thenP. rewrite bind_ret_l.
    unfold bind at 1. rewrite Hc. cbv beta iota. unfold await.
    unfold bind, getErrors, ret, createPatchResult. cbv beta iota.
    rewrite !app_nil_r. destruct (readErrors errors st1); reflexivity.
  - intros rawError Hc error. unfold run. simpl. rewrite Hitem.
    unfold bind at 1. unfold tryCatch. unfold thenP. rewrite bind_ret_l.
    unfold bind at 1. rewrite Hc. rewrite handleFieldError_spec.
    fold error. destruct (isNonNullType itemType).
    + rewrite !app_nil_r. reflexivity.
    + simpl. rewrite !app_nil_r. unfold createPatchResult.
      change {| errorArrays := pushAt errors error (errorArrays st1);
                world := world st1 |}
        with (pushErrorSt errors error st1).
      rewrite (readErrors_pushed errors error st1 Hlen).
      destruct (readErrors errors st1); reflexivity.
Qed.

(** ** Deferred fragments at the root *)

(** A loop whose every turn queues a payload queues at least as many
    payloads as it has turns. *)
Lemma forEach_pushes {A} (l : list A) (body : A -> M unit) :
  (forall a st u st1 ps,
     body a st = (Normal u, st1, ps) -> 1 <= List.length ps) ->
  forall st u st1 ps,
    forEach l body st = (Normal u, st1, ps) ->
    List.length l <= List.length ps.
Proof.
  intros Hbody. induction l as [| a rest IH]; intros st u st1 ps H.
  - simpl. lia.
  - simpl in H. apply bind_inv_normal in H.
    destruct H as (u1 & st2 & ps1 & ps2 & Ha & Hrest & ->).
    apply Hbody in Ha. apply IH in Hrest. rewrite length_app. simpl. lia.
Qed.

Lemma executeOperation_queues_root_patches
    (exeContext : ExecutionContext W) (op : OperationDefinitionNode)
    (root : value W) (rootType : string) st v st1 ps :
  getRootType (schema exeContext) (operation op) = Some rootType ->
  executeOperation host exeContext op root st = (Normal v, st1, ps) ->
  List.length (patches (collectFields op rootType)) <= List.length ps.
Proof.
  intros Hroot H. unfold executeOperation in H. rewrite Hroot in H.
  cbv zeta in H. apply bind_inv_normal in H.
  destruct H as (result & st2 & ps1 & ps2 & _ & H & ->).
  apply bind_inv_normal in H.
  destruct H as (u & st3 & ps3 & ps4 & Hloop & _ & ->).
  apply forEach_pushes in Hloop.
  - rewrite !length_app. lia.
  - intros patch st' u' st1' ps' Hb. apply bind_inv_normal in Hb.
    destruct Hb as (errors & st4 & ps5 & ps6 & _ & Hb & ->).
    apply bind_inv_normal in Hb.
    destruct Hb as (data & st5 & ps7 & ps8 & _ & Hadd & ->).
    unfold addFields, pushPayload in Hadd. inversion Hadd; subst.
    rewrite !length_app. simpl. lia.
Qed.

Lemma hasSubsequentPayloads_some (payloads : list (Payload W)) :
  1 <= List.length payloads ->
  hasSubsequentPayloads (dispatcherWith payloads) = true.
Proof.
  destruct payloads; simpl; [lia | reflexivity].
Qed.

(** X14. An operation with a deferred fragment at its root is answered
    incrementally whenever its execution does not throw: every root patch
    queues a payload, so [execute] returns the async sequence of the
    dispatcher over the initial response (or a promise that resolves to it
    when the root fields hold a promise), never a plain result. *)
Theorem X14_a_root_patch_makes_the_response_incremental
    (args : ExecutionArgs W) (w : W) (exeContext : ExecutionContext W)
    (rootType : string) :
  assertValidExecutionArguments host (argSchema args) (argDocument args)
    (argVariableValues args) = None ->
  buildExecutionContext host args = inl (inr exeContext) ->
  getRootType (schema exeContext) (operation (exeOperation exeContext))
  = Some rootType ->
  patches (collectFields (exeOperation exeContext) rootType) <> [] ->
  match
    executeOperation host exeContext (exeOperation exeContext)
      (argRootValue args) (initialStore w)
  with
  | (Normal (Ready data), st1, ps1) =>
      List.length (patches (collectFields (exeOperation exeContext) rootType))
      <= List.length ps1 /\
      execute host args w =
      (inl (ReturnsAsyncIterable
              (get (dispatcherWith ps1)
                 (buildResponse data
                    (readErrors (exeErrors exeContext) st1)))),
       st1)
  | (Normal (Pending promise), st1, ps1) =>
      List.length (patches (collectFields (exeOperation exeContext) rootType))
      <= List.length ps1 /\
      exists resolved,
        execute host args w = (inl (ReturnsPromise resolved), st1) /\
        forall st data st2 ps2,
          promise st = (Normal data, st2, ps2) ->
          resolved st =
          (Normal
             (inr (get (dispatcherWith (ps1 ++ ps2))
                     (buildResponse data
                        (readErrors (exeErrors exeContext) st2)))),
           st2)
  | _ => True
  end.
Proof.
  intros Hargs Hctx Hroot Hpatches.
  assert (Hsome :
    1 <= List.length
           (patches (collectFields (exeOperation exeContext) rootType))).
  { destruct (patches (collectFields (exeOperation exeContext) rootType));
      [contradiction | simpl; lia]. }
  unfold execute. rewrite Hargs, Hctx. cbv zeta.
  destruct (executeOperation host exeContext (exeOperation exeContext)
              (argRootValue args) (initialStore w))
    as [[[[data | promise] | err |] st1] ps1] eqn:E; try exact I.
  - pose proof (executeOperation_queues_root_patches _ _ _ _ _ _ _ _ Hroot E)
      as Hlen.
    split; [exact Hlen |].
    rewrite hasSubsequentPayloads_some by lia. reflexivity.
  - pose proof (executeOperation_queues_root_patches _ _ _ _ _ _ _ _ Hroot E)
      as Hlen.
    split; [exact Hlen |]. eexists. split; [reflexivity |].
    intros st data st2 ps2 Hp. cbv beta. rewrite Hp.
    rewrite hasSubsequentPayloads_some; [reflexivity |].
    rewrite length_app. lia.
Qed.

(** ** A schema without the root type of the operation *)

Lemma buildExecutionContext_inr (args : ExecutionArgs W)
    (exeContext : ExecutionContext W) :
  buildExecutionContext host args = inl (inr exeContext) ->
  schema exeContext = argSchema args /\
  rootValue exeContext = argRootValue args /\
  contextValue exeContext = argContextValue args /\
  exeErrors exeContext = 0.
Proof.
  unfold buildExecutionContext.
  destruct (argDocument args) as [document |]; [| discriminate].
  destruct (findOperation (definitions document)
              (argOperationName args) None) as [errs | [op |]] eqn:Ef;
    [discriminate | | destruct (argOperationName args); discriminate].
  cbv zeta.
  destruct (getVariableValues host (argSchema args) _ _ 50) as [errs | vars];
    [discriminate |].
  intros H. inversion H; subst; simpl. repeat split.
Qed.

(** X15. When the schema has no root type for the kind of the selected
    operation (a mutation sent to a schema without mutation type, say),
    [executeOperation] throws before any field is looked at, and [execute]
    answers with [data: null] and the one error 'Schema is not configured to
    execute <kind> operation.' *)
Theorem X15_an_operation_without_root_type_gives_null_data
    (args : ExecutionArgs W) (w : W) (exeContext : ExecutionContext W) :
  assertValidExecutionArguments host (argSchema args) (argDocument args)
    (argVariableValues args) = None ->
  buildExecutionContext host args = inl (inr exeContext) ->
  getRootType (argSchema args) (operation (exeOperation exeContext)) = None ->
  exists error,
    message error =
    ("Schema is not configured to execute "
     ++ match operation (exeOperation exeContext) with
        | QUERY => "query"
        | MUTATION => "mutation"
        | SUBSCRIPTION => "subscription"
        end ++ " operation.")%string /\
    path error = None /\
    execute host args w =
    (inl (ReturnsResult
            {| resultErrors := Some [error];
               resultData := Some CNull;
               resultHasNext := None |}),
     {| errorArrays := [[error]]; world := w |}).
Proof.
  intros Hargs Hctx Hroot.
  destruct (buildExecutionContext_inr _ _ Hctx) as (Hs & _ & _ & He).
  eexists. split; [| split]; [| | unfold execute; rewrite Hargs, Hctx].
  3:{ cbv zeta. unfold executeOperation. rewrite Hs, Hroot, He.
      reflexivity. }
  - simpl. destruct (operation (exeOperation exeContext)); reflexivity.
  - reflexivity.
Qed.

(** Induction on a grouped field, with the property for the fields of its
    sub-selections and of their deferred fragments. *)
Lemma GroupedField_nested_ind (P : GroupedField -> Prop) :
  (forall name first others collected,
     (forall returnType,
        Forall P (fields (collected returnType)) /\
        Forall (fun patch => Forall P (patchFields patch))
          (patches (collected returnType))) ->
     P (groupedField name first others collected)) ->
  forall g, P g.
Proof.
  intros step. fix IH 1. intros [name first others collected].
  apply step. intros returnType.
  destruct (collected returnType) as [subFields subPatches]. simpl. split.
  - induction subFields as [| g' rest IHl]; constructor;
      [apply IH | exact IHl].
  - induction subPatches as [| [label patchFields] rest IHp]; constructor;
      [| exact IHp].
    simpl. induction patchFields as [| g' more IHl]; constructor;
      [apply IH | exact IHl].
Qed.


(** ** What execution may do to the error lists *)

Lemma extends_refl (st : St W) : extends st st.
Proof.
  split; [lia |]. intros errors. exists []. rewrite app_nil_r. reflexivity.
Qed.

Lemma extends_trans (st st1 st2 : St W) :
  extends st st1 -> extends st1 st2 -> extends st st2.
Proof.
  intros [Hl1 H1] [Hl2 H2]. split; [lia |]. intros errors.
  destruct (H1 errors) as [m1 E1]. destruct (H2 errors) as [m2 E2].
  exists (m1 ++ m2). rewrite E2, E1, app_assoc. reflexivity.
Qed.

Lemma extends_withWorld (st : St W) (w : W) : extends st (withWorld st w).
Proof.
  split; [simpl; lia |]. intros errors. exists []. rewrite app_nil_r.
  reflexivity.
Qed.

Lemma pushAt_length (errors : nat) (e : GraphQLError)
    (arrays : list (list GraphQLError)) :
  List.length (pushAt errors e arrays) = List.length arrays.
Proof.
  revert errors. induction arrays as [| a rest IH]; intros [| r]; simpl;
    try reflexivity.
  rewrite IH. reflexivity.
Qed.

Lemma pushAt_nth (errors other : nat) (e : GraphQLError)
    (arrays : list (list GraphQLError)) :
  exists more,
    nth other (pushAt errors e arrays) [] = nth other arrays [] ++ more.
Proof.
  revert errors other. induction arrays as [| a rest IH];
    intros [| r] [| o]; simpl;
    try (exists []; rewrite ?app_nil_r; reflexivity).
  - exists [e]. reflexivity.
  - apply IH.
Qed.

Lemma pushAt_nth_other (errors other : nat) (e : GraphQLError)
    (arrays : list (list GraphQLError)) :
  other <> errors ->
  nth other (pushAt errors e arrays) [] = nth other arrays [].
Proof.
  revert errors other. induction arrays as [| a rest IH];
    intros [| r] [| o] H; simpl; try reflexivity.
  - contradiction.
  - apply IH. intros ->. apply H. reflexivity.
Qed.

Lemma extends_pushErrorSt (errors : ErrorsRef) (e : GraphQLError)
    (st : St W) :
  extends st (pushErrorSt errors e st).
Proof.
  split.
  - simpl. rewrite pushAt_length. lia.
  - intros other. apply pushAt_nth.
Qed.

Lemma readErrors_newErrorArray (errors : ErrorsRef) (st : St W) :
  readErrors errors
    {| errorArrays := errorArrays st ++ [[]]; world := world st |}
  = readErrors errors st.
Proof.
  unfold readErrors. simpl.
  destruct (Nat.lt_ge_cases errors (List.length (errorArrays st)))
    as [Hlt | Hge].
  - apply app_nth1. exact Hlt.
  - rewrite app_nth2 by exact Hge. rewrite (nth_overflow _ _ Hge).
    destruct (errors - List.length (errorArrays st)) as [| [| k]];
      reflexivity.
Qed.

Lemma readErrors_fresh (st : St W) :
  readErrors (List.length (errorArrays st))
    {| errorArrays := errorArrays st ++ [[]]; world := world st |} = [].
Proof.
  unfold readErrors. simpl. rewrite app_nth2 by lia.
  rewrite Nat.sub_diag. reflexivity.
Qed.

Lemma extends_newErrorArray (st : St W) :
  extends st
    {| errorArrays := errorArrays st ++ [[]]; world := world st |}.
Proof.
  split.
  - simpl. rewrite length_app. lia.
  - intros errors. exists []. rewrite app_nil_r.
    apply readErrors_newErrorArray.
Qed.

Lemma touchesOnly_refl (errors : ErrorsRef) (st : St W) :
  touchesOnly errors st st.
Proof. split; [lia | reflexivity]. Qed.

Lemma touchesOnly_trans (errors : ErrorsRef) (st st1 st2 : St W) :
  touchesOnly errors st st1 -> touchesOnly errors st1 st2 ->
  touchesOnly errors st st2.
Proof.
  intros [Hl1 H1] [Hl2 H2]. split; [lia |]. intros other Hlt Hne.
  rewrite H2 by (try lia; exact Hne). apply H1; assumption.
Qed.

Lemma touchesOnly_withWorld (errors : ErrorsRef) (st : St W) (w : W) :
  touchesOnly errors st (withWorld st w).
Proof. split; [simpl; lia | reflexivity]. Qed.

Lemma touchesOnly_pushErrorSt (errors : ErrorsRef) (e : GraphQLError)
    (st : St W) :
  touchesOnly errors st (pushErrorSt errors e st).
Proof.
  split.
  - simpl. rewrite pushAt_length. lia.
  - intros other _ Hne. apply pushAt_nth_other. exact Hne.
Qed.

Lemma touchesOnly_newErrorArray (errors : ErrorsRef) (st : St W) :
  touchesOnly errors st
    {| errorArrays := errorArrays st ++ [[]]; world := world st |}.
Proof.
  split.
  - simpl. rewrite length_app. lia.
  - intros other _ _. apply readErrors_newErrorArray.
Qed.

(** What is done to a list created after [st] is not seen from [st]. *)
Lemma touchesOnly_fresh (errors : ErrorsRef) (st st1 : St W) :
  touchesOnly (List.length (errorArrays st))
    {| errorArrays := errorArrays st ++ [[]]; world := world st |} st1 ->
  touchesOnly errors st st1.
Proof.
  intros [Hl H]. simpl in Hl. rewrite length_app in Hl. simpl in Hl.
  split; [lia |]. intros other Hlt _.
  rewrite H.
  - apply readErrors_newErrorArray.
  - simpl. rewrite length_app. simpl. lia.
  - lia.
Qed.

Section Keeps.

Variable R : ErrorsRef -> St W -> St W -> Prop.

Hypothesis R_refl : forall errors st, R errors st st.
Hypothesis R_trans :
  forall errors st st1 st2,
    R errors st st1 -> R errors st1 st2 -> R errors st st2.
Hypothesis R_withWorld : forall errors st w, R errors st (withWorld st w).
Hypothesis R_pushErrorSt :
  forall errors e st, R errors st (pushErrorSt errors e st).
Hypothesis R_newErrorArray :
  forall errors st,
    R errors st
      {| errorArrays := errorArrays st ++ [[]]; world := world st |}.
Hypothesis R_fresh :
  forall errors st st1,
    R (List.length (errorArrays st))
      {| errorArrays := errorArrays st ++ [[]]; world := world st |} st1 ->
    R errors st st1.

Local Notation keeps := (keeps R).
Local Notation settles := (settles R).
Local Notation keepsField := (keepsField R).

Lemma keeps_ret {A} (errors : ErrorsRef) (Q : A -> Prop) (a : A) :
  Q a -> keeps errors Q (@ret W A a).
Proof.
  intros Ha st r st1 ps H. inversion H; subst.
  split; [apply R_refl |]. intros a' E. inversion E; subst. exact Ha.
Qed.

Lemma keeps_throw {A} (errors : ErrorsRef) (Q : A -> Prop)
    (e : GraphQLError) :
  keeps errors Q (@throw W A e).
Proof.
  intros st r st1 ps H. inversion H; subst.
  split; [apply R_refl | discriminate].
Qed.

Lemma keeps_never {A} (errors : ErrorsRef) (Q : A -> Prop) :
  keeps errors Q (@never W A).
Proof.
  intros st r st1 ps H. inversion H; subst.
  split; [apply R_refl | discriminate].
Qed.

Lemma keeps_bind {A B} (errors : ErrorsRef) (Q1 : A -> Prop)
    (Q2 : B -> Prop) (m : M A) (f : A -> M B) :
  keeps errors Q1 m -> (forall a, Q1 a -> keeps errors Q2 (f a)) ->
  keeps errors Q2 (bind m f).
Proof.
  intros Hm Hf st r st2 ps H. unfold bind in H.
  destruct (m st) as [[[a | e |] st1] ps1] eqn:Em;
    destruct (Hm _ _ _ _ Em) as [He Hq].
  - destruct (f a st1) as [[r2 st3] ps3] eqn:Ef. inversion H; subst.
    destruct (Hf a (Hq a eq_refl) _ _ _ _ Ef) as [He2 Hq2].
    split; [exact (R_trans _ _ _ _ He He2) | exact Hq2].
  - inversion H; subst. split; [exact He | discriminate].
  - inversion H; subst. split; [exact He | discriminate].
Qed.

Lemma keeps_tryCatch {A} (errors : ErrorsRef) (Q : A -> Prop) (m : M A)
    (handler : GraphQLError -> M A) :
  keeps errors Q m -> (forall e, keeps errors Q (handler e)) ->
  keeps errors Q (tryCatch m handler).
Proof.
  intros Hm Hh st r st2 ps H. unfold tryCatch in H.
  destruct (m st) as [[[a | e |] st1] ps1] eqn:Em;
    destruct (Hm _ _ _ _ Em) as [He Hq].
  - inversion H; subst. split; [exact He | exact Hq].
  - destruct (handler e st1) as [[r2 st3] ps3] eqn:Ef. inversion H; subst.
    destruct (Hh e _ _ _ _ Ef) as [He2 Hq2].
    split; [exact (R_trans _ _ _ _ He He2) | exact Hq2].
  - inversion H; subst. split; [exact He | discriminate].
Qed.

Lemma keeps_pushError (errors : ErrorsRef) (e : GraphQLError) :
  keeps errors (fun _ => True) (@pushError W errors e).
Proof.
  intros st r st1 ps H. inversion H; subst.
  split; [apply (R_pushErrorSt errors e st) | auto].
Qed.

Lemma keeps_newErrorArray (errors : ErrorsRef) :
  keeps errors (fun _ => True) (@newErrorArray W).
Proof.
  intros st r st1 ps H. inversion H; subst.
  split; [apply R_newErrorArray | auto].
Qed.

(** A computation that works on a list it has just created. *)
Lemma keeps_fresh {B} (errors : ErrorsRef) (Q : B -> Prop)
    (f : ErrorsRef -> M B) :
  (forall created, keeps created Q (f created)) ->
  keeps errors Q (bind newErrorArray f).
Proof.
  intros Hf st r st2 ps H. unfold bind, newErrorArray in H.
  destruct (f (List.length (errorArrays st))
              {| errorArrays := errorArrays st ++ [[]]; world := world st |})
    as [[r2 st3] ps3] eqn:Ef.
  inversion H; subst.
  destruct (Hf _ _ _ _ _ Ef) as [He Hq].
  split; [apply R_fresh; exact He | exact Hq].
Qed.

Lemma keeps_getErrors (errors other : ErrorsRef) :
  keeps errors (fun _ => True) (@getErrors W other).
Proof.
  intros st r st1 ps H. inversion H; subst.
  split; [apply R_refl | auto].
Qed.

Lemma keeps_pushPayload (errors : ErrorsRef) (payload : Payload W) :
  keeps errors (fun _ => True) (pushPayload payload).
Proof.
  intros st r st1 ps H. inversion H; subst.
  split; [apply R_refl | auto].
Qed.

Lemma keeps_settlePromise (errors : ErrorsRef)
    (settle : W -> (value W + GraphQLError) * W) :
  keeps errors (fun _ => True) (settlePromise settle).
Proof.
  intros st r st1 ps H. unfold settlePromise in H.
  destruct (settle (world st)) as [[v | e] w1]; inversion H; subst;
    (split; [apply R_withWorld | auto]).
Qed.

Lemma keeps_liftResult {A} (errors : ErrorsRef) (r : A + GraphQLError) :
  keeps errors (fun _ => True) (@liftResult W A r).
Proof.
  destruct r; [apply keeps_ret; exact I | apply keeps_throw].
Qed.

Lemma keeps_await {A} (errors : ErrorsRef) (v : @PromiseOrValue W A) :
  settles errors v -> keeps errors (fun _ => True) (await v).
Proof.
  destruct v as [a | promise]; simpl; intros Hv; [| exact Hv].
  apply keeps_ret. exact I.
Qed.

Lemma keeps_thenP {A B} (errors : ErrorsRef) (promise : M A)
    (callback : A -> M (@PromiseOrValue W B)) :
  keeps errors (fun _ => True) promise ->
  (forall a, keeps errors (settles errors) (callback a)) ->
  keeps errors (fun _ => True) (thenP promise callback).
Proof.
  intros Hp Hc. unfold thenP.
  apply (keeps_bind errors (fun _ => True)); [exact Hp |]. intros a _.
  apply (keeps_bind errors (settles errors)); [apply Hc |]. intros v Hv.
  apply keeps_await. exact Hv.
Qed.

Lemma keeps_promiseAll {A} (errors : ErrorsRef)
    (vs : list (@PromiseOrValue W A)) :
  Forall (settles errors) vs -> keeps errors (fun _ => True) (promiseAll vs).
Proof.
  induction 1 as [| v rest Hv _ IH].
  - apply keeps_ret. exact I.
  - intros st r st2 ps H. simpl in H.
    destruct (await v st) as [[c st1] ps1] eqn:Ea.
    destruct (keeps_await errors v Hv _ _ _ _ Ea) as [He _].
    destruct (promiseAll rest st1) as [[c2 st3] ps3] eqn:Er.
    destruct (IH _ _ _ _ Er) as [He2 _].
    assert (Hst : st2 = st3).
    { destruct c as [a | e |]; destruct c2 as [l | e2 |];
        inversion H; reflexivity. }
    subst st3. split; [exact (R_trans _ _ _ _ He He2) | auto].
Qed.

Lemma keeps_handleFieldError (error : GraphQLError)
    (returnType : GraphQLOutputType) (errors : ErrorsRef) :
  keeps errors (fun _ => True) (@handleFieldError W error returnType errors).
Proof.
  unfold handleFieldError. destruct (isNonNullType returnType).
  - apply keeps_throw.
  - apply (keeps_bind errors (fun _ => True)); [apply keeps_pushError |].
    intros _ _. apply keeps_ret. exact I.
Qed.

Lemma keeps_forEach {A} (errors : ErrorsRef) (l : list A)
    (body : A -> M unit) :
  (forall a, keeps errors (fun _ => True) (body a)) ->
  keeps errors (fun _ => True) (forEach l body).
Proof.
  intros Hbody. induction l as [| a rest IH]; simpl.
  - apply keeps_ret. exact I.
  - apply (keeps_bind errors (fun _ => True)); [apply Hbody |].
    intros _ _. exact IH.
Qed.

Lemma keeps_completeLeafValue (errors : ErrorsRef)
    (exeContext : ExecutionContext W) (returnType : string)
    (result : value W) :
  keeps errors (settles errors)
    (completeLeafValue host exeContext returnType result).
Proof.
  unfold completeLeafValue.
  apply (keeps_bind errors (fun _ => True)); [apply keeps_liftResult |].
  intros s _. destruct (isNullish s); [apply keeps_throw |].
  destruct s; try (apply keeps_ret; exact I).
  apply keeps_ret. simpl.
  apply (keeps_bind errors (fun _ => True)); [apply keeps_settlePromise |].
  intros resolved _. apply keeps_ret. exact I.
Qed.

Lemma keeps_addFields (errors : ErrorsRef) (promiseOrData : Result)
    (patchErrors : ErrorsRef) (label : option string) (p : option Path) :
  keeps errors (fun _ => True) (addFields promiseOrData patchErrors label p).
Proof. apply keeps_pushPayload. Qed.

Lemma keeps_addValue (errors : ErrorsRef)
    (completeItem : Path -> value W -> ErrorsRef -> M Result)
    (p : Path) (item : value W) (nodes : list FieldNode)
    (itemType : GraphQLOutputType) (label : option string) :
  keeps errors (fun _ => True)
    (addValue completeItem p item nodes itemType label).
Proof.
  unfold addValue.
  apply (keeps_bind errors (fun _ => True)); [apply keeps_newErrorArray |].
  intros created _. apply keeps_pushPayload.
Qed.

Lemma keeps_addAsyncIteratorValue (errors : ErrorsRef)
    (completeItem : Path -> value W -> ErrorsRef -> M Result)
    (index : nat) (iterator : list (value W + GraphQLError))
    (nodes : list FieldNode) (itemType : GraphQLOutputType)
    (p : option Path) (label : option string) :
  keeps errors (fun _ => True)
    (addAsyncIteratorValue completeItem index iterator nodes itemType p
       label).
Proof.
  destruct iterator as [| [data | rawError] rest]; simpl;
    (apply (keeps_bind errors (fun _ => True));
     [apply keeps_newErrorArray |];
     intros created _; apply keeps_pushPayload).
Qed.

Section KeepsList.

Variable completeItem : Path -> value W -> ErrorsRef -> M Result.
Variable stream : option StreamValues.
Variable nodes : list FieldNode.
Variable itemType : GraphQLOutputType.
Variable p : Path.
Variable errors : ErrorsRef.

Hypothesis completeItem_keeps :
  forall itemPath item,
    keeps errors (settles errors) (completeItem itemPath item errors).

Lemma keeps_completeListItems (items : list (value W)) :
  forall index cp acc,
    Forall (settles errors) acc ->
    keeps errors (fun r => Forall (settles errors) (snd r))
      (completeListItems completeItem stream nodes itemType p errors items
         index cp acc).
Proof.
  induction items as [| item rest IH]; intros index cp acc Hacc; simpl.
  - apply keeps_ret. exact Hacc.
  - destruct (streamedFrom stream index).
    + apply (keeps_bind errors (fun _ => True)); [apply keeps_addValue |].
      intros _ _. apply IH. exact Hacc.
    + apply (keeps_bind errors (fun r => Forall (settles errors) (snd r)));
        [| intros r Hr; apply IH; exact Hr].
      apply keeps_tryCatch.
      * apply (keeps_bind errors (settles errors)).
        -- destruct item; try apply completeItem_keeps.
           apply keeps_ret. simpl.
           apply keeps_thenP; [apply keeps_settlePromise |].
           intros a. apply completeItem_keeps.
        -- intros [c | promise] Hv; apply keeps_ret; simpl;
             apply Forall_app; (split; [exact Hacc |]);
             (apply Forall_cons; [| apply Forall_nil]).
           ++ exact I.
           ++ simpl. apply keeps_tryCatch; [exact Hv |]. intros e.
              apply keeps_handleFieldError.
      * intros e. apply (keeps_bind errors (fun _ => True));
          [apply keeps_handleFieldError |].
        intros c _. apply keeps_ret. simpl. apply Forall_app.
        split; [exact Hacc |]. constructor; [exact I | constructor].
Qed.

Local Notation goodState :=
  (fun s : @AsyncListState W =>
     Forall (fun item : Result => settles errors item)
       (completedResults s) /\
     match resolvedWith s with
     | Some (results, _) =>
         Forall (fun item : Result => settles errors item) results
     | None => True
     end).

Lemma resolveNow_good (s : AsyncListState) :
  goodState s -> goodState (resolveNow s).
Proof.
  intros [Hc Hr]. unfold resolveNow.
  destruct (resolvedWith s) as [[results b] |] eqn:E; simpl.
  - rewrite E. split; assumption.
  - split; assumption.
Qed.

Lemma pushResult_good (s : AsyncListState) (item : Result) :
  goodState s -> settles errors item -> goodState (pushResult s item).
Proof.
  intros [Hc Hr] Hi. split; [| exact Hr]. simpl. apply Forall_app.
  split; [exact Hc |]. constructor; [exact Hi | constructor].
Qed.

Lemma keeps_handled (e : GraphQLError) :
  keeps errors (fun _ => True)
    (tryCatch
       (bind (handleFieldError e itemType errors) (fun _ => ret true))
       (fun _ => @ret W bool false)).
Proof.
  apply keeps_tryCatch.
  - apply (keeps_bind errors (fun _ => True));
      [apply keeps_handleFieldError |].
    intros _ _. apply keeps_ret. exact I.
  - intros _. apply keeps_ret. exact I.
Qed.

Lemma keeps_asyncIteratorNext (iterator : list (value W + GraphQLError)) :
  forall index s,
    goodState s ->
    keeps errors goodState
      (asyncIteratorNext completeItem stream nodes itemType p errors
         iterator index s).
Proof.
  induction iterator as [| [v | rawError] rest IH]; intros index s Hs;
    cbn [asyncIteratorNext]; destruct (streamedFrom stream index);
    cbv zeta;
    try (apply (keeps_bind errors (fun _ => True));
         [apply keeps_addAsyncIteratorValue |];
         intros _ _; apply keeps_ret; apply resolveNow_good; exact Hs).
  - apply keeps_ret. apply resolveNow_good. exact Hs.
  - apply (keeps_bind errors
             (fun r => match r with
                       | inl item => settles errors item
                       | inr _ => True
                       end)).
    + apply keeps_tryCatch.
      * apply (keeps_bind errors (settles errors));
          [apply completeItem_keeps |].
        intros item Hi. apply keeps_ret. exact Hi.
      * intros e. apply keeps_ret. exact I.
    + intros [item | e] Hr.
      * apply IH. apply pushResult_good; [exact Hs | exact Hr].
      * apply (keeps_bind errors (fun _ => True)); [apply keeps_handled |].
        intros [|] _.
        -- apply IH. apply resolveNow_good.
           apply pushResult_good; [exact Hs | exact I].
        -- apply keeps_ret. apply pushResult_good; [exact Hs | exact I].
  - apply (keeps_bind errors (fun _ => True)); [apply keeps_handled |].
    intros [|] _; apply keeps_ret; try apply resolveNow_good;
      apply pushResult_good; try exact Hs; exact I.
Qed.

Lemma keeps_completeAsyncIteratorValue
    (iterator : list (value W + GraphQLError)) :
  keeps errors (settles errors)
    (completeAsyncIteratorValue completeItem stream nodes itemType p errors
       iterator).
Proof.
  unfold completeAsyncIteratorValue. apply keeps_ret. simpl.
  apply (keeps_bind errors goodState).
  - apply keeps_asyncIteratorNext. split; [constructor | exact I].
  - intros s [Hc Hr].
    destruct (resolvedWith s) as [[results [|]] |].
    + apply (keeps_bind errors (fun _ => True));
        [apply keeps_promiseAll; exact Hr |].
      intros l _. apply keeps_ret. exact I.
    + apply keeps_ret. exact I.
    + apply keeps_never.
Qed.

End KeepsList.

Lemma keeps_completeListValue
    (completeItem : Path -> value W -> ErrorsRef -> M Result)
    (exeContext : ExecutionContext W) (itemType : GraphQLOutputType)
    (g : GroupedField) (info : GraphQLResolveInfo) (p : Path)
    (result : value W) (errors : ErrorsRef) :
  (forall itemPath item,
     keeps errors (settles errors) (completeItem itemPath item errors)) ->
  keeps errors (settles errors)
    (completeListValue host completeItem exeContext itemType g info p result
       errors).
Proof.
  intros Hitem. unfold completeListValue.
  destruct result; try apply keeps_throw.
  - apply (keeps_bind errors (fun r => Forall (settles errors) (snd r))).
    + apply keeps_completeListItems; [exact Hitem | constructor].
    + intros r Hr. destruct (fst r); apply keeps_ret; simpl; [| exact I].
      apply (keeps_bind errors (fun _ => True));
        [apply keeps_promiseAll; exact Hr |].
      intros l _. apply keeps_ret. exact I.
  - apply keeps_completeAsyncIteratorValue. exact Hitem.
Qed.

Lemma setProperty_Forall {A} (P : A -> Prop) (object : list (string * A))
    (key : string) (v : A) :
  Forall (fun kv => P (snd kv)) object -> P v ->
  Forall (fun kv => P (snd kv)) (setProperty object key v).
Proof.
  intros Ho Hv. induction Ho as [| [k old] rest Hk H IH]; simpl.
  - constructor; [exact Hv | constructor].
  - destruct (String.eqb k key).
    + constructor; [exact Hv | exact H].
    + constructor; [exact Hk | exact IH].
Qed.

Lemma keeps_executeFieldsLoop (exeContext : ExecutionContext W)
    (parentType : string) (source : value W) (p : option Path)
    (errors : ErrorsRef) (fields : list (string * @FieldExecutor W)) :
  Forall (fun entry => keepsField (snd entry)) fields ->
  forall results cp,
    Forall (fun kv => settles errors (snd kv)) results ->
    keeps errors
      (fun r => Forall (fun kv => settles errors (snd kv)) (fst r))
      (executeFieldsLoop exeContext parentType source p errors fields
         results cp).
Proof.
  induction 1 as [| [name executor] rest Hex _ IH]; intros results cp Hres;
    simpl.
  - apply keeps_ret. exact Hres.
  - apply (keeps_bind errors
             (fun r => match r with
                       | Some v => settles errors v
                       | None => True
                       end)); [apply Hex |].
    intros [v |] Hv; apply IH; [| exact Hres].
    apply setProperty_Forall; assumption.
Qed.

Lemma keeps_promiseForObject (errors : ErrorsRef)
    (object : list (string * Result)) :
  Forall (fun kv => settles errors (snd kv)) object ->
  keeps errors (fun _ => True) (promiseForObject object).
Proof.
  intros Ho. unfold promiseForObject.
  apply (keeps_bind errors (fun _ => True)).
  - apply keeps_promiseAll. apply Forall_map. exact Ho.
  - intros l _. apply keeps_ret. exact I.
Qed.

Lemma keeps_executeFieldsFrom (exeContext : ExecutionContext W)
    (parentType : string) (source : value W) (p : option Path)
    (fields : list (string * @FieldExecutor W)) (errors : ErrorsRef) :
  Forall (fun entry => keepsField (snd entry)) fields ->
  keeps errors (settles errors)
    (executeFieldsFrom exeContext parentType source p fields errors).
Proof.
  intros Hf. unfold executeFieldsFrom.
  apply (keeps_bind errors
           (fun r => Forall (fun kv => settles errors (snd kv)) (fst r))).
  - apply keeps_executeFieldsLoop; [exact Hf | constructor].
  - intros r Hr. destruct (negb (snd r)); apply keeps_ret; simpl;
      [exact I |].
    apply keeps_promiseForObject. exact Hr.
Qed.

Section KeepsValue.

Variable subfields : string -> FieldsAndPatches (string * @FieldExecutor W).
Variable g : GroupedField.

Hypothesis subfields_keep :
  forall returnType,
    Forall (fun entry => keepsField (snd entry))
      (fields (subfields returnType)) /\
    Forall (fun patch =>
              Forall (fun entry => keepsField (snd entry))
                (patchFields patch))
      (patches (subfields returnType)).

Lemma keeps_collectAndExecuteSubfields (exeContext : ExecutionContext W)
    (returnType : string) (p : Path) (result : value W)
    (errors : ErrorsRef) :
  keeps errors (settles errors)
    (collectAndExecuteSubfields subfields exeContext returnType g p result
       errors).
Proof.
  unfold collectAndExecuteSubfields. cbv zeta.
  destruct (subfields_keep returnType) as [Hfields Hpatches].
  apply (keeps_bind errors (settles errors));
    [apply keeps_executeFieldsFrom; exact Hfields |].
  intros subFields Hs.
  apply (keeps_bind errors (fun _ => True));
    [| intros _ _; apply keeps_ret; exact Hs].
  induction Hpatches as [| patch rest Hp _ IH]; simpl.
  - apply keeps_ret. exact I.
  - apply (keeps_bind errors (fun _ => True)); [| intros _ _; exact IH].
    apply keeps_fresh. intros subPatchErrors.
    apply (keeps_bind subPatchErrors (settles subPatchErrors));
      [apply keeps_executeFieldsFrom; exact Hp |].
    intros data _. apply keeps_addFields.
Qed.

Lemma keeps_completeObjectValue (exeContext : ExecutionContext W)
    (returnType : string) (info : GraphQLResolveInfo) (p : Path)
    (result : value W) (errors : ErrorsRef) :
  keeps errors (settles errors)
    (completeObjectValue host subfields exeContext returnType g info p result
       errors).
Proof.
  unfold completeObjectValue.
  destruct (isTypeOf (schema exeContext) returnType) as [isTypeOfFn |];
    [| apply keeps_collectAndExecuteSubfields].
  apply (keeps_bind errors (fun _ => True)); [apply keeps_settlePromise |].
  intros r _.
  assert (Hsync :
    forall r' : value W,
      keeps errors (settles errors)
        (if negb (truthy r')
         then throw (invalidReturnTypeError host returnType result
                       (fieldNodes g))
         else collectAndExecuteSubfields subfields exeContext returnType g p
                result errors)).
  { intros r'. destruct (negb (truthy r')); [apply keeps_throw |].
    apply keeps_collectAndExecuteSubfields. }
  destruct r; try apply Hsync.
  apply keeps_ret. simpl.
  apply keeps_thenP; [apply keeps_settlePromise | exact Hsync].
Qed.

Lemma keeps_completeAbstractValue (exeContext : ExecutionContext W)
    (returnType : string) (info : GraphQLResolveInfo) (p : Path)
    (result : value W) (errors : ErrorsRef) :
  keeps errors (settles errors)
    (completeAbstractValue host subfields exeContext returnType g info p
       result errors).
Proof.
  unfold completeAbstractValue. cbv zeta.
  apply (keeps_bind errors (fun _ => True)); [apply keeps_settlePromise |].
  intros r _.
  assert (Hsync :
    forall r' : value W,
      keeps errors (settles errors)
        (bind
           (liftResult
              (ensureValidRuntimeType host r' exeContext returnType
                 (fieldNodes g) info result))
           (fun runtimeObjectType =>
              completeObjectValue host subfields exeContext
                runtimeObjectType g info p result errors))).
  { intros r'. apply (keeps_bind errors (fun _ => True));
      [apply keeps_liftResult |].
    intros name _. apply keeps_completeObjectValue. }
  destruct r; try apply Hsync.
  apply keeps_ret. simpl.
  apply keeps_thenP; [apply keeps_settlePromise | exact Hsync].
Qed.

Lemma keeps_completeValue (exeContext : ExecutionContext W)
    (info : GraphQLResolveInfo) (errors : ErrorsRef)
    (returnType : GraphQLOutputType) :
  forall p result,
    keeps errors (settles errors)
      (completeValue host subfields exeContext returnType g info p result
         errors).
Proof.
  induction returnType as [ofType IH | ofType IH | name | name | name];
    intros p result;
    (destruct (error_or_not result) as [[e ->] | Hne];
     [rewrite completeValue_error; apply keeps_throw |]).
  - rewrite completeValue_nonnull by exact Hne.
    apply (keeps_bind errors (settles errors)); [apply IH |].
    intros [c | promise] Hv; [| apply keeps_ret; exact Hv].
    destruct c; try (apply keeps_ret; exact I). apply keeps_throw.
  - rewrite completeValue_list by exact Hne.
    destruct (isNullish result); [apply keeps_ret; exact I |].
    apply keeps_completeListValue. intros itemPath item. apply IH.
  - rewrite completeValue_leaf by exact Hne.
    destruct (isNullish result); [apply keeps_ret; exact I |].
    apply keeps_completeLeafValue.
  - rewrite completeValue_abstract by exact Hne.
    destruct (isNullish result); [apply keeps_ret; exact I |].
    apply keeps_completeAbstractValue.
  - rewrite completeValue_object by exact Hne.
    destruct (isNullish result); [apply keeps_ret; exact I |].
    apply keeps_completeObjectValue.
Qed.

Lemma keeps_executeFieldWith : keepsField (executeFieldWith host subfields g).
Proof.
  intros ctx parentType source p errors. unfold executeFieldWith.
  destruct (getFieldDef host (schema ctx) parentType (firstNode g))
    as [fieldDef |]; [| apply keeps_ret; exact I].
  cbv zeta.
  apply (keeps_bind errors (settles errors));
    [| intros v Hv; apply keeps_ret; exact Hv].
  apply keeps_tryCatch.
  - apply (keeps_bind errors (fun _ => True)); [apply keeps_liftResult |].
    intros args _.
    apply (keeps_bind errors (fun _ => True)); [apply keeps_settlePromise |].
    intros result _.
    apply (keeps_bind errors (settles errors)).
    + destruct result; try apply keeps_completeValue.
      apply keeps_ret. simpl.
      apply keeps_thenP; [apply keeps_settlePromise |].
      intros resolved. apply keeps_completeValue.
    + intros [c | promise] Hv; apply keeps_ret; [exact I |]. simpl.
      apply keeps_tryCatch; [exact Hv |].
      intros e. apply keeps_handleFieldError.
  - intros e. apply (keeps_bind errors (fun _ => True));
      [apply keeps_handleFieldError |].
    intros c _. apply keeps_ret. exact I.
Qed.

End KeepsValue.

Lemma withExecutors_Forall (P : @FieldExecutor W -> Prop)
    (fields : list GroupedField) :
  Forall (fun g => P (executeField host g)) fields ->
  Forall (fun entry => P (snd entry))
    (withExecutors (executeField host) fields).
Proof.
  intros H. unfold withExecutors. apply Forall_map. exact H.
Qed.

Lemma keeps_executeField (g : GroupedField) :
  keepsField (executeField host g).
Proof.
  induction g as [name first others collected IH]
    using GroupedField_nested_ind.
  rewrite executeField_unfold. apply keeps_executeFieldWith.
  intros returnType. simpl. destruct (IH returnType) as [Hf Hp]. split.
  - apply withExecutors_Forall. exact Hf.
  - apply Forall_map. simpl.
    refine (Forall_impl _ _ Hp). intros patch Hpatch.
    apply withExecutors_Forall. exact Hpatch.
Qed.

Lemma keeps_executeFields (exeContext : ExecutionContext W)
    (parentType : string) (source : value W) (p : option Path)
    (fields : list GroupedField) (errors : ErrorsRef) :
  keeps errors (settles errors)
    (executeFields host exeContext parentType source p fields errors).
Proof.
  unfold executeFields. apply keeps_executeFieldsFrom.
  apply withExecutors_Forall. apply Forall_forall. intros g _.
  apply keeps_executeField.
Qed.

Lemma keeps_promiseReduce {A B} (errors : ErrorsRef) (values : list A)
    (callbackFn : B -> A -> M (@PromiseOrValue W B)) :
  (forall b a, keeps errors (settles errors) (callbackFn b a)) ->
  forall accumulator,
    settles errors accumulator ->
    keeps errors (settles errors)
      (promiseReduce values callbackFn accumulator).
Proof.
  intros Hcb. induction values as [| v rest IH]; intros accumulator Hacc;
    simpl.
  - apply keeps_ret. exact Hacc.
  - apply (keeps_bind errors (settles errors)); [| exact IH].
    destruct accumulator as [a | promise]; [apply Hcb |].
    apply keeps_ret. simpl. apply keeps_thenP; [exact Hacc |].
    intros resolved. apply Hcb.
Qed.

Lemma keeps_executeFieldsSerially (exeContext : ExecutionContext W)
    (parentType : string) (source : value W) (p : option Path)
    (fields : list GroupedField) :
  keeps (exeErrors exeContext) (settles (exeErrors exeContext))
    (executeFieldsSerially host exeContext parentType source p fields).
Proof.
  unfold executeFieldsSerially.
  apply (keeps_bind (exeErrors exeContext) (settles (exeErrors exeContext))).
  - apply keeps_promiseReduce; [| exact I].
    intros results g. cbv zeta.
    apply (keeps_bind (exeErrors exeContext)
             (fun r => match r with
                       | Some v => settles (exeErrors exeContext) v
                       | None => True
                       end)); [apply keeps_executeField |].
    intros [[c | promise] |] Hv; apply keeps_ret; simpl; try exact I.
    apply (keeps_bind (exeErrors exeContext) (fun _ => True)); [exact Hv |].
    intros resolved _. apply keeps_ret. exact I.
  - intros [r | promise] Hv; apply keeps_ret; simpl; [exact I |].
    apply (keeps_bind (exeErrors exeContext) (fun _ => True)); [exact Hv |].
    intros r _. apply keeps_ret. exact I.
Qed.

Lemma keeps_executeOperation (exeContext : ExecutionContext W)
    (op : OperationDefinitionNode) (root : value W) :
  keeps (exeErrors exeContext) (settles (exeErrors exeContext))
    (executeOperation host exeContext op root).
Proof.
  unfold executeOperation.
  destruct (getRootType (schema exeContext) (operation op)) as [rootType |];
    [| apply keeps_throw].
  cbv zeta.
  apply (keeps_bind (exeErrors exeContext) (settles (exeErrors exeContext))).
  - destruct (operation op);
      [apply keeps_executeFields | apply keeps_executeFieldsSerially |
       apply keeps_executeFields].
  - intros result Hr.
    apply (keeps_bind (exeErrors exeContext) (fun _ => True));
      [| intros _ _; apply keeps_ret; exact Hr].
    apply keeps_forEach. intros patch.
    apply (keeps_bind (exeErrors exeContext) (fun _ => True));
      [apply keeps_newErrorArray |].
    intros errors _.
    apply (keeps_bind (exeErrors exeContext)
             (settles (exeErrors exeContext)));
      [apply keeps_executeFields |].
    intros data _. apply keeps_addFields.
Qed.

End Keeps.

(** X16. Executing an operation only ever extends the error lists: after
    [executeOperation], and after the promise it returned has settled (in
    whichever way), every error list still begins with the errors it held
    before and no list is gone. Recorded errors are never removed, replaced
    or reordered. *)
Theorem X16_recorded_errors_are_never_lost
    (exeContext : ExecutionContext W) (op : OperationDefinitionNode)
    (root : value W) (st st1 : St W)
    (r : completion Result) (ps : list (Payload W)) :
  executeOperation host exeContext op root st = (r, st1, ps) ->
  (forall errors, exists more,
     readErrors errors st1 = readErrors errors st ++ more) /\
  List.length (errorArrays st) <= List.length (errorArrays st1) /\
  forall promise st2 r2 st3 ps3,
    r = Normal (Pending promise) ->
    promise st2 = (r2, st3, ps3) ->
    (forall errors, exists more,
       readErrors errors st3 = readErrors errors st2 ++ more) /\
    List.length (errorArrays st2) <= List.length (errorArrays st3).
Proof.
  intros H.
  destruct (keeps_executeOperation (fun _ => extends)
              (fun _ => extends_refl) (fun _ => extends_trans)
              (fun _ => extends_withWorld)
              (fun errors e st => extends_pushErrorSt errors e st)
              (fun _ => extends_newErrorArray)
              (fun _ st st1 H =>
                 extends_trans _ _ _ (extends_newErrorArray st) H)
              _ _ _ _ _ _ _ H) as [[Hl He] Hv].
  split; [exact He |]. split; [exact Hl |].
  intros promise st2 r2 st3 ps3 -> Hp.
  destruct (Hv _ eq_refl _ _ _ _ Hp) as [[Hl2 He2] _].
  split; assumption.
Qed.

(** X23. The execution of a selection set records errors only in the
    accumulator it was given and in lists it creates itself (for the deferred
    fragments and streamed elements below it): every other error list that
    exists when [executeFields] starts is the same when it returns, and the
    same again when the promise it returned has settled. *)
Theorem X23_field_errors_go_to_the_given_accumulator_only
    (exeContext : ExecutionContext W) (parentType : string)
    (source : value W) (p : option Path) (fields : list GroupedField)
    (errors : ErrorsRef) (st st1 : St W)
    (r : completion Result) (ps : list (Payload W)) :
  executeFields host exeContext parentType source p fields errors st
  = (r, st1, ps) ->
  (forall other,
     other < List.length (errorArrays st) -> other <> errors ->
     readErrors other st1 = readErrors other st) /\
  forall promise st2 r2 st3 ps3,
    r = Normal (Pending promise) ->
    promise st2 = (r2, st3, ps3) ->
    forall other,
      other < List.length (errorArrays st2) -> other <> errors ->
      readErrors other st3 = readErrors other st2.
Proof.
  intros H.
  destruct (keeps_executeFields touchesOnly touchesOnly_refl
              touchesOnly_trans touchesOnly_withWorld
              touchesOnly_pushErrorSt touchesOnly_newErrorArray
              touchesOnly_fresh _ _ _ _ _ _ _ _ _ _ H) as [[_ Hf] Hv].
  split; [exact Hf |].
  intros promise st2 r2 st3 ps3 -> Hp.
  destruct (Hv _ eq_refl _ _ _ _ Hp) as [[_ Hf2] _]. exact Hf2.
Qed.

(** X17. When the execution of the operation throws (a field error that no
    nullable field stopped), [execute] answers with [data: null] and the
    errors recorded so far followed by the thrown error; when the promise of
    the operation rejects, the promise of [execute] resolves to the same
    kind of response. *)
Theorem X17_a_thrown_operation_gives_null_data
    (args : ExecutionArgs W) (w : W) (exeContext : ExecutionContext W) :
  assertValidExecutionArguments host (argSchema args) (argDocument args)
    (argVariableValues args) = None ->
  buildExecutionContext host args = inl (inr exeContext) ->
  match
    executeOperation host exeContext (exeOperation exeContext)
      (argRootValue args) (initialStore w)
  with
  | (Abrupt error, st1, _) =>
      execute host args w =
      (inl (ReturnsResult
              {| resultErrors := Some (readErrors 0 st1 ++ [error]);
                 resultData := Some CNull;
                 resultHasNext := None |}),
       pushErrorSt 0 error st1)
  | (Normal (Pending promise), st1, _) =>
      exists resolved,
        execute host args w = (inl (ReturnsPromise resolved), st1) /\
        forall st error st2 ps2,
          errorArrays st <> [] ->
          promise st = (Abrupt error, st2, ps2) ->
          resolved st =
          (Normal
             (inl {| resultErrors := Some (readErrors 0 st2 ++ [error]);
                     resultData := Some CNull;
                     resultHasNext := None |}),
           pushErrorSt 0 error st2)
  | _ => True
  end.
Proof.
  intros Hargs Hctx.
  destruct (buildExecutionContext_inr _ _ Hctx) as (_ & _ & _ & He).
  assert (Hnull :
    forall error (st : St W),
      0 < List.length (errorArrays st) ->
      buildResponse CNull (readErrors 0 (pushErrorSt 0 error st)) =
      {| resultErrors := Some (readErrors 0 st ++ [error]);
         resultData := @Some (Completed W) CNull;
         resultHasNext := None |}).
  { intros error st Hlen. rewrite (readErrors_pushed 0 error st Hlen).
    unfold buildResponse. destruct (readErrors 0 st); reflexivity. }
  pose proof (keeps_executeOperation (fun _ => extends)
                (fun _ => extends_refl) (fun _ => extends_trans)
                (fun _ => extends_withWorld)
                (fun errors e st => extends_pushErrorSt errors e st)
                (fun _ => extends_newErrorArray)
                (fun _ st st1 H =>
                   extends_trans _ _ _ (extends_newErrorArray st) H)
                exeContext (exeOperation exeContext) (argRootValue args))
    as Hkeeps.
  unfold execute. rewrite Hargs, Hctx. cbv zeta. rewrite He.
  destruct (executeOperation host exeContext (exeOperation exeContext)
              (argRootValue args) (initialStore w))
    as [[[[data | promise] | err |] st1] ps1] eqn:E; try exact I.
  - eexists. split; [reflexivity |].
    intros st error st2 ps2 Hst Hp. cbv beta. rewrite Hp.
    destruct (Hkeeps _ _ _ _ E) as [_ Hv].
    destruct (Hv _ eq_refl _ _ _ _ Hp) as [[Hl _] _].
    rewrite Hnull; [reflexivity |].
    destruct (errorArrays st); [contradiction | simpl in Hl; lia].
  - destruct (Hkeeps _ _ _ _ E) as [[Hl _] _].
    rewrite Hnull; [reflexivity | simpl in Hl; lia].
Qed.

(** ** Where a field error can come from *)

(** X18. [executeField] treats every failure before completion alike: when
    the coercion of the arguments throws (the resolver is then not called),
    when the resolver throws, and when the promise the resolver returned
    rejects, the error is located at the field's path and given to
    [handleFieldError]: rethrown for a NonNull field, recorded in the
    accumulator with the field null otherwise. *)
Theorem X18_resolver_failures_become_field_errors
    (g : GroupedField) (exeContext : ExecutionContext W)
    (parentTypeName : string) (source : value W) (p : Path)
    (errors : ErrorsRef) (st : St W) (fieldDef : GraphQLField W) :
  getFieldDef host (schema exeContext) parentTypeName (firstNode g)
  = Some fieldDef ->
  let handled rawError st1 :=
    let error := locatedError rawError (fieldNodes g) (pathToArray p) in
    if isNonNullType (fieldType fieldDef)
    then (@Abrupt (option Result) error, st1, @nil (Payload W))
    else (Normal (Some (Ready CNull)), pushErrorSt errors error st1, []) in
  let resolveFn :=
    match resolve fieldDef with
    | Some f => f
    | None => fieldResolver exeContext
    end in
  let info :=
    buildResolveInfo exeContext fieldDef (fieldNodes g) parentTypeName p in
  match
    getArgumentValues host fieldDef (firstNode g) (variableValues exeContext)
  with
  | inr rawError =>
      executeField host g exeContext parentTypeName source p errors st
      = handled rawError st
  | inl args =>
      match resolveFn source args (contextValue exeContext) info (world st)
      with
      | (inr rawError, w1) =>
          executeField host g exeContext parentTypeName source p errors st
          = handled rawError (withWorld st w1)
      | (inl (VPromise settle), w1) =>
          exists promise,
            executeField host g exeContext parentTypeName source p errors st
            = (Normal (Some (Pending promise)), withWorld st w1, []) /\
            forall st2 rawError w2,
              settle (world st2) = (inr rawError, w2) ->
              promise st2 =
              match handled rawError (withWorld st2 w2) with
              | (Normal _, st3, ps) => (Normal CNull, st3, ps)
              | (Abrupt e, st3, ps) => (Abrupt e, st3, ps)
              | (Unsettled, st3, ps) => (Unsettled, st3, ps)
              end
      | _ => True
      end
  end.
Proof.
  intros Hdef handled resolveFn info.
  rewrite executeField_unfold. unfold executeFieldWith. rewrite Hdef.
  cbv zeta. fold resolveFn. fold info.
  destruct (getArgumentValues host fieldDef (firstNode g)
              (variableValues exeContext)) as [args | rawError].
  - simpl liftResult.
    destruct (resolveFn source args (contextValue exeContext) info (world st))
      as [[v | rawError] w1] eqn:Ecall.
    + destruct v; try exact I. eexists. split.
      * unfold bind at 1. unfold tryCatch at 1. rewrite bind_ret_l.
        rewrite hostCall_bind, Ecall. rewrite bind_ret_l.
        unfold ret. reflexivity.
      * intros st2 rawError w2 Hs. cbv beta. unfold tryCatch.
        rewrite settlePromise_then, Hs. rewrite handleFieldError_spec.
        unfold handled.
        destruct (isNonNullType (fieldType fieldDef)); reflexivity.
    + unfold bind at 1. unfold tryCatch at 1. rewrite bind_ret_l.
      rewrite hostCall_bind, Ecall. unfold bind at 1.
      rewrite handleFieldError_spec. unfold handled.
      destruct (isNonNullType (fieldType fieldDef)); reflexivity.
  - simpl liftResult. unfold bind at 1. unfold tryCatch at 1.
    rewrite bind_throw. unfold bind at 1.
    rewrite handleFieldError_spec. unfold handled.
    destruct (isNonNullType (fieldType fieldDef)); reflexivity.
Qed.

(** ** Serial and parallel execution without promises *)

Lemma bind_step {A B} (m : M A) (f : A -> M B) st a st1 ps1 r st2 ps2 :
  m st = (Normal a, st1, ps1) ->
  f a st1 = (r, st2, ps2) ->
  bind m f st = (r, st2, ps1 ++ ps2).
Proof.
  intros Hm Hf. unfold bind. rewrite Hm, Hf. reflexivity.
Qed.

Lemma executeFieldsLoop_flag (exeContext : ExecutionContext W)
    (parentType : string) (source : value W) (p : option Path)
    (errors : ErrorsRef) (fields : list (string * @FieldExecutor W)) :
  forall results st results' cp' st1 ps,
    executeFieldsLoop exeContext parentType source p errors fields results
      true st = (Normal (results', cp'), st1, ps) ->
    cp' = true.
Proof.
  induction fields as [| [name executor] rest IH];
    intros results st results' cp' st1 ps H; simpl in H.
  - inversion H. reflexivity.
  - apply bind_inv_normal in H.
    destruct H as (r & st2 & ps1 & ps2 & _ & H & _).
    destruct r as [r |]; [| exact (IH _ _ _ _ _ _ H)].
    destruct (isPromise r); exact (IH _ _ _ _ _ _ H).
Qed.

Lemma readyEntries_setProperty {A}
    (object : list (string * @PromiseOrValue W A)) (key : string) (a : A) :
  forallb (fun kv => negb (isPromise (snd kv))) object = true ->
  readyEntries (setProperty object key (Ready a)) =
  setProperty (readyEntries object) key a.
Proof.
  induction object as [| [k [old | promise]] rest IH]; simpl; intros H;
    try discriminate.
  - reflexivity.
  - destruct (String.eqb k key); simpl; [reflexivity |].
    rewrite IH by exact H. reflexivity.
Qed.

Lemma setProperty_ready {A} (object : list (string * @PromiseOrValue W A))
    (key : string) (a : A) :
  forallb (fun kv => negb (isPromise (snd kv))) object = true ->
  forallb (fun kv => negb (isPromise (snd kv)))
    (setProperty object key (Ready a)) = true.
Proof.
  induction object as [| [k v] rest IH]; simpl; intros H; [reflexivity |].
  apply andb_prop in H. destruct H as [Hv Hrest].
  destruct (String.eqb k key); simpl.
  - exact Hrest.
  - rewrite Hv. exact (IH Hrest).
Qed.

Section SerialAndParallel.

Variable exeContext : ExecutionContext W.
Variable parentType : string.
Variable source : value W.
Variable p : option Path.

Local Notation callbackFn :=
  (fun (results : list (string * Completed W)) (g : GroupedField) =>
     bind
       (executeField host g exeContext parentType source
          (addPath p (KeyName (responseName g)) (Some parentType))
          (exeErrors exeContext))
       (fun result =>
          match result with
          | None => ret (Ready results)
          | Some (Pending promise) =>
              ret (Pending
                     (bind promise (fun resolvedResult =>
                        ret (setProperty results (responseName g)
                               resolvedResult))))
          | Some (Ready r) =>
              ret (Ready (setProperty results (responseName g) r))
          end)).

Lemma promiseReduce_without_promises (fields : list GroupedField) :
  forall results st results' st1 ps,
    forallb (fun kv => negb (isPromise (snd kv))) results = true ->
    executeFieldsLoop exeContext parentType source p (exeErrors exeContext)
      (withExecutors (executeField host) fields) results false st =
    (Normal (results', false), st1, ps) ->
    promiseReduce fields callbackFn (Ready (readyEntries results)) st =
    (Normal (Ready (readyEntries results')), st1, ps).
Proof.
  induction fields as [| g rest IH]; intros results st results' st1 ps Hall H;
    simpl in H.
  - inversion H; subst. reflexivity.
  - apply bind_inv_normal in H.
    destruct H as (r & st2 & ps1 & ps2 & Hf & Hrest & ->).
    simpl promiseReduce.
    replace (ps1 ++ ps2) with ((ps1 ++ []) ++ ps2)
      by (rewrite app_nil_r; reflexivity).
    destruct r as [[c | promise] |].
    + simpl in Hrest.
      eapply bind_step.
      * eapply bind_step; [exact Hf | reflexivity].
      * rewrite <- readyEntries_setProperty by exact Hall.
        apply IH; [apply setProperty_ready; exact Hall | exact Hrest].
    + simpl in Hrest. apply executeFieldsLoop_flag in Hrest. discriminate.
    + eapply bind_step.
      * eapply bind_step; [exact Hf | reflexivity].
      * apply IH; assumption.
Qed.

(** X19. When the parallel execution of a selection set ends without a
    promise, the serial execution of the same fields from the same store
    does exactly the same: the same object, the same store after it and the
    same payloads. The two differ only once a field returns a promise. *)
Theorem X19_serial_and_parallel_agree_without_promises
    (fields : list GroupedField) (st st1 : St W) (c : Completed W)
    (ps : list (Payload W)) :
  executeFields host exeContext parentType source p fields
    (exeErrors exeContext) st = (Normal (Ready c), st1, ps) ->
  executeFieldsSerially host exeContext parentType source p fields st
  = (Normal (Ready c), st1, ps).
Proof.
  intros H. unfold executeFields, executeFieldsFrom in H.
  apply bind_inv_normal in H.
  destruct H as ([results cp] & st2 & ps1 & ps2 & Hloop & H & ->).
  simpl in H. destruct cp; simpl in H; [discriminate |].
  inversion H; subst. unfold executeFieldsSerially.
  eapply bind_step.
  - apply (promiseReduce_without_promises fields [] _ _ _ _ eq_refl Hloop).
  - reflexivity.
Qed.

End SerialAndParallel.

(** ** A field that throws ends its selection set *)

Lemma executeFieldsLoop_app (exeContext : ExecutionContext W)
    (parentType : string) (source : value W) (p : option Path)
    (errors : ErrorsRef) (before after : list (string * @FieldExecutor W)) :
  forall results cp st,
    executeFieldsLoop exeContext parentType source p errors
      (before ++ after) results cp st =
    bind
      (executeFieldsLoop exeContext parentType source p errors before
         results cp)
      (fun r =>
         executeFieldsLoop exeContext parentType source p errors after
           (fst r) (snd r))
      st.
Proof.
  induction before as [| [name executor] rest IH]; intros results cp st.
  - simpl. rewrite bind_ret_l. reflexivity.
  - simpl. rewrite bind_assoc. apply bind_ext. intros r st1.
    destruct r as [r |]; apply IH.
Qed.

(** X20. In a selection set, a field whose execution throws (a NonNull field
    that failed) ends the execution of the set at once: [executeFields]
    throws the same error, with the store and the payloads as that field left
    them, and the fields after it are not executed, whatever they are. *)
Theorem X20_a_throwing_field_ends_its_selection_set
    (exeContext : ExecutionContext W) (parentType : string)
    (source : value W) (p : option Path) (errors : ErrorsRef)
    (before after : list GroupedField) (g : GroupedField)
    (st st0 st1 : St W) (v0 : Result) (ps0 ps1 : list (Payload W))
    (error : GraphQLError) :
  executeFields host exeContext parentType source p before errors st
  = (Normal v0, st0, ps0) ->
  executeField host g exeContext parentType source
    (addPath p (KeyName (responseName g)) (Some parentType)) errors st0
  = (Abrupt error, st1, ps1) ->
  executeFields host exeContext parentType source p (before ++ g :: after)
    errors st
  = (Abrupt error, st1, ps0 ++ ps1).
Proof.
  intros Hbefore Hg. unfold executeFields, executeFieldsFrom in *.
  apply bind_inv_normal in Hbefore.
  destruct Hbefore as (r & st2 & ps2 & ps3 & Hloop & Hret & ->).
  assert (st2 = st0 /\ ps3 = []) as [-> ->].
  { destruct (negb (snd r)); inversion Hret; split; reflexivity. }
  rewrite app_nil_r. unfold withExecutors. rewrite map_app.
  apply bind_abrupt. rewrite executeFieldsLoop_app.
  eapply bind_step; [exact Hloop |]. simpl.
  apply bind_abrupt. exact Hg.
Qed.

(** ** Draining the dispatcher *)

Lemma rev_seq_S (n : nat) : rev (seq 0 (S n)) = n :: rev (seq 0 n).
Proof.
  rewrite seq_S. rewrite rev_app_distr. reflexivity.
Qed.

Lemma next_settled (first : Payload W) (patchOf : St W -> DispatcherResult)
    (rest : list (Payload W)) (later : list nat)
    (d : Dispatcher W) (st : St W) :
  _hasReturnedInitialResult d = true ->
  _subsequentPayloads d = first :: rest ->
  settledTo first patchOf ->
  _next (0 :: later) d st =
  Some (IterValue
          (PatchResult
             {| patch := Some (patchOf st);
                hasNext := negb (Nat.eqb (List.length rest) 0) |}),
        withPayloads d rest, st).
Proof.
  intros Hret Hq Hfirst. unfold _next. rewrite Hret, Hq. simpl.
  rewrite Hq. simpl. destruct first as [run]. simpl in Hfirst.
  rewrite Hfirst. simpl. rewrite app_nil_r. reflexivity.
Qed.

Lemma nextCalls_settled (payloads : list (Payload W))
    (patches : list (St W -> DispatcherResult)) :
  Forall2 settledTo payloads patches ->
  forall (d : Dispatcher W) (st : St W),
    _hasReturnedInitialResult d = true ->
    _subsequentPayloads d = payloads ->
    nextCalls (repeat [0] (S (List.length payloads))) d st =
    map (fun entry =>
           IterValue
             (PatchResult
                {| patch := Some (fst entry st);
                   hasNext := negb (Nat.eqb (snd entry) 0) |}))
        (combine patches (rev (seq 0 (List.length payloads))))
    ++ [IterDone].
Proof.
  induction 1 as [| first patchOf rest patches Hfirst Hrest IH];
    intros d st Hret Hq.
  - simpl. unfold _next. rewrite Hret, Hq. reflexivity.
  - cbn [List.length repeat nextCalls].
    rewrite (next_settled first patchOf rest [] d st Hret Hq Hfirst).
    rewrite rev_seq_S. cbn [combine map fst snd app]. f_equal.
    apply (IH (withPayloads d rest) st); [exact Hret | reflexivity].
Qed.

(** X21. The async sequence over a queue of payloads that have all settled
    to patches delivers the initial result with [hasNext: true], then every
    patch once, in queue order, with [hasNext] true on all but the last and
    false on the last, and then ends. *)
Theorem X21_the_sequence_delivers_every_patch_once
    (payloads : list (Payload W))
    (patches : list (St W -> DispatcherResult))
    (initialResult : ExecutionResult) (st : St W) :
  Forall2 settledTo payloads patches ->
  nextCalls (repeat [0] (S (S (List.length payloads))))
    (get (dispatcherWith payloads) initialResult) st =
  IterValue
    (InitialResult
       {| resultErrors := resultErrors initialResult;
          resultData := resultData initialResult;
          resultHasNext := Some true |})
  :: map (fun entry =>
            IterValue
              (PatchResult
                 {| patch := Some (fst entry st);
                    hasNext := negb (Nat.eqb (snd entry) 0) |}))
       (combine patches (rev (seq 0 (List.length payloads))))
  ++ [IterDone].
Proof.
  intros Hsettled. cbn [repeat nextCalls]. unfold _next at 1. simpl. f_equal.
  apply (nextCalls_settled payloads patches Hsettled); reflexivity.
Qed.

(** ** Streaming an async sequence *)

Section StreamedSequence.

Variable completeItem : Path -> value W -> ErrorsRef -> M Result.
Variable complete : value W -> Completed W.
Variable nodes : list FieldNode.
Variable itemType : GraphQLOutputType.
Variable p : Path.
Variable label : option string.
Variable source : list (value W).

(** The completion of an element of the sequence returns its value at once
    and touches nothing (a leaf that serializes, say). *)
Hypothesis completeItem_pure :
  forall itemPath item errors st,
    In item source ->
    completeItem itemPath item errors st
    = (Normal (Ready (complete item)), st, []).

Local Notation patchAt index item :=
  {| patchData := complete item;
     patchPath := pathToArray p ++ [KeyIndex index];
     patchLabel := label;
     patchErrors := None |}.

Local Notation grown st :=
  {| errorArrays := errorArrays st ++ [[]]; world := world st |}.

Local Notation queued index items :=
  (addAsyncIteratorValue completeItem index (map inl items) nodes itemType
     (Some p) label).

(** What [addAsyncIteratorValue] queues, and what that payload does when it
    runs. *)
Lemma addAsyncIteratorValue_queues (items : list (value W)) (index : nat)
    (created : St W) :
  incl items source ->
  exists run,
    queued index items created = (Normal tt, grown created, [payload run]) /\
    forall st,
      readErrors (List.length (errorArrays created)) st = [] ->
      match items with
      | [] => run st = (Normal IterDone, st, [])
      | item :: rest =>
          run st =
          (Normal (IterValue (patchAt index item)), grown st,
           snd (queued (S index) rest st))
      end.
Proof.
  intros Hincl. destruct items as [| item rest].
  - eexists. split; [simpl; unfold bind, newErrorArray, pushPayload; simpl;
                     reflexivity |].
    intros st _. reflexivity.
  - eexists. split; [simpl; unfold bind, newErrorArray, pushPayload; simpl;
                     reflexivity |].
    intros st Hempty. cbv beta.
    destruct rest as [| next more].
    + simpl. unfold bind, newErrorArray, pushPayload, tryCatch, ret,
        getErrors. simpl.
      rewrite completeItem_pure by (apply Hincl; left; reflexivity). simpl.
      rewrite readErrors_newErrorArray, Hempty. reflexivity.
    + simpl. unfold bind, newErrorArray, pushPayload, tryCatch, ret,
        getErrors. simpl.
      rewrite completeItem_pure by (apply Hincl; left; reflexivity). simpl.
      rewrite readErrors_newErrorArray, Hempty. reflexivity.
Qed.

Lemma nextCalls_streamed (items : list (value W)) :
  incl items source ->
  forall index created run (d : Dispatcher W) st,
    queued index items created = (Normal tt, grown created, [payload run]) ->
    _hasReturnedInitialResult d = true ->
    _subsequentPayloads d = [payload run] ->
    readErrors (List.length (errorArrays created)) st = [] ->
    nextCalls (repeat [0] (S (S (List.length items)))) d st =
    map (fun entry =>
           IterValue
             (PatchResult
                {| patch := Some (patchAt (fst entry) (snd entry));
                   hasNext := true |}))
        (combine (seq index (List.length items)) items)
    ++ [IterValue (PatchResult {| patch := None; hasNext := false |});
        IterDone].
Proof.
  induction items as [| item rest IH];
    intros Hincl index created run d st Hq Hret Hd Hempty.
  - destruct (addAsyncIteratorValue_queues [] index created Hincl)
      as (run0 & Hq0 & Hrun).
    rewrite Hq in Hq0. injection Hq0 as <-. specialize (Hrun st Hempty).
    cbn [List.length repeat nextCalls]. unfold _next at 1.
    rewrite Hret, Hd. cbn [negb List.length Nat.eqb _race nth_error].
    rewrite Hd. cbn [nth_error]. rewrite Hrun.
    cbn [app splice withPayloads _subsequentPayloads List.length Nat.eqb].
    unfold _next. cbn. rewrite Hret. reflexivity.
  - assert (Hrest : incl rest source).
    { intros x Hx. apply Hincl. right. exact Hx. }
    destruct (addAsyncIteratorValue_queues (item :: rest) index created
                Hincl) as (run0 & Hq0 & Hrun).
    rewrite Hq in Hq0. injection Hq0 as <-. specialize (Hrun st Hempty).
    cbn [List.length repeat nextCalls]. unfold _next at 1.
    rewrite Hret, Hd. cbn [negb List.length Nat.eqb _race nth_error].
    rewrite Hd. cbn [nth_error]. rewrite Hrun.
    destruct (addAsyncIteratorValue_queues rest (S index) st Hrest)
      as (run1 & Hq1 & _).
    rewrite Hq1. cbn [snd app splice withPayloads _subsequentPayloads
                      List.length Nat.eqb negb seq combine map fst].
    f_equal.
    apply (IH Hrest (S index) st run1);
      [exact Hq1 | exact Hret | reflexivity |].
    apply readErrors_fresh.
Qed.

Variable n : nat.
Variable errors : ErrorsRef.

Local Notation stream :=
  (Some {| initialCount := Some (Z.of_nat n); streamLabel := label |}).

(** The elements before [initialCount] are completed into the array. *)
Lemma asyncIteratorNext_inline (pre suf : list (value W)) :
  incl pre source ->
  forall index results cp resolved st,
    index + List.length pre <= n ->
    asyncIteratorNext completeItem stream nodes itemType p errors
      (map inl (pre ++ suf)) index
      {| completedResults := results; containsPromise := cp;
         resolvedWith := resolved |} st =
    asyncIteratorNext completeItem stream nodes itemType p errors
      (map inl suf) (index + List.length pre)
      {| completedResults :=
           results ++ map (fun item => Ready (complete item)) pre;
         containsPromise := cp; resolvedWith := resolved |} st.
Proof.
  induction pre as [| item rest IH];
    intros Hincl index results cp resolved st Hn.
  - simpl. rewrite Nat.add_0_r, app_nil_r. reflexivity.
  - assert (Hrest : incl rest source).
    { intros x Hx. apply Hincl. right. exact Hx. }
    cbn [app map asyncIteratorNext]. unfold streamedFrom.
    replace (Z.of_nat n <=? Z.of_nat index)%Z with false
      by (symmetry; apply Z.leb_gt; simpl in Hn; lia).
    cbv zeta. unfold bind at 1. unfold tryCatch. unfold bind at 1.
    rewrite completeItem_pure by (apply Hincl; left; reflexivity).
    cbv beta iota. unfold ret at 1. cbv beta iota.
    unfold pushResult, markPromise. cbn [isPromise completedResults
      containsPromise resolvedWith].
    rewrite (IH Hrest (S index)) by (simpl in Hn; lia).
    cbn [List.length map].
    replace (S index + List.length rest)
      with (index + S (List.length rest)) by lia.
    rewrite <- app_assoc. cbn [app].
    match goal with
    | |- (let (_, _) := ?X in _) = _ => destruct X as [[r st2] ps2]
    end.
    reflexivity.
  Qed.

Lemma asyncIteratorNext_streamed (iterator : list (value W + GraphQLError))
    (index : nat) (s : AsyncListState) (st : St W) :
  streamedFrom stream index = true ->
  asyncIteratorNext completeItem stream nodes itemType p errors iterator
    index s st =
  bind
    (addAsyncIteratorValue completeItem index iterator nodes itemType
       (Some p) label)
    (fun _ => ret (resolveNow s)) st.
Proof.
  intros H.
  destruct iterator as [| [item | e] rest]; cbn [asyncIteratorNext];
    rewrite H; reflexivity.
Qed.

(** X22. A list field with [@stream(initialCount: n)] over an async
    sequence of at least [n] elements whose completions return at once: the
    promise of the field resolves to the list of the first [n] completed
    elements and queues one payload; the async sequence of the dispatcher
    then delivers every remaining element as a patch of its own, in order,
    each at [path + index] with [hasNext: true], and after the last of
    them one payload [{hasNext: false}] without data, and ends. *)
Theorem X22_an_async_sequence_is_streamed_element_by_element
    (st : St W) :
  n <= List.length source ->
  exists promise,
    completeAsyncIteratorValue completeItem stream nodes itemType p errors
      (map inl source) st = (Normal (Pending promise), st, []) /\
    forall st0, exists run,
      promise st0 =
      (Normal (CList (map complete (firstn n source))),
       {| errorArrays := errorArrays st0 ++ [[]]; world := world st0 |},
       [payload run]) /\
      forall (d : Dispatcher W) st1,
        _hasReturnedInitialResult d = true ->
        _subsequentPayloads d = [payload run] ->
        readErrors (List.length (errorArrays st0)) st1 = [] ->
        nextCalls (repeat [0] (S (S (List.length source - n)))) d st1 =
        map (fun entry =>
               IterValue
                 (PatchResult
                    {| patch := Some (patchAt (fst entry) (snd entry));
                       hasNext := true |}))
            (combine (seq n (List.length source - n)) (skipn n source))
        ++ [IterValue (PatchResult {| patch := None; hasNext := false |});
            IterDone].
Proof.
  intros Hn. eexists. split; [reflexivity |]. intros st0. cbv beta.
  assert (Hpre : incl (firstn n source) source).
  { intros x Hx. rewrite <- (firstn_skipn n source). apply in_or_app.
    left. exact Hx. }
  assert (Hsuf : incl (skipn n source) source).
  { intros x Hx. rewrite <- (firstn_skipn n source). apply in_or_app.
    right. exact Hx. }
  assert (Hlen : List.length (firstn n source) = n).
  { apply firstn_length_le. exact Hn. }
  destruct (addAsyncIteratorValue_queues (skipn n source) n st0 Hsuf)
    as (run & Hq & _).
  exists run. split.
  - rewrite <- (firstn_skipn n source) at 1.
    refine (bind_step _ _ _ _ _ [payload run] _ _ [] _ _).
    + rewrite (asyncIteratorNext_inline _ _ Hpre 0) by (rewrite Hlen; lia).
      rewrite Hlen. cbn [Nat.add app].
      rewrite asyncIteratorNext_streamed
        by (unfold streamedFrom; apply Z.leb_le; lia).
      refine (bind_step _ _ _ _ _ [payload run] _ _ [] Hq _). reflexivity.
    + cbn [resolveNow resolvedWith completedResults containsPromise].
      unfold ret, arrayContents. rewrite map_map. reflexivity.
  - intros d st1 Hret Hd Hempty.
    replace (List.length source - n) with (List.length (skipn n source))
      by (rewrite length_skipn; reflexivity).
    apply (nextCalls_streamed (skipn n source) Hsuf n st0 run d st1);
      assumption.
Qed.

End StreamedSequence.

(** ** The elements of a list, one by one *)

Lemma readyValues_map {A B} (f : A -> B) (l : list A) :
  readyValues (map (fun a => @Ready W B (f a)) l) = map f l.
Proof.
  induction l as [| a rest IH]; simpl; [reflexivity |].
  rewrite IH. reflexivity.
Qed.

Lemma readErrors_pushed_all (errors : ErrorsRef) (es : list GraphQLError) :
  forall st : St W,
    errors < List.length (errorArrays st) ->
    readErrors errors (fold_left (fun s e => pushErrorSt errors e s) es st)
    = readErrors errors st ++ es.
Proof.
  induction es as [| e rest IH]; intros st Hlen; simpl.
  - rewrite app_nil_r. reflexivity.
  - rewrite IH by (simpl; rewrite pushAt_length; exact Hlen).
    rewrite (readErrors_pushed errors e st Hlen), <- app_assoc.
    reflexivity.
Qed.

Lemma world_pushed_all (errors : ErrorsRef) (es : list GraphQLError) :
  forall st : St W,
    world (fold_left (fun s e => pushErrorSt errors e s) es st) = world st.
Proof.
  induction es as [| e rest IH]; intros st; simpl; [reflexivity |].
  rewrite IH. reflexivity.
Qed.

Section ListElements.

Variable completeItem : Path -> value W -> ErrorsRef -> M Result.
Variable outcome : value W -> Completed W + GraphQLError.
Variable nodes : list FieldNode.
Variable itemType : GraphQLOutputType.
Variable p : Path.
Variable errors : ErrorsRef.
Variable source : list (value W).

(** No element is a promise, and the completion of each either returns its
    value at once or throws, touching nothing. *)
Hypothesis source_settled :
  forall item settle, In item source -> item <> VPromise settle.
Hypothesis completeItem_outcome :
  forall itemPath item st,
    In item source ->
    completeItem itemPath item errors st =
    match outcome item with
    | inl c => (Normal (Ready c), st, [])
    | inr e => (Abrupt e, st, [])
    end.

Local Notation valueOf :=
  (fun item => match outcome item with inl c => c | inr _ => CNull end).

Local Notation failures index items :=
  (flat_map
     (fun entry =>
        match outcome (snd entry) with
        | inl _ => []
        | inr e =>
            [locatedError e nodes (pathToArray p ++ [KeyIndex (fst entry)])]
        end)
     (combine (seq index (List.length items)) items)).

Lemma completeListItems_step (item : value W) (rest : list (value W))
    (index : nat) (cp : bool) (acc : list Result) (st : St W) :
  In item source ->
  completeListItems completeItem None nodes itemType p errors (item :: rest)
    index cp acc st =
  match outcome item with
  | inl c =>
      completeListItems completeItem None nodes itemType p errors rest
        (S index) cp (acc ++ [Ready c]) st
  | inr e =>
      bind
        (handleFieldError
           (locatedError e nodes (pathToArray p ++ [KeyIndex index]))
           itemType errors)
        (fun c =>
           completeListItems completeItem None nodes itemType p errors rest
             (S index) cp (acc ++ [Ready c]))
        st
  end.
Proof.
  intros Hin. cbn [completeListItems streamedFrom]. cbv zeta.
  assert (Hitem :
    match item with
    | VPromise settle =>
        ret (Pending
               (thenP (settlePromise settle)
                  (fun resolved =>
                     completeItem (addPath (Some p) (KeyIndex index) None)
                       resolved errors)))
    | _ => completeItem (addPath (Some p) (KeyIndex index) None) item errors
    end = completeItem (addPath (Some p) (KeyIndex index) None) item errors).
  { destruct item; try reflexivity. exfalso.
    exact (source_settled _ _ Hin eq_refl). }
  rewrite Hitem. unfold bind at 1. unfold tryCatch. unfold bind at 1.
  rewrite (completeItem_outcome _ _ _ Hin).
  destruct (outcome item) as [c | e].
  - cbv beta iota. unfold ret at 1. cbv beta iota. cbn [fst snd app].
    match goal with
    | |- (let (_, _) := ?X in _) = _ => destruct X as [[r st2] ps2]
    end.
    reflexivity.
  - cbv beta iota. cbn [pathToArray addPath]. unfold bind.
    rewrite !handleFieldError_spec.
    destruct (isNonNullType itemType); [reflexivity |].
    cbn [fst snd app ret]. unfold ret. cbn [fst snd app].
    match goal with
    | |- (let (_, _) := ?X in _) = _ => destruct X as [[r st2] ps2]
    end.
    reflexivity.
Qed.

Lemma completeListItems_nullable (items : list (value W)) :
  isNonNullType itemType = false ->
  incl items source ->
  forall index cp acc st,
    completeListItems completeItem None nodes itemType p errors items index
      cp acc st =
    (Normal (cp, acc ++ map (fun item => Ready (valueOf item)) items),
     fold_left (fun s e => pushErrorSt errors e s) (failures index items) st,
     []).
Proof.
  intros Hnullable. induction items as [| item rest IH];
    intros Hincl index cp acc st.
  - simpl. rewrite app_nil_r. reflexivity.
  - assert (Hin : In item source) by (apply Hincl; left; reflexivity).
    assert (Hrest : incl rest source).
    { intros x Hx. apply Hincl. right. exact Hx. }
    rewrite completeListItems_step by exact Hin.
    cbn [List.length seq combine flat_map map fst snd].
    destruct (outcome item) as [c | e].
    + rewrite (IH Hrest). rewrite <- app_assoc. reflexivity.
    + unfold bind. rewrite handleFieldError_spec, Hnullable.
      rewrite (IH Hrest). rewrite <- app_assoc. reflexivity.
Qed.

Lemma completeListItems_nonnull (pre suf : list (value W)) (bad : value W)
    (e : GraphQLError) :
  isNonNullType itemType = true ->
  incl (pre ++ bad :: suf) source ->
  (forall item, In item pre -> exists c, outcome item = inl c) ->
  outcome bad = inr e ->
  forall index cp acc st,
    completeListItems completeItem None nodes itemType p errors
      (pre ++ bad :: suf) index cp acc st =
    (Abrupt
       (locatedError e nodes
          (pathToArray p ++ [KeyIndex (index + List.length pre)])),
     st, []).
Proof.
  intros Hnonnull Hincl Hpre Hbad.
  induction pre as [| item rest IH]; intros index cp acc st.
  - assert (Hin : In bad source) by (apply Hincl; left; reflexivity).
    cbn [app]. rewrite completeListItems_step by exact Hin.
    rewrite Hbad. unfold bind. rewrite handleFieldError_spec, Hnonnull.
    cbn [List.length]. rewrite Nat.add_0_r. reflexivity.
  - assert (Hin : In item source) by (apply Hincl; left; reflexivity).
    cbn [app]. rewrite completeListItems_step by exact Hin.
    destruct (Hpre item (or_introl eq_refl)) as [c ->].
    rewrite IH.
    + cbn [List.length].
      replace (S index + List.length rest)
        with (index + S (List.length rest)) by lia.
      reflexivity.
    + intros x Hx. apply Hincl. right. exact Hx.
    + intros x Hx. apply Hpre. right. exact Hx.
Qed.

End ListElements.

(** X24. A list field without [@stream] over an array of elements that are
    not promises and whose completions return at once or throw. When the
    element type is nullable, the list holds the completed value of every
    element that completed and null at the place of every element that
    failed, and the errors of the failed elements, each located at
    [path + index], are appended to the accumulator in the order of the
    elements. When the element type is NonNull, the first failing element
    makes the whole list throw its located error, and nothing is recorded. *)
Theorem X24_a_failing_element_is_null_or_fails_the_list
    (completeItem : Path -> value W -> ErrorsRef -> M Result)
    (outcome : value W -> Completed W + GraphQLError)
    (exeContext : ExecutionContext W) (itemType : GraphQLOutputType)
    (g : GroupedField) (info : GraphQLResolveInfo) (p : Path)
    (source : list (value W)) (errors : ErrorsRef) (st : St W) :
  (forall item settle, In item source -> item <> VPromise settle) ->
  (forall itemPath item st',
     In item source ->
     completeItem itemPath item errors st' =
     match outcome item with
     | inl c => (Normal (Ready c), st', [])
     | inr e => (Abrupt e, st', [])
     end) ->
  getStreamValues host exeContext g = None ->
  errors < List.length (errorArrays st) ->
  let located index e :=
    locatedError e (fieldNodes g) (pathToArray p ++ [KeyIndex index]) in
  let failed :=
    flat_map
      (fun entry =>
         match outcome (snd entry) with
         | inl _ => []
         | inr e => [located (fst entry) e]
         end)
      (combine (seq 0 (List.length source)) source) in
  (isNonNullType itemType = false ->
   exists st1,
     completeListValue host completeItem exeContext itemType g info p
       (VArray source) errors st =
     (Normal
        (Ready
           (CList
              (map (fun item =>
                      match outcome item with
                      | inl c => c
                      | inr _ => CNull
                      end)
                 source))),
      st1, []) /\
     readErrors errors st1 = readErrors errors st ++ failed /\
     world st1 = world st) /\
  (isNonNullType itemType = true ->
   forall pre bad suf e,
     source = pre ++ bad :: suf ->
     (forall item, In item pre -> exists c, outcome item = inl c) ->
     outcome bad = inr e ->
     completeListValue host completeItem exeContext itemType g info p
       (VArray source) errors st =
     (Abrupt (located (List.length pre) e), st, [])).
Proof.
  intros Hsettled Houtcome Hstream Hlen located failed. split.
  - intros Hnullable. eexists. split; [| split].
    + unfold completeListValue. rewrite Hstream. unfold bind.
      rewrite (completeListItems_nullable completeItem outcome (fieldNodes g)
                 itemType p errors source Hsettled Houtcome source Hnullable
                 (incl_refl source)).
      cbn [fst snd app]. unfold ret. rewrite readyValues_map. reflexivity.
    + apply (readErrors_pushed_all errors failed st Hlen).
    + apply world_pushed_all.
  - intros Hnonnull pre bad suf e Hsource Hpre Hbad.
    unfold completeListValue. rewrite Hstream. unfold bind.
    rewrite Hsource.
    rewrite (completeListItems_nonnull completeItem outcome (fieldNodes g)
               itemType p errors source Hsettled Houtcome pre suf bad e
               Hnonnull); try assumption.
    + reflexivity.
    + rewrite <- Hsource. apply incl_refl.
Qed.

End Properties.

(** * The claims on concrete requests *)

Import Examples.

(** C1, on the code. [{ strict { n } }] where [strict: [Item!]] is drawn from
    an async sequence whose first element has [n: String!] resolving to null.
    The error of [n] is rethrown up to the element, whose type is NonNull;
    there [handleFieldError] throws inside the callback of
    [iterator.next().then], where nothing forwards it: [resolve] is never
    called, the promise [execute] returned never settles, no error is logged
    and the nullable ancestor [strict] never becomes null. The same data as a
    synchronous list goes through [completeListValue] and gives what the
    claim says: the error at the path of [n], and [strict] null. *)
Theorem C1_nonnull_element_of_an_async_sequence_never_settles :
  settled (request QUERY [object "strict" [leaf "n"] []] [] exampleRoot)
  = Some (Unsettled, {| errorArrays := [[]]; world := [] |}) /\
  execute exampleHost
    (request QUERY [object "strict" [leaf "n"] []] [] listRoot) []
  = (inl (ReturnsResult
            {| resultErrors :=
                 Some [errorAt
                         "Cannot return null for non-nullable field Item.n."
                         "n" [KeyName "strict"; KeyIndex 0; KeyName "n"]];
               resultData := Some (CObject [("strict", CNull)]);
               resultHasNext := None |}),
     {| errorArrays :=
          [[errorAt "Cannot return null for non-nullable field Item.n."
              "n" [KeyName "strict"; KeyIndex 0; KeyName "n"]]];
        world := [] |}).
Proof. split; vm_compute; reflexivity. Qed.

(** C3, on the code. [{ x ... @defer { boom } }] at the operation root, where
    the resolver of the nullable field [boom] throws. [executeOperation]
    creates the fresh list of the patch but gives [exeContext.errors] to
    [executeFields]: the error is in the main accumulator and in the initial
    result, the list of the patch stays empty and the payload of the patch
    carries no errors. For a patch collected during object sub-selection,
    [{ item { n ... @defer { boom } } }], the error is in the list of the
    patch and in its payload, and the main accumulator is empty. *)
Theorem C3_root_patch_errors_reach_the_main_accumulator :
  delivered
    (request QUERY [leaf "x"]
       [{| label := None; patchFields := [leaf "boom"] |}] exampleRoot)
    [[]; [0]; []]
  = Some
      ([IterValue
          (InitialResult
             {| resultErrors := Some [errorAt "boom" "boom" [KeyName "boom"]];
                resultData := Some (CObject [("x", CLeaf (VString "a"))]);
                resultHasNext := Some true |});
        IterValue
          (PatchResult
             {| patch :=
                  Some {| patchData := CObject [("boom", CNull)];
                          patchPath := [];
                          patchLabel := None;
                          patchErrors := None |};
                hasNext := false |});
        IterDone],
       {| errorArrays := [[errorAt "boom" "boom" [KeyName "boom"]]; []];
          world := [] |}) /\
  delivered
    (request QUERY
       [object "item" [leaf "n"]
          [{| label := None; patchFields := [leaf "boom"] |}]]
       [] exampleRoot)
    [[]; [0]; []]
  = Some
      ([IterValue
          (InitialResult
             {| resultErrors := None;
                resultData :=
                  Some (CObject
                          [("item", CObject [("n", CLeaf (VString "here"))])]);
                resultHasNext := Some true |});
        IterValue
          (PatchResult
             {| patch :=
                  Some {| patchData := CObject [("boom", CNull)];
                          patchPath := [KeyName "item"];
                          patchLabel := None;
                          patchErrors :=
                            Some [errorAt "boom" "boom"
                                    [KeyName "item"; KeyName "boom"]] |};
                hasNext := false |});
        IterDone],
       {| errorArrays :=
            [[]; [errorAt "boom" "boom" [KeyName "item"; KeyName "boom"]]];
          world := [] |}).
Proof. split; vm_compute; reflexivity. Qed.

(** C9, on the code. [{ feed }] where [feed: [String]] is drawn from an async
    sequence of 'two', an object that String cannot serialize, and 'four'.
    The failure at index 1 pushes null, records the located error and calls
    [resolve]; the catch block does not return, so [next(2, ...)] is still
    called and pushes 'four' on the array the promise was resolved with: the
    list in the response holds the element after the failing one. *)
Theorem C9_elements_after_a_failure_reach_the_list :
  settled (request QUERY [leaf "feed"] [] exampleRoot)
  = Some
      (Normal
         {| resultErrors :=
              Some [errorAt "String cannot represent value: <value>" "feed"
                      [KeyName "feed"; KeyIndex 1]];
            resultData :=
              Some (CObject
                      [("feed",
                        CList [CLeaf (VString "two"); CNull;
                               CLeaf (VString "four")])]);
            resultHasNext := None |},
       {| errorArrays :=
            [[errorAt "String cannot represent value: <value>" "feed"
                [KeyName "feed"; KeyIndex 1]]];
          world := [] |}).
Proof. vm_compute. reflexivity. Qed.

(** C5, on the code. [{ items @stream(initialCount: 1) }] where
    [items: [Int!]] is the list [[1, null]]. The element at index 1 is handed
    to the dispatcher, and its payload rejects, 'Cannot return null for
    non-nullable field Query.items.' being thrown on under the NonNull
    element type. The first [next()] gives the initial result with
    [hasNext: true]. The second [next()] never settles, in whatever order
    the host settles the payloads: [_race] listens to fulfilment only, so the
    payload that settled by rejecting is neither taken out of the queue nor
    emitted, and the sequence never ends. Over [[1, 2]] the same query does
    what the claim says: the patch with [hasNext: false], then the end. *)
Theorem C5_a_rejected_payload_is_never_taken_out :
  (exists d st d1,
     execute exampleHost nullInTheStream [] = (inl (ReturnsAsyncIterable d), st)
     /\
     _next [] d st =
     Some (IterValue
             (InitialResult
                {| resultErrors := None;
                   resultData :=
                     Some (CObject [("items", CList [CLeaf (VNumber 1)])]);
                   resultHasNext := Some true |}),
           d1, st) /\
     List.length (_subsequentPayloads d1) = 1 /\
     Forall rejectedPayload (_subsequentPayloads d1) /\
     forall schedule, _next schedule d1 st = None) /\
  delivered
    (request QUERY [streamed "items" 1] []
       (VObject [("items", VArray [VNumber 1; VNumber 2])]))
    [[]; [0]; []] =
  Some ([IterValue
           (InitialResult
              {| resultErrors := None;
                 resultData :=
                   Some (CObject [("items", CList [CLeaf (VNumber 1)])]);
                 resultHasNext := Some true |});
         IterValue
           (PatchResult
              {| patch :=
                   Some {| patchData := CLeaf (VNumber 2);
                           patchPath := [KeyName "items"; KeyIndex 1];
                           patchLabel := None;
                           patchErrors := None |};
                 hasNext := false |});
         IterDone],
        {| errorArrays := [[]; []]; world := [] |}).
Proof.
  split; [| vm_compute; reflexivity].
  destruct (execute exampleHost nullInTheStream [])
    as [[[r | d | promise] | e] st] eqn:E;
    try (vm_compute in E; discriminate E).
  assert (Hfacts :
    _hasReturnedInitialResult d = false /\
    _initialResult d =
    Some {| resultErrors := None;
            resultData :=
              Some (CObject [("items", CList [CLeaf (VNumber 1)])]);
            resultHasNext := None |} /\
    List.length (_subsequentPayloads d) = 1 /\
    Forall rejectedPayload (_subsequentPayloads d)).
  { vm_compute in E. inversion E; subst d st. clear E.
    split; [reflexivity |]. split; [reflexivity |]. split; [reflexivity |].
    constructor; [| constructor].
    intros st. eexists. reflexivity. }
  destruct Hfacts as (Hflag & Hinit & Hlen & Hall).
  exists d, st,
    {| _subsequentPayloads := _subsequentPayloads d;
       _initialResult := _initialResult d;
       _hasReturnedInitialResult := true |}.
  split; [reflexivity |]. split.
  { unfold _next. rewrite Hflag, Hinit. reflexivity. }
  split; [exact Hlen |]. split; [exact Hall |].
  intros schedule. apply next_over_rejected_payloads.
  - reflexivity.
  - simpl. intros Hnil. rewrite Hnil in Hlen. discriminate Hlen.
  - exact Hall.
Qed.

(** ** Instances of the general theorems *)

(** On the plain schema with the default resolvers no call returns a
    future. *)
Lemma plainSchema_no_futures (exeContext : ExecutionContext Log) :
  schema exeContext = plainSchema ->
  fieldResolver exeContext = defaultFieldResolver exampleHost ->
  typeResolver exeContext = defaultTypeResolver plainSchema ->
  NoFutures exampleHost exeContext.
Proof.
  intros Hs Hf Ht. constructor.
  - intros parentType node fieldDef f H Hr. rewrite Hs in H.
    unfold getFieldDef in H. cbn in H.
    repeat (match type of H with
            | context [if ?c then _ else _] => destruct c
            end; cbn in H);
      try discriminate; inversion H; subst fieldDef; cbn in Hr;
      try discriminate; inversion Hr; subst f;
      intros source args ctx info w v w1 _ E; inversion E; reflexivity.
  - rewrite Hf. apply defaultFieldResolver_sync.
    intros source key. cbn. destruct (String.eqb key "toString").
    + intros args contextValue info w v w1 H. inversion H. reflexivity.
    + reflexivity.
  - intros typeName f v contextValue info w H. rewrite Hs in H. discriminate.
  - intros typeName f v contextValue info abstractType w H. rewrite Hs in H.
    discriminate.
  - rewrite Ht. apply defaultTypeResolver_noPromise.
    intros typeName f v' c' i' w' H. discriminate.
  - intros typeName v settle H. rewrite Hs in H. cbn in H.
    destruct v; discriminate H.
Qed.

(** The context [buildExecutionContext] builds for a plain request. *)
Lemma plainRequest_context (rootFields : list GroupedField)
    (rootPatches : list (PatchRecord GroupedField))
    (exeContext : ExecutionContext Log) :
  buildExecutionContext exampleHost (plainRequest rootFields rootPatches)
  = inl (inr exeContext) ->
  exeContext =
  {| schema := plainSchema;
     rootValue := plainRoot;
     contextValue := VUndefined;
     exeOperation := operationOf QUERY None rootFields rootPatches;
     variableValues := [];
     fieldResolver := defaultFieldResolver exampleHost;
     typeResolver := defaultTypeResolver plainSchema;
     subscribeFieldResolver := defaultFieldResolver exampleHost;
     exeErrors := 0 |}.
Proof.
  intros H. cbn in H. inversion H. reflexivity.
Qed.

(** A selection without directives and sub-selections is not incremental. *)
Lemma leaf_notIncremental (name : string) :
  notIncremental exampleHost [] (leaf name).
Proof.
  constructor.
  - reflexivity.
  - intros returnType. reflexivity.
  - intros returnType g' H. destruct H.
Qed.

(** [{ x }] on the plain schema is a synchronous execution. *)
Lemma plainRequest_sync (exeContext : ExecutionContext Log) :
  buildExecutionContext exampleHost (plainRequest [leaf "x"] [])
  = inl (inr exeContext) ->
  SyncExecution exampleHost exeContext.
Proof.
  intros H. apply plainRequest_context in H. subst exeContext. constructor.
  - apply plainSchema_no_futures; reflexivity.
  - intros rootType. split; [reflexivity |].
    intros g [<- | []]. apply leaf_notIncremental.
Qed.

(** C2, on [{ x }] over the plain schema: [execute] returns a result and
    [executeSync] returns the same. *)
Lemma C2_witness_plain_query :
  exists st r,
    execute exampleHost (plainRequest [leaf "x"] []) [] =
    (inl (ReturnsResult r), st) /\
    executeSync exampleHost (plainRequest [leaf "x"] []) [] = (inl r, st).
Proof.
  destruct (C2_execute_without_futures_returns_a_result exampleHost
              (plainRequest [leaf "x"] []) []) as [H _].
  destruct (H eq_refl plainRequest_sync) as [st [[r Hr] | [e [_ Ha]]]].
  - exists st, r. exact Hr.
  - vm_compute in Ha. discriminate Ha.
Defined.

(** C2 as stated fails on [{ x ... @defer { x } }] over the plain schema: the
    root value holds no future and no resolver, [isTypeOf] or [resolveType]
    returns one, yet [buildResponse] finds a subsequent payload and [execute]
    returns the async sequence of the dispatcher (initial result with
    [hasNext: true], then the patch); [executeSync] throws. *)
Lemma C2_counterexample_deferred_fragment :
  let args :=
    plainRequest [leaf "x"] [{| label := None; patchFields := [leaf "x"] |}] in
  syncValue (argRootValue args) = true /\
  (forall exeContext,
     buildExecutionContext exampleHost args = inl (inr exeContext) ->
     NoFutures exampleHost exeContext) /\
  delivered args [[]; [0]; []] =
  Some ([IterValue
           (InitialResult
              {| resultErrors := None;
                 resultData := Some (CObject [("x", CLeaf (VString "a"))]);
                 resultHasNext := Some true |});
         IterValue
           (PatchResult
              {| patch :=
                   Some {| patchData := CObject [("x", CLeaf (VString "a"))];
                           patchPath := [];
                           patchLabel := None;
                           patchErrors := None |};
                 hasNext := false |});
         IterDone],
        {| errorArrays := [[]; []]; world := [] |}) /\
  executeSync exampleHost args [] =
  (inr (newError "GraphQL execution failed to complete synchronously."),
   {| errorArrays := [[]; []]; world := [] |}).
Proof.
  cbv zeta. split; [reflexivity |]. split; [| split; vm_compute; reflexivity].
  intros exeContext H. apply plainRequest_context in H. subst exeContext.
  apply plainSchema_no_futures; reflexivity.
Qed.

(** C10, on [{ unknown }] over the example schema. *)
Lemma C10_witness_unknown_field :
  executeField exampleHost (leaf "unknown")
    (exampleContext (operationOf QUERY None [leaf "unknown"] []))
    "Query" exampleRoot (pathNode None (KeyName "unknown") (Some "Query")) 0
    emptyStore
  = (Normal None, emptyStore, []).
Proof.
  destruct (C10_undefined_field_is_omitted exampleHost
              (exampleContext (operationOf QUERY None [leaf "unknown"] []))
              "Query" (leaf "unknown")) as [H _].
  - reflexivity.
  - discriminate.
  - intros _. split; discriminate.
  - apply H.
Defined.

(** C4, on [items @stream(initialCount: 2)] over [[1, 2, 3, 4]]: two elements
    inline, two payloads, one fresh error list for each payload. *)
Lemma C4_witness_two_of_four :
  let r :=
    completeListValue exampleHost completeInt
      (exampleContext (operationOf QUERY None [streamed "items" 2] []))
      (GraphQLNonNull Int') (streamed "items" 2) itemsInfo
      (infoPath itemsInfo)
      (VArray [VNumber 1; VNumber 2; VNumber 3; VNumber 4]) 0 emptyStore in
  fst (fst r) =
  Normal (Ready (CList [CLeaf (VNumber 1); CLeaf (VNumber 2)])) /\
  errorArrays (snd (fst r)) = [[]; []; []] /\
  List.length (snd r) = 2.
Proof.
  cbv zeta.
  destruct (C4_streamed_list_is_split exampleHost completeInt
              (exampleContext (operationOf QUERY None [streamed "items" 2] []))
              (GraphQLNonNull Int') (streamed "items" 2) itemsInfo
              (infoPath itemsInfo)
              [VNumber 1; VNumber 2; VNumber 3; VNumber 4] 0 2%Z None
              emptyStore eq_refl) as [E _].
  - lia.
  - rewrite E. vm_compute. repeat split.
Defined.

(** C6, on [mutation { a b c }]: [b] is invoked after the promise of [a]
    has settled, [c] after the promise of [b]. *)
Lemma C6_witness_three_mutations :
  executeOperation exampleHost (exampleContext threeMutations) threeMutations exampleRoot emptyStore
  = bind
      (executeFieldsSerially exampleHost (exampleContext threeMutations) "Mutation"
         exampleRoot None [leaf "a"; leaf "b"; leaf "c"])
      (fun result => ret result) emptyStore /\
  bind
    (executeFieldsSerially exampleHost (exampleContext threeMutations) "Mutation"
       exampleRoot None [leaf "a"; leaf "b"; leaf "c"])
    await emptyStore
  = (Normal (CObject [("a", CLeaf (VString "A")); ("b", CLeaf (VString "B"));
                      ("c", CLeaf (VString "C"))]),
     {| errorArrays := [[]];
        world := ["invoked a"; "settled a"; "invoked b"; "settled b";
                  "invoked c"] |},
     []).
Proof.
  destruct (C6_mutation_fields_run_serially exampleHost (exampleContext threeMutations)
              threeMutations exampleRoot "Mutation" emptyStore eq_refl eq_refl)
    as [E1 E2].
  split.
  - rewrite E1. reflexivity.
  - rewrite E2. vm_compute. reflexivity.
Defined.

(** C7, on the union [Pet] and its member [Dog]. *)
Lemma C7_witness_dog_is_a_pet :
  ensureValidRuntimeType exampleHost (VString "Dog")
    (exampleContext (operationOf QUERY None [pet] [])) "Pet"
    (fieldNodes pet) petInfo exampleRoot
  = inl "Dog".
Proof.
  pose proof (C7_runtime_type_is_validated exampleHost
                (fun _ => {| fields := []; patches := [] |})
                (exampleContext (operationOf QUERY None [pet] [])) "Pet"
                pet petInfo (infoPath petInfo) exampleRoot 0) as H.
  cbv zeta in H. destruct H as [H _].
  apply H. repeat split.
Defined.


(** C4 as stated fails on [{ items @stream(initialCount: 2, if: false) }]
    over [[1, 2, 3, 4]]: the field carries [@stream(initialCount: 2)], yet
    the list in the data holds all four elements and no element is handed to
    the dispatcher. It fails too on [{ items @stream(initialCount: 2) }]
    with [items: [Int!]] over [[1, null, 3, 4]]: the inline element at index
    1 fails under the NonNull element type, the list completion throws,
    [items] is null, and the elements at the indices 2 and 3 are never
    handed to the dispatcher. *)
Lemma C4_counterexample_disabled_or_failing :
  execute exampleHost (request QUERY [unstreamed "items" 2] [] exampleRoot) []
  = (inl (ReturnsResult
            {| resultErrors := None;
               resultData :=
                 Some (CObject
                         [("items",
                           CList [CLeaf (VNumber 1); CLeaf (VNumber 2);
                                  CLeaf (VNumber 3); CLeaf (VNumber 4)])]);
               resultHasNext := None |}),
     emptyStore) /\
  execute exampleHost
    (request QUERY [streamed "items" 2] []
       (VObject [("items", VArray [VNumber 1; VNull; VNumber 3; VNumber 4])]))
    []
  = (inl (ReturnsResult
            {| resultErrors :=
                 Some [{| message :=
                            "Cannot return null for non-nullable field Query.items.";
                          nodes := Some (fieldNodes (streamed "items" 2));
                          path := Some [KeyName "items"; KeyIndex 1] |}];
               resultData := Some (CObject [("items", CNull)]);
               resultHasNext := None |}),
     {| errorArrays :=
          [[{| message :=
                 "Cannot return null for non-nullable field Query.items.";
               nodes := Some (fieldNodes (streamed "items" 2));
               path := Some [KeyName "items"; KeyIndex 1] |}]];
        world := [] |}).
Proof. split; vm_compute; reflexivity. Qed.

(** C6 as stated fails on [mutation { a ... @defer { b c } }]: when
    [executeOperation] returns, the promise of the root field [a] is still
    pending, and the resolvers of the root fields [b] and [c] of the deferred
    fragment have been invoked already, [c] before the promise of [b] has
    settled; [a] settles after that. *)
Lemma C6_counterexample_deferred_mutation_fields :
  match
    executeOperation exampleHost (exampleContext deferredMutations)
      deferredMutations exampleRoot emptyStore
  with
  | (Normal (Pending promise), st1, payloads) =>
      world st1 = ["invoked a"; "invoked b"; "invoked c"] /\
      List.length payloads = 1 /\
      world (snd (fst (promise st1))) =
      ["invoked a"; "invoked b"; "invoked c"; "settled a"]
  | _ => False
  end.
Proof. vm_compute. repeat split. Qed.


(** X25, on a queue of two payloads of which the host settles the second
    first: it is emitted with [hasNext: true] and the first stays. *)
Lemma X25_witness_the_second_payload_first :
  _next [1]
    {| _subsequentPayloads :=
         [addFieldsPayload (Ready (CObject [])) 0 (Some "first") None;
          addFieldsPayload (Ready (CObject [])) 0 (Some "second") None];
       _initialResult := None;
       _hasReturnedInitialResult := true |}
    emptyStore
  = Some (IterValue
            (PatchResult
               {| patch :=
                    Some {| patchData := CObject []; patchPath := [];
                            patchLabel := Some "second";
                            patchErrors := None |};
                  hasNext := true |}),
          {| _subsequentPayloads :=
               [addFieldsPayload (Ready (CObject [])) 0 (Some "first") None];
             _initialResult := None;
             _hasReturnedInitialResult := true |},
          emptyStore).
Proof.
  destruct (X25_the_race_delivers_the_payload_that_fulfils
              {| _subsequentPayloads :=
                   [addFieldsPayload (Ready (CObject [])) 0 (Some "first")
                      None;
                    addFieldsPayload (Ready (CObject [])) 0 (Some "second")
                      None];
                 _initialResult := None;
                 _hasReturnedInitialResult := true |}
              emptyStore) as [_ H].
  destruct (H eq_refl 1 []
              (bind (await (Ready (CObject [])))
                 (fun data =>
                    bind (getErrors 0)
                      (fun errs =>
                         ret (IterValue
                                (createPatchResult data (Some "second") None
                                   errs)))))
              emptyStore [] eq_refl) as [Hv _].
  destruct (Hv _ eq_refl) as (more & E & Hmore).
  rewrite E. destruct more.
  - reflexivity.
  - exfalso. assert (Hf : false = true) by (apply Hmore; discriminate).
    discriminate Hf.
Defined.

(** X2, on [{ n }] with [n: String!] resolving to null: the error is located
    at the path of [n] and rethrown to the frame above. *)
Lemma X2_witness_null_under_nonnull :
  executeField exampleHost (leaf "n")
    (exampleContext (operationOf QUERY None [leaf "n"] []))
    "Query" exampleRoot (pathNode None (KeyName "n") (Some "Query")) 0
    emptyStore
  = (Abrupt (errorAt "Cannot return null for non-nullable field Query.n." "n"
               [KeyName "n"]),
     emptyStore, []).
Proof.
  apply (X2_field_error_bubbles_or_becomes_null exampleHost (leaf "n")
           (exampleContext (operationOf QUERY None [leaf "n"] []))
           "Query" exampleRoot (pathNode None (KeyName "n") (Some "Query")) 0
           emptyStore emptyStore
           (field "n" (GraphQLNonNull String')
              (Some (fun _ _ _ _ w => (inl VNull, w))))
           [] VNull []
           (newError "Cannot return null for non-nullable field Query.n.")
           []).
  - reflexivity.
  - reflexivity.
  - reflexivity.
  - discriminate.
  - reflexivity.
Defined.

(** ** Instances of the further properties *)

(** X3, on a call without a document. *)
Lemma X3_witness_no_document :
  execute exampleHost
    {| argSchema := plainSchema;
       argDocument := None;
       argRootValue := plainRoot;
       argContextValue := VUndefined;
       argVariableValues := Some (VString "{}");
       argOperationName := None;
       argFieldResolver := None;
       argTypeResolver := None;
       argSubscribeFieldResolver := None |} []
  = (inr (newError "Must provide document."), emptyStore).
Proof.
  apply (X3_execute_throws_only_on_invalid_arguments exampleHost).
  split; reflexivity.
Defined.

(** X4, on [{ x }] over the plain schema. *)
Lemma X4_witness_plain_query :
  exists result st0,
    execute exampleHost (plainRequest [leaf "x"] []) [] = (inl result, st0).
Proof.
  destruct (X4_execute_resolves_to_a_response exampleHost
              (plainRequest [leaf "x"] []) [] (plainContext [leaf "x"] [])
              eq_refl eq_refl) as [(result & st0 & H & _) _].
  exists result, st0. exact H.
Defined.

(** X5, on null under [String!]. *)
Lemma X5_witness_null_under_nonnull :
  completeValue exampleHost (fun _ => {| fields := []; patches := [] |})
    (plainContext [leaf "n"] []) (GraphQLNonNull String') (leaf "n")
    (rootInfo "n" (GraphQLNonNull String'))
    (pathNode None (KeyName "n") (Some "Query")) VNull 0 emptyStore
  = (Abrupt (newError "Cannot return null for non-nullable field Query.n."),
     emptyStore, []).
Proof.
  apply (X5_completeValue_of_null_and_of_an_error exampleHost).
  reflexivity.
Defined.

(** X6, on a string under [String!]. *)
Lemma X6_witness_string_under_nonnull :
  hasShape (GraphQLNonNull String') (CLeaf (VString "a") : Completed Log)
  = true.
Proof.
  refine (X6_completed_value_has_the_shape_of_its_type exampleHost
            (fun _ => {| fields := []; patches := [] |})
            (plainContext [leaf "x"] []) (leaf "x")
            (rootInfo "x" (GraphQLNonNull String'))
            (pathNode None (KeyName "x") (Some "Query")) 0
            (GraphQLNonNull String') (VString "a") emptyStore emptyStore
            (Ready (CLeaf (VString "a"))) [] _ eq_refl).
  intros name raw settle H. destruct raw; discriminate H.
Defined.
(** X7, on a value without [bark] where a [Dog] is expected. *)
Lemma X7_witness_not_a_dog :
  completeObjectValue exampleHost (fun _ => {| fields := []; patches := [] |})
    guardedContext "Dog" (object "dog" [leaf "bark"] [])
    (rootInfo "dog" (GraphQLObject "Dog"))
    (pathNode None (KeyName "dog") (Some "Query")) (VObject []) 0 emptyStore
  = (Abrupt
       (newGraphQLError
          ("Expected value of type " ++ quoted "Dog" ++ " but got: <value>.")
          (Some [fieldNode "dog" []])),
     emptyStore, []).
Proof.
  pose proof (X7_isTypeOf_guards_the_object exampleHost
                (fun _ => {| fields := []; patches := [] |})
                guardedContext "Dog" (object "dog" [leaf "bark"] [])
                (rootInfo "dog" (GraphQLObject "Dog"))
                (pathNode None (KeyName "dog") (Some "Query")) (VObject []) 0
                emptyStore) as H.
  cbv zeta in H. destruct H as [_ H].
  exact (H _ eq_refl).
Defined.


(** X9, on [{ x }] over a root value without [x]. *)
Lemma X9_witness_missing_property :
  executeField exampleHost (leaf "x") (plainContext [leaf "x"] []) "Query"
    (VObject []) (pathNode None (KeyName "x") (Some "Query")) 0 emptyStore
  = (Normal (Some (Ready CNull)), emptyStore, []).
Proof.
  exact (X9_a_missing_property_completes_to_null exampleHost (leaf "x")
           (plainContext [leaf "x"] []) "Query" (VObject [])
           (pathNode None (KeyName "x") (Some "Query")) 0 emptyStore
           (field "x" String' None) [] eq_refl eq_refl eq_refl eq_refl
           (fun _ => ex_intro _ VUndefined (conj eq_refl eq_refl))).
Defined.

(** X10, on [{ unknown x }]: the only key is [x]. *)
Lemma X10_witness_keys :
  exists object : list (string * Completed Log),
    CObject [("x", CLeaf (VString "a"))] = CObject object /\
    map fst object = ["x"].
Proof.
  refine (X10_response_keys_follow_the_selection exampleHost
            (plainContext [leaf "unknown"; leaf "x"] []) "Query" plainRoot
            None 0 [leaf "unknown"; leaf "x"] emptyStore emptyStore
            (Ready (CObject [("x", CLeaf (VString "a"))])) [] _ eq_refl).
  constructor; [intros [H | []]; discriminate H |].
  constructor; [intros [] | constructor].
Defined.

(** X11, on a list of two strings. *)
Lemma X11_witness_two_strings :
  exists l : list (Completed Log),
    CList [CLeaf (VString "a"); CLeaf (VString "b")] = CList l /\
    List.length l = 2.
Proof.
  exact (X11_a_list_keeps_the_length_of_its_source exampleHost completeString
           (plainContext [leaf "feed"] []) String' (leaf "feed")
           (rootInfo "feed" (GraphQLList String'))
           (pathNode None (KeyName "feed") (Some "Query"))
           (VArray [VString "a"; VString "b"]) 0 emptyStore eq_refl
           (Ready (CList [CLeaf (VString "a"); CLeaf (VString "b")]))
           emptyStore [] eq_refl).
Defined.

(** X12, on a document with the operations [A] and [B] and the name [B]. *)
Lemma X12_witness_named_operation :
  buildExecutionContext exampleHost
    (argsOf [OPERATION_DEFINITION
               (operationOf QUERY (Some "A") [leaf "x"] []);
             OPERATION_DEFINITION
               (operationOf QUERY (Some "B") [leaf "n"] [])]
       (Some "B") exampleRoot)
  = inl (inr (exampleContext (operationOf QUERY (Some "B") [leaf "n"] []))).
Proof.
  refine (X12_buildExecutionContext_selects_the_operation exampleHost
            (argsOf [OPERATION_DEFINITION
                       (operationOf QUERY (Some "A") [leaf "x"] []);
                     OPERATION_DEFINITION
                       (operationOf QUERY (Some "B") [leaf "n"] [])]
               (Some "B") exampleRoot)
            [OPERATION_DEFINITION
               (operationOf QUERY (Some "A") [leaf "x"] [])]
            [] (operationOf QUERY (Some "B") [leaf "n"] []) [] eq_refl _
            eq_refl).
  split; [reflexivity | intros op' []].
Defined.

(** X13, on a string handed to [addValue]. *)
Lemma X13_witness_streamed_string :
  match
    addValuePayload completeString
      (pathNode None (KeyIndex 2) None) (VString "c") [fieldNode "feed" []]
      String' None 0
  with
  | payload run =>
      run emptyStore =
      (Normal
         (IterValue
            {| patchData := CLeaf (VString "c");
               patchPath := [KeyIndex 2];
               patchLabel := None;
               patchErrors := None |}),
       emptyStore, [])
  end.
Proof.
  destruct (X13_addValue_delivers_the_element_or_its_error completeString
              (pathNode None (KeyIndex 2) None) (VString "c")
              [fieldNode "feed" []] String' None 0 emptyStore emptyStore [])
    as [H _].
  - discriminate.
  - simpl. lia.
  - exact (H _ eq_refl).
Defined.

(** X14, on [{ x ... @defer { x } }] over the plain schema. *)
Lemma X14_witness_deferred_fragment :
  exists d st,
    execute exampleHost
      (plainRequest [leaf "x"]
         [{| label := None; patchFields := [leaf "x"] |}]) []
    = (inl (ReturnsAsyncIterable d), st).
Proof.
  pose proof (X14_a_root_patch_makes_the_response_incremental exampleHost
                (plainRequest [leaf "x"]
                   [{| label := None; patchFields := [leaf "x"] |}]) []
                (plainContext [leaf "x"]
                   [{| label := None; patchFields := [leaf "x"] |}])
                "Query" eq_refl eq_refl eq_refl) as H.
  assert (Hne :
    patches
      (collectFields
         (exeOperation
            (plainContext [leaf "x"]
               [{| label := None; patchFields := [leaf "x"] |}]))
         "Query") <> []) by discriminate.
  specialize (H Hne). hnf in H. destruct H as [_ H].
  eexists _, _. exact H.
Defined.

(** X15, on a mutation sent to the plain schema, which has no mutation
    type. *)
Lemma X15_witness_mutation_without_type :
  exists error,
    execute exampleHost
      (plainArgs (operationOf MUTATION None [leaf "x"] [])) []
    = (inl (ReturnsResult
              {| resultErrors := Some [error];
                 resultData := Some CNull;
                 resultHasNext := None |}),
       {| errorArrays := [[error]]; world := [] |}).
Proof.
  destruct (X15_an_operation_without_root_type_gives_null_data exampleHost
              (plainArgs (operationOf MUTATION None [leaf "x"] [])) []
              (plainContextOf (operationOf MUTATION None [leaf "x"] []))
              eq_refl eq_refl eq_refl) as (error & _ & _ & H).
  exists error. exact H.
Defined.

(** X16, on [{ boom }] executed over a store that already holds an error. *)
Lemma X16_witness_boom :
  exists more,
    readErrors 0
      (snd (fst (executeOperation exampleHost
                   (exampleContext (operationOf QUERY None [leaf "boom"] []))
                   (operationOf QUERY None [leaf "boom"] []) exampleRoot
                   earlierStore)))
    = readErrors 0 earlierStore ++ more.
Proof.
  destruct (executeOperation exampleHost
              (exampleContext (operationOf QUERY None [leaf "boom"] []))
              (operationOf QUERY None [leaf "boom"] []) exampleRoot
              earlierStore) as [[r st1] ps] eqn:E.
  exact (proj1 (X16_recorded_errors_are_never_lost exampleHost _ _ _ _ _ _ _
                  E) 0).
Defined.

(** X17, on [{ n }] with [n: String!] resolving to null. *)
Lemma X17_witness_null_at_the_root :
  execute exampleHost (request QUERY [leaf "n"] [] exampleRoot) []
  = (inl (ReturnsResult
            {| resultErrors :=
                 Some [errorAt
                         "Cannot return null for non-nullable field Query.n."
                         "n" [KeyName "n"]];
               resultData := Some CNull;
               resultHasNext := None |}),
     {| errorArrays :=
          [[errorAt "Cannot return null for non-nullable field Query.n."
              "n" [KeyName "n"]]];
        world := [] |}).
Proof.
  exact (X17_a_thrown_operation_gives_null_data exampleHost
           (request QUERY [leaf "n"] [] exampleRoot) []
           (exampleContext (operationOf QUERY None [leaf "n"] []))
           eq_refl eq_refl).
Defined.

(** X18, on [{ boom }], whose resolver throws. *)
Lemma X18_witness_throwing_resolver :
  executeField exampleHost (leaf "boom")
    (exampleContext (operationOf QUERY None [leaf "boom"] [])) "Query"
    exampleRoot (pathNode None (KeyName "boom") (Some "Query")) 0 emptyStore
  = (Normal (Some (Ready CNull)),
     {| errorArrays := [[errorAt "boom" "boom" [KeyName "boom"]]];
        world := [] |},
     []).
Proof.
  exact (X18_resolver_failures_become_field_errors exampleHost (leaf "boom")
           (exampleContext (operationOf QUERY None [leaf "boom"] [])) "Query"
           exampleRoot (pathNode None (KeyName "boom") (Some "Query")) 0
           emptyStore
           (field "boom" String'
              (Some (fun _ _ _ _ w => (inr (newError "boom"), w))))
           eq_refl).
Defined.

(** X19, on [{ x }] over the plain schema. *)
Lemma X19_witness_plain_fields :
  executeFieldsSerially exampleHost (plainContext [leaf "x"] []) "Query"
    plainRoot None [leaf "x"] emptyStore
  = (Normal (Ready (CObject [("x", CLeaf (VString "a"))])), emptyStore, []).
Proof.
  apply (X19_serial_and_parallel_agree_without_promises exampleHost).
  reflexivity.
Defined.

(** X20, on [{ x n boom }] with [n: String!] resolving to null: [boom] is
    not executed. *)
Lemma X20_witness_null_stops_the_set :
  executeFields exampleHost
    (exampleContext (operationOf QUERY None [leaf "x"; leaf "n"; leaf "boom"] []))
    "Query" exampleRoot None [leaf "x"; leaf "n"; leaf "boom"] 0 emptyStore
  = (Abrupt
       (errorAt "Cannot return null for non-nullable field Query.n." "n"
          [KeyName "n"]),
     emptyStore, []).
Proof.
  exact (X20_a_throwing_field_ends_its_selection_set exampleHost
           (exampleContext
              (operationOf QUERY None [leaf "x"; leaf "n"; leaf "boom"] []))
           "Query" exampleRoot None 0 [leaf "x"] [leaf "boom"] (leaf "n")
           emptyStore emptyStore emptyStore
           (Ready (CObject [("x", CLeaf (VString "a"))])) [] [] _
           eq_refl eq_refl).
Defined.

(** X21, on the queue of two deferred fragments. *)
Lemma X21_witness_two_patches :
  nextCalls [[0]; [0]; [0]; [0]]
    (get (dispatcherWith
            [addFieldsPayload (Ready (CObject [])) 0 (Some "first") None;
             addFieldsPayload (Ready (CObject [])) 0 (Some "second") None])
       {| resultErrors := None; resultData := Some (CObject []);
          resultHasNext := None |})
    emptyStore
  = [IterValue
       (InitialResult
          {| resultErrors := None; resultData := Some (CObject []);
             resultHasNext := Some true |});
     IterValue
       (PatchResult
          {| patch :=
               Some {| patchData := CObject []; patchPath := [];
                       patchLabel := Some "first"; patchErrors := None |};
             hasNext := true |});
     IterValue
       (PatchResult
          {| patch :=
               Some {| patchData := CObject []; patchPath := [];
                       patchLabel := Some "second"; patchErrors := None |};
             hasNext := false |});
     IterDone].
Proof.
  refine (X21_the_sequence_delivers_every_patch_once
            [addFieldsPayload (Ready (CObject [])) 0 (Some "first") None;
             addFieldsPayload (Ready (CObject [])) 0 (Some "second") None]
            [fun st => createPatchResult (CObject []) (Some "first") None
                         (readErrors 0 st);
             fun st => createPatchResult (CObject []) (Some "second") None
                         (readErrors 0 st)]
            {| resultErrors := None; resultData := Some (CObject []);
               resultHasNext := None |}
            emptyStore _).
  constructor; [intros st; reflexivity |].
  constructor; [intros st; reflexivity | constructor].
Defined.

(** X22, on [@stream(initialCount: 1)] over an async sequence of three
    strings. *)
Lemma X22_witness_three_strings :
  exists promise,
    completeAsyncIteratorValue completeString
      (Some {| initialCount := Some 1%Z; streamLabel := None |})
      [fieldNode "feed" []] String'
      (pathNode None (KeyName "feed") (Some "Query")) 0
      [inl (VString "a"); inl (VString "b"); inl (VString "c")] emptyStore
    = (Normal (Pending promise), emptyStore, []).
Proof.
  destruct (X22_an_async_sequence_is_streamed_element_by_element
              completeString (fun item => CLeaf item) [fieldNode "feed" []]
              String' (pathNode None (KeyName "feed") (Some "Query")) None
              [VString "a"; VString "b"; VString "c"])
    with (n := 1) (errors := 0) (st := emptyStore)
    as (promise & H & _).
  - intros itemPath item errors st [<- | [<- | [<- | []]]]; reflexivity.
  - simpl. lia.
  - exists promise. exact H.
Defined.

(** X23, on [{ boom }] executed with the first of two error lists. *)
Lemma X23_witness_the_other_list :
  readErrors 1
    (snd (fst (executeFields exampleHost
                 (exampleContext (operationOf QUERY None [leaf "boom"] []))
                 "Query" exampleRoot None [leaf "boom"] 0 twoLists)))
  = readErrors 1 twoLists.
Proof.
  destruct (executeFields exampleHost
              (exampleContext (operationOf QUERY None [leaf "boom"] []))
              "Query" exampleRoot None [leaf "boom"] 0 twoLists)
    as [[r st1] ps] eqn:E.
  apply (proj1 (X23_field_errors_go_to_the_given_accumulator_only
                  exampleHost _ _ _ _ _ _ _ _ _ _ E)).
  - simpl. lia.
  - discriminate.
Defined.

(** X24, on a list of a string, an object and a string at [[String]]. *)
Lemma X24_witness_a_null_in_the_middle :
  exists st1,
    completeListValue exampleHost completeString
      (plainContext [leaf "feed"] []) String' (leaf "feed")
      (rootInfo "feed" (GraphQLList String'))
      (pathNode None (KeyName "feed") (Some "Query"))
      (VArray [VString "a"; VObject []; VString "c"]) 0 emptyStore
    = (Normal
         (Ready (CList [CLeaf (VString "a"); CNull; CLeaf (VString "c")])),
       st1, []).
Proof.
  destruct (X24_a_failing_element_is_null_or_fails_the_list exampleHost
              completeString serialized (plainContext [leaf "feed"] [])
              String' (leaf "feed") (rootInfo "feed" (GraphQLList String'))
              (pathNode None (KeyName "feed") (Some "Query"))
              [VString "a"; VObject []; VString "c"] 0 emptyStore)
    as [H _].
  - intros item settle [<- | [<- | [<- | []]]]; discriminate.
  - intros itemPath item st' [<- | [<- | [<- | []]]]; reflexivity.
  - reflexivity.
  - simpl. lia.
  - destruct (H eq_refl) as (st1 & E & _). exists st1. exact E.
Defined.
